(** * FlowCraft: the workflow engine, its built-in executors and the task queue

    A shallow embedding of [internal/engine/engine.go],
    [internal/engine/executors.go], [internal/queue/queue.go], the
    registration of the default node types in
    [internal/database/database.go] and the rows of [internal/models],
    followed by the properties of the engine that the specification states
    and by further properties of the code.

    Conventions.
    - A Go [interface{}] holding JSON-like data is a [Value]; a
      [map[string]interface{}] is a [gmap string Value]; the result table
      [map[uint]interface{}] is a [gmap nat Value].  A nil slice and an empty
      slice are both [VList []], a nil map and an empty map are both [∅].
    - A Go [error] is its [Error()] text.
    - The relational store behind [database.DB] is a record of tables, each a
      list of rows in primary-key order; the engine functions pass it along
      explicitly together with a logical clock that [time.Now] reads and
      advances.
    - What the repository takes from its platform (the [fmt] verb [%v],
      [encoding/json], the network behind the HTTP executor, the Go plugin
      loader) is a field of the class [Platform].  For the envelope of a
      task the string literal and the layout that [encoding/json] writes and
      reads are modelled; the compaction of the payload is a field of the
      class [JSONText]. *)

From Stdlib Require Import Ascii String Floats.SpecFloat.
From stdpp Require Import gmap strings list fin_maps pretty relations.

Set Warnings "-register-all".

Local Open Scope string_scope.
Local Open Scope list_scope.
Local Open Scope nat_scope.

(** ** Values *)

(** The dynamic values that travel between nodes: what [encoding/json] decodes
    into an [interface{}] (nil, bool, float64, string, slice, map) and the Go
    [int] that the HTTP executor stores under ["status_code"]. *)
Inductive Value : Type :=
| VNil
| VBool (b : bool)
| VInt (n : Z)
| VFloat (f : spec_float)
| VStr (s : string)
| VList (l : list Value)
| VMap (m : gmap string Value).

Definition error : Type := string.

(** ** The fragment of package [strings] that the executors call *)

Definition strings_HasPrefix (s prefix : string) : bool := String.prefix prefix s.

Definition strings_HasSuffix (s suffix : string) : bool :=
  String.prefix (String.rev suffix) (String.rev s).

Fixpoint strings_Contains (s substr : string) : bool :=
  String.prefix substr s ||
  match s with
  | EmptyString => false
  | String _ s' => strings_Contains s' substr
  end.

(** [strings.Split(s, sep)] for a separator of one byte, the only use the
    executors make of it ([strings.Split(fieldPath, ".")]). *)
Fixpoint strings_Split (s : string) (sep : ascii) : list string :=
  match s with
  | EmptyString => [EmptyString]
  | String c s' =>
      match strings_Split s' sep with
      | part :: parts =>
          if decide (c = sep) then EmptyString :: part :: parts
          else String c part :: parts
      | [] => [String c EmptyString]
      end
  end.

(** The UTF-8 encodings of the code points for which [unicode.IsSpace] holds. *)
Definition white_space : list (list nat) :=
  [ [9]; [10]; [11]; [12]; [13]; [32]; [194; 133]; [194; 160]; [225; 154; 128];
    [226; 128; 128]; [226; 128; 129]; [226; 128; 130]; [226; 128; 131];
    [226; 128; 132]; [226; 128; 133]; [226; 128; 134]; [226; 128; 135];
    [226; 128; 136]; [226; 128; 137]; [226; 128; 138]; [226; 128; 168];
    [226; 128; 169]; [226; 128; 175]; [226; 129; 159]; [227; 128; 128] ].

Definition bytes_of (s : string) : list nat :=
  nat_of_ascii <$> list_ascii_of_string s.

Definition string_of_bytes (l : list nat) : string :=
  string_of_list_ascii (ascii_of_nat <$> l).

Fixpoint strip_prefix (p l : list nat) : option (list nat) :=
  match p, l with
  | [], _ => Some l
  | a :: p', b :: l' => if decide (a = b) then strip_prefix p' l' else None
  | _ :: _, [] => None
  end.

Fixpoint strip_first (ps : list (list nat)) (l : list nat) : option (list nat) :=
  match ps with
  | [] => None
  | p :: ps' =>
      match strip_prefix p l with
      | Some l' => Some l'
      | None => strip_first ps' l
      end
  end.

(** Drops the white space at the front of [l]; [n] bounds the number of
    white-space runes dropped and is taken as the length of [l]. *)
Fixpoint trim_left (spaces : list (list nat)) (n : nat) (l : list nat) : list nat :=
  match n with
  | 0 => l
  | S n' =>
      match strip_first spaces l with
      | Some l' => trim_left spaces n' l'
      | None => l
      end
  end.

Definition strings_TrimSpace (s : string) : string :=
  let l := bytes_of s in
  let l := trim_left white_space (length l) l in
  let r := trim_left (reverse <$> white_space) (length l) (reverse l) in
  string_of_bytes (reverse r).

(** The slice expression [v[lo:hi]] for [lo <= hi <= len(v)]. *)
Definition slice (v : string) (lo hi : nat) : string := String.substring lo (hi - lo) v.

(** ** The platform *)

(** A [NodeExecutor] is the one method of the interface.  The first argument
    is the logical time of the call: a built-in executor ignores it, an
    executor that talks to the outside world may answer differently each
    time. *)
Record NodeExecutor : Type := {
  Execute : nat -> gmap string Value -> gmap string Value -> Value * option error
}.

(** The places at which [HttpRequestExecutor.Execute] gives up once the url
    is known, and the text that [fmt.Errorf] puts before the cause at each
    of them. *)
Inductive HttpFailure : Type :=
| MarshalJSONData
| CreateRequest
| DoRequest
| ReadResponse.

Definition HttpFailure_prefix (failure : HttpFailure) : string :=
  match failure with
  | MarshalJSONData => "failed to marshal json data: "
  | CreateRequest => "failed to create request: "
  | DoRequest => "request failed: "
  | ReadResponse => "failed to read response: "
  end.

Class Platform : Type := {
  (** [fmt.Sprintf("%v", v)] *)
  fmt_Sprintf_v : Value -> string;
  (** [json.Unmarshal([]byte(s), &m)] for [m map[string]interface{}] *)
  json_Unmarshal : string -> gmap string Value + error;
  (** [json.Marshal(v)] *)
  json_Marshal : Value -> string + error;
  (** [json.Marshal(m)] for [m map[uint]interface{}] *)
  json_Marshal_Results : gmap nat Value -> string + error;
  (** what [HttpRequestExecutor.Execute] does once the url is known: building
      the request, the round trip, reading and decoding the body; the
      answer is the status code with the decoded body, or the place of the
      failure with the text of its cause *)
  http_round_trip : nat -> string -> gmap string Value -> gmap string Value ->
                    Z * Value + HttpFailure * error;
  (** [loadPluginExecutor(pluginPath)] *)
  loadPluginExecutor : string -> NodeExecutor + error
}.

(** ** The built-in executors ([internal/engine/executors.go]) *)

Section Executors.
Context `{Platform}.

(** The block with which [FilterExecutor.Execute] and
    [TransformExecutor.Execute] both read their items: with one input port
    its value (wrapped into a list of one element unless it is a list), and
    otherwise the list on the port named ["input"], if there is one. *)
Definition inputItems (input : gmap string Value) : list Value :=
  if decide (size input = 1) then
    match map_to_list input with
    | (_, v) :: _ =>
        match v with
        | VList val => val
        | val => [val]
        end
    | [] => []
    end
  else
    match input !! "input" with
    | Some (VList inputArray) => inputArray
    | _ => []
    end.

(** The loop of [getNestedValue] over the parts of the path. *)
Fixpoint nestedLookup (current : Value) (parts : list string) : Value :=
  match parts with
  | [] => current
  | part :: parts' =>
      match current with
      | VMap mapItem =>
          match mapItem !! part with
          | Some value => nestedLookup value parts'
          | None => VNil
          end
      | _ => VNil
      end
  end.

Definition FilterExecutor_getNestedValue (item : Value) (fieldPath : string) : Value :=
  if decide (fieldPath = "") then item
  else nestedLookup item (strings_Split fieldPath ".").

Definition FilterExecutor_compareValues (value1 value2 : Value) (operator : string) : bool :=
  if decide (operator = "equals") then
    bool_decide (fmt_Sprintf_v value1 = fmt_Sprintf_v value2)
  else if decide (operator = "not_equals") then
    bool_decide (fmt_Sprintf_v value1 ≠ fmt_Sprintf_v value2)
  else if decide (operator = "contains") then
    strings_Contains (fmt_Sprintf_v value1) (fmt_Sprintf_v value2)
  else if decide (operator = "greater_than") then
    false
  else if decide (operator = "less_than") then
    false
  else
    false.

Definition FilterExecutor_Execute (config input : gmap string Value)
  : Value * option error :=
  let filterField := match config !! "field" with Some (VStr s) => s | _ => "" end in
  let filterOperator := match config !! "operator" with Some (VStr s) => s | _ => "" end in
  let filterOperator := if decide (filterOperator = "") then "equals" else filterOperator in
  let filterValue := default VNil (config !! "value") in
  let items := inputItems input in
  let filtered :=
    List.filter
      (fun item =>
         let itemValue := FilterExecutor_getNestedValue item filterField in
         FilterExecutor_compareValues itemValue filterValue filterOperator)
      items in
  (VList filtered, None).

Definition TransformExecutor_getNestedValue (item : Value) (fieldPath : string) : Value :=
  if decide (fieldPath = "") then item
  else nestedLookup item (strings_Split fieldPath ".").

Fixpoint TransformExecutor_applyMapping (item mapping : Value) {struct mapping} : Value :=
  match mapping with
  | VMap m =>
      VMap ((fun value =>
               match value with
               | VStr v =>
                   if strings_HasPrefix v "{{" && strings_HasSuffix v "}}" then
                     let path := strings_TrimSpace (slice v 2 (String.length v - 2)) in
                     TransformExecutor_getNestedValue item path
                   else VStr v
               | VMap _ | VList _ => TransformExecutor_applyMapping item value
               | v => v
               end) <$> m)
  | VList m => VList (TransformExecutor_applyMapping item <$> m)
  | _ => mapping
  end.

Definition TransformExecutor_Execute (config input : gmap string Value)
  : Value * option error :=
  match config !! "mapping" with
  | None => (VNil, Some "mapping is required in config")
  | Some mapping =>
      let items := inputItems input in
      let result := (fun item => TransformExecutor_applyMapping item mapping) <$> items in
      (VList result, None)
  end.

(** Of [HttpRequestExecutor.Execute] the check of the url is in the model.
    What follows it (method, headers, placeholders of the url, building the
    request, the round trip, reading and decoding the body) is the
    platform's [http_round_trip], which stands for the calls that return, with
    an answer or with an error; the map of the answer and the text of the
    error are put together here.  Two behaviours of the source have no
    counterpart in it: with a method other than GET and DELETE the header is
    set on the request before the error of [http.NewRequest] is looked at,
    which dereferences a nil request when that call has failed; and
    [client.Do] runs without a timeout, so a call may not return at all. *)
Definition HttpRequestExecutor_Execute (now : nat) (config input : gmap string Value)
  : Value * option error :=
  match config !! "url" with
  | Some (VStr url) =>
      match http_round_trip now url config input with
      | inl (statusCode, result) =>
          (VMap {[ "status_code" := VInt statusCode; "data" := result ]}, None)
      | inr (failure, err) => (VNil, Some (HttpFailure_prefix failure +:+ err))
      end
  | _ => (VNil, Some "url is required in config")
  end.

Definition HttpRequestExecutor : NodeExecutor :=
  {| Execute := HttpRequestExecutor_Execute |}.
Definition FilterExecutor : NodeExecutor :=
  {| Execute := fun _ => FilterExecutor_Execute |}.
Definition TransformExecutor : NodeExecutor :=
  {| Execute := fun _ => TransformExecutor_Execute |}.

Definition strings_TrimPrefix (s prefix : string) : string :=
  if strings_HasPrefix s prefix
  then slice s (String.length prefix) (String.length s) else s.

Definition LoadExecutor (executorClass : string) : NodeExecutor + error :=
  if decide (executorClass = "httpRequest") then inl HttpRequestExecutor
  else if decide (executorClass = "filter") then inl FilterExecutor
  else if decide (executorClass = "transform") then inl TransformExecutor
  else if strings_HasPrefix executorClass "plugin:" then
    let pluginPath := strings_TrimPrefix executorClass "plugin:" in
    loadPluginExecutor pluginPath
  else inr ("unknown executor class: " +:+ executorClass).

End Executors.

(** ** The rows ([internal/models]) *)

(** Each struct keeps the columns the engine reads or writes; identifiers
    ([uint]) are natural numbers and instants are readings of the logical
    clock.  Layout positions, names, descriptions and schemas, which the
    engine never looks at, are left out. *)

Module Workflow.
Record t : Type := mk { ID : nat; Name : string }.
End Workflow.

Module Node.
Record t : Type := mk {
  ID : nat;
  WorkflowID : nat;
  NodeType : string;
  Name : string;
  Config : string
}.
End Node.

Module Connection.
Record t : Type := mk {
  ID : nat;
  WorkflowID : nat;
  SourceNodeID : nat;
  TargetNodeID : nat;
  SourceHandle : string;
  TargetHandle : string
}.
End Connection.

Module NodeType.
Record t : Type := mk { ID : nat; Key : string; ExecutorClass : string }.
End NodeType.

Module WorkflowExecution.
Record t : Type := mk {
  ID : nat;
  WorkflowID : nat;
  Status : string;
  StartedAt : nat;
  CompletedAt : option nat;
  InputData : string;
  OutputData : string;
  ErrorMessage : string
}.

Definition set_running (now : nat) (e : t) : t :=
  mk (ID e) (WorkflowID e) "running" now (CompletedAt e)
     (InputData e) (OutputData e) (ErrorMessage e).
Definition set_OutputData (s : string) (e : t) : t :=
  mk (ID e) (WorkflowID e) (Status e) (StartedAt e) (CompletedAt e)
     (InputData e) s (ErrorMessage e).
Definition set_CompletedAt (now : nat) (e : t) : t :=
  mk (ID e) (WorkflowID e) (Status e) (StartedAt e) (Some now)
     (InputData e) (OutputData e) (ErrorMessage e).
Definition set_failed (msg : string) (e : t) : t :=
  mk (ID e) (WorkflowID e) "failed" (StartedAt e) (CompletedAt e)
     (InputData e) (OutputData e) msg.
Definition set_completed (e : t) : t :=
  mk (ID e) (WorkflowID e) "completed" (StartedAt e) (CompletedAt e)
     (InputData e) (OutputData e) (ErrorMessage e).
End WorkflowExecution.

Module NodeExecution.
Record t : Type := mk {
  ID : nat;
  WorkflowExecutionID : nat;
  NodeID : nat;
  Status : string;
  StartedAt : option nat;
  CompletedAt : option nat;
  InputData : string;
  OutputData : string;
  ErrorMessage : string
}.

Definition set_ID (i : nat) (r : t) : t :=
  mk i (WorkflowExecutionID r) (NodeID r) (Status r) (StartedAt r)
     (CompletedAt r) (InputData r) (OutputData r) (ErrorMessage r).
Definition set_InputData (s : string) (r : t) : t :=
  mk (ID r) (WorkflowExecutionID r) (NodeID r) (Status r) (StartedAt r)
     (CompletedAt r) s (OutputData r) (ErrorMessage r).
Definition set_OutputData (s : string) (r : t) : t :=
  mk (ID r) (WorkflowExecutionID r) (NodeID r) (Status r) (StartedAt r)
     (CompletedAt r) (InputData r) s (ErrorMessage r).
Definition set_Status (s : string) (r : t) : t :=
  mk (ID r) (WorkflowExecutionID r) (NodeID r) s (StartedAt r)
     (CompletedAt r) (InputData r) (OutputData r) (ErrorMessage r).
Definition set_ErrorMessage (s : string) (r : t) : t :=
  mk (ID r) (WorkflowExecutionID r) (NodeID r) (Status r) (StartedAt r)
     (CompletedAt r) (InputData r) (OutputData r) s.
Definition set_StartedAt (now : nat) (r : t) : t :=
  mk (ID r) (WorkflowExecutionID r) (NodeID r) (Status r) (Some now)
     (CompletedAt r) (InputData r) (OutputData r) (ErrorMessage r).
Definition set_CompletedAt (now : nat) (r : t) : t :=
  mk (ID r) (WorkflowExecutionID r) (NodeID r) (Status r) (StartedAt r)
     (Some now) (InputData r) (OutputData r) (ErrorMessage r).

(** The [gorm:"default:..."] tags of the struct: on insertion an empty
    [Status] becomes ['pending'], an empty [InputData] or [OutputData]
    becomes ['{}'], in the row and in the struct that was passed. *)
Definition or_default (default value : string) : string :=
  if decide (value = "") then default else value.
Definition with_defaults (r : t) : t :=
  mk (ID r) (WorkflowExecutionID r) (NodeID r) (or_default "pending" (Status r))
     (StartedAt r) (CompletedAt r) (or_default "{}" (InputData r))
     (or_default "{}" (OutputData r)) (ErrorMessage r).
End NodeExecution.

Global Instance Node_eq_dec : EqDecision Node.t.
Proof. solve_decision. Defined.
Global Instance Connection_eq_dec : EqDecision Connection.t.
Proof. solve_decision. Defined.

(** ** The store and the clock *)

Record World : Type := mkWorld {
  workflows : list Workflow.t;
  nodes : list Node.t;
  node_types : list NodeType.t;
  connections : list Connection.t;
  workflow_executions : list WorkflowExecution.t;
  node_executions : list NodeExecution.t;
  clock : nat
}.

Definition with_node_executions (l : list NodeExecution.t) (w : World) : World :=
  mkWorld (workflows w) (nodes w) (node_types w) (connections w)
          (workflow_executions w) l (clock w).

Definition with_workflow_executions (l : list WorkflowExecution.t) (w : World) : World :=
  mkWorld (workflows w) (nodes w) (node_types w) (connections w)
          l (node_executions w) (clock w).

(** [time.Now()]: the reading, and the world one tick later. *)
Definition time_Now (w : World) : nat * World :=
  (clock w,
   mkWorld (workflows w) (nodes w) (node_types w) (connections w)
           (workflow_executions w) (node_executions w) (S (clock w))).

Definition ErrRecordNotFound : error := "record not found".

(** [database.DB.First(&execution, executionID)] *)
Definition DB_First_WorkflowExecution (executionID : nat) (w : World)
  : option WorkflowExecution.t :=
  List.find (fun e => bool_decide (WorkflowExecution.ID e = executionID))
            (workflow_executions w).

(** [Preload("Workflow")], [Preload("Workflow.Nodes")] and
    [Preload("Workflow.Connections")]: the rows that carry the identifier of
    the workflow of the execution, when that workflow exists. *)
Definition Preload_Workflow (execution : WorkflowExecution.t) (w : World)
  : option Workflow.t :=
  List.find (fun f => bool_decide (Workflow.ID f = WorkflowExecution.WorkflowID execution))
            (workflows w).

Definition Preload_Workflow_Nodes (execution : WorkflowExecution.t) (w : World)
  : list Node.t :=
  match Preload_Workflow execution w with
  | Some f => List.filter (fun n => bool_decide (Node.WorkflowID n = Workflow.ID f)) (nodes w)
  | None => []
  end.

Definition Preload_Workflow_Connections (execution : WorkflowExecution.t) (w : World)
  : list Connection.t :=
  match Preload_Workflow execution w with
  | Some f =>
      List.filter (fun c => bool_decide (Connection.WorkflowID c = Workflow.ID f))
                  (connections w)
  | None => []
  end.

(** [database.DB.Save(&execution)] *)
Definition DB_Save_WorkflowExecution (execution : WorkflowExecution.t) (w : World) : World :=
  with_workflow_executions
    ((fun e => if decide (WorkflowExecution.ID e = WorkflowExecution.ID execution)
               then execution else e) <$> workflow_executions w)
    w.

(** [database.DB.First(&node, nodeID)] *)
Definition DB_First_Node (nodeID : nat) (w : World) : option Node.t :=
  List.find (fun n => bool_decide (Node.ID n = nodeID)) (nodes w).

(** [database.DB.Where("key = ?", key).First(&nodeType)] *)
Definition DB_First_NodeType (key : string) (w : World) : option NodeType.t :=
  List.find (fun t => bool_decide (NodeType.Key t = key)) (node_types w).

(** [database.DB.Where("source_node_id = ?", nodeID).Find(&connections)] *)
Definition DB_Find_Connections_by_source (nodeID : nat) (w : World) : list Connection.t :=
  List.filter (fun c => bool_decide (Connection.SourceNodeID c = nodeID)) (connections w).

(** [database.DB.Where("target_node_id = ?", nodeID).Find(&connections)] *)
Definition DB_Find_Connections_by_target (nodeID : nat) (w : World) : list Connection.t :=
  List.filter (fun c => bool_decide (Connection.TargetNodeID c = nodeID)) (connections w).

(** The primary key an insertion into [node_executions] receives. *)
Definition next_NodeExecution_ID (w : World) : nat :=
  S (foldr Nat.max 0 (NodeExecution.ID <$> node_executions w)).

(** [database.DB.Create(&nodeExecution)]: the empty fields that have a default
    get it, the row gets its primary key and is appended. *)
Definition DB_Create_NodeExecution (nodeExecution : NodeExecution.t) (w : World)
  : NodeExecution.t * World :=
  let nodeExecution :=
    NodeExecution.set_ID (next_NodeExecution_ID w)
                         (NodeExecution.with_defaults nodeExecution) in
  (nodeExecution, with_node_executions (node_executions w ++ [nodeExecution]) w).

(** [database.DB.Save(&nodeExecution)] for a row created before. *)
Definition DB_Save_NodeExecution (nodeExecution : NodeExecution.t) (w : World) : World :=
  with_node_executions
    ((fun r => if decide (NodeExecution.ID r = NodeExecution.ID nodeExecution)
               then nodeExecution else r) <$> node_executions w)
    w.

(** [database.DB.Where("workflow_execution_id = ? AND node_id = ? AND status = ?",
    executionID, nodeID, status).First(&nodeExecution)] *)
Definition DB_First_NodeExecution (executionID nodeID : nat) (status : string) (w : World)
  : option NodeExecution.t :=
  List.find (fun r => bool_decide (NodeExecution.WorkflowExecutionID r = executionID)
                      && bool_decide (NodeExecution.NodeID r = nodeID)
                      && bool_decide (NodeExecution.Status r = status))
            (node_executions w).

(** ** The default node types ([internal/database/database.go]) *)

Definition with_node_types (l : list NodeType.t) (w : World) : World :=
  mkWorld (workflows w) (nodes w) l (connections w)
          (workflow_executions w) (node_executions w) (clock w).

(** [DB.Model(&models.NodeType{}).Where("key = ?", key).Count(&count)] *)
Definition DB_Count_NodeType (key : string) (w : World) : nat :=
  length (List.filter (fun t => bool_decide (NodeType.Key t = key)) (node_types w)).

(** The primary key an insertion into [node_types] receives. *)
Definition next_NodeType_ID (w : World) : nat :=
  S (foldr Nat.max 0 (NodeType.ID <$> node_types w)).

(** [DB.Create(&nodeType)]: the row gets its primary key and is appended. *)
Definition DB_Create_NodeType (nodeType : NodeType.t) (w : World) : World :=
  with_node_types
    (node_types w ++ [NodeType.mk (next_NodeType_ID w) (NodeType.Key nodeType)
                                  (NodeType.ExecutorClass nodeType)])
    w.

(** The slice [nodeTypes] of [registerDefaultNodeTypes]. *)
Definition defaultNodeTypes : list NodeType.t :=
  [ NodeType.mk 0 "httpRequest" "httpRequest";
    NodeType.mk 0 "filter" "filter";
    NodeType.mk 0 "transform" "transform" ].

(** One round of the loop of [registerDefaultNodeTypes]. *)
Definition registerNodeType (w : World) (nodeType : NodeType.t) : World :=
  let count := DB_Count_NodeType (NodeType.Key nodeType) w in
  if decide (count = 0) then DB_Create_NodeType nodeType w else w.

Definition registerDefaultNodeTypes (w : World) : World :=
  foldl registerNodeType w defaultNodeTypes.

(** ** The engine ([internal/engine/engine.go]) *)

Record ExecutionContext : Type := mkContext {
  Input : gmap string Value;
  Results : gmap nat Value
}.

Definition NewExecutionContext (input : gmap string Value) : ExecutionContext :=
  {| Input := input; Results := ∅ |}.

Definition set_Result (nodeID : nat) (result : Value) (context : ExecutionContext)
  : ExecutionContext :=
  {| Input := Input context; Results := <[nodeID := result]> (Results context) |}.

(** How a call of the engine ends: it returns (with or without an error), or
    the recursion of [executeNode] goes deeper than the stack allows and the
    process dies where it stands. *)
Inductive Completion : Type :=
| Returned (err : option error)
| StackOverflow.

(** What a call leaves behind: the store, the context, and how it ended. *)
Definition Outcome : Type := World * ExecutionContext * Completion.

Definition prepareNodeInput (node : Node.t) (executionID : nat)
    (context : ExecutionContext) (w : World) : gmap string Value :=
  let connections := DB_Find_Connections_by_target (Node.ID node) w in
  if decide (length connections = 0) then Input context
  else
    foldl
      (fun (inputs : gmap string Value) conn =>
         let sourceNodeID := Connection.SourceNodeID conn in
         let targetHandle := Connection.TargetHandle conn in
         match Results context !! sourceNodeID with
         | Some result =>
             let inputs :=
               match inputs !! targetHandle with
               | Some _ => inputs
               | None => <[targetHandle := VList []]> inputs
               end in
             let inputArray :=
               match inputs !! targetHandle with
               | Some (VList a) => a
               | _ => []
               end in
             <[targetHandle := VList (inputArray ++ [result])]> inputs
         | None => inputs
         end)
      ∅ connections.

Definition allInputsReady (nodeID executionID : nat) (w : World) : bool :=
  let connections := DB_Find_Connections_by_target nodeID w in
  forallb
    (fun conn =>
       match DB_First_NodeExecution executionID (Connection.SourceNodeID conn) "completed" w with
       | Some _ => true
       | None => false
       end)
    connections.

(** The loop [for _, conn := range connections] that ends [executeNode];
    [exec] is [executeNode] itself, one level deeper. *)
Fixpoint executeSuccessors (exec : nat -> World -> ExecutionContext -> Outcome)
    (connections : list Connection.t) (executionID : nat)
    (w : World) (context : ExecutionContext) : Outcome :=
  match connections with
  | [] => (w, context, Returned None)
  | conn :: connections' =>
      let targetNodeID := Connection.TargetNodeID conn in
      if allInputsReady targetNodeID executionID w then
        match exec targetNodeID w context with
        | (w, context, Returned None) =>
            executeSuccessors exec connections' executionID w context
        | stopped => stopped
        end
      else executeSuccessors exec connections' executionID w context
  end.

Section Engine.
Context `{Platform}.

(** [s, _ := json.Marshal(v)]: the text, or the empty string on failure. *)
Definition marshal_or_empty (v : Value) : string :=
  match json_Marshal v with
  | inl s => s
  | inr _ => ""
  end.

(** [depth] is the number of nested calls of [executeNode] the stack has
    room for.  A completed step-run is saved with [StartedAt] equal to
    [CompletedAt]: both fields point to the variable [now], which is assigned
    a second time before the last [Save].  A step-run whose executor failed
    keeps the instant of its creation: that branch declares a [now] of its
    own. *)
Fixpoint executeNode (depth : nat) (nodeID executionID : nat)
    (w : World) (context : ExecutionContext) : Outcome :=
  match depth with
  | 0 => (w, context, StackOverflow)
  | S depth' =>
    match DB_First_Node nodeID w with
    | None => (w, context, Returned (Some ErrRecordNotFound))
    | Some node =>
    match DB_First_NodeType (Node.NodeType node) w with
    | None => (w, context, Returned (Some ErrRecordNotFound))
    | Some nodeType =>
      let '(now, w) := time_Now w in
      let nodeExecution :=
        NodeExecution.mk 0 executionID nodeID "running" (Some now) None "" "" "" in
      let '(nodeExecution, w) := DB_Create_NodeExecution nodeExecution w in
      let inputData := prepareNodeInput node executionID context w in
      let nodeExecution :=
        NodeExecution.set_InputData (marshal_or_empty (VMap inputData)) nodeExecution in
      let w := DB_Save_NodeExecution nodeExecution w in
      match LoadExecutor (NodeType.ExecutorClass nodeType) with
      | inr err =>
          let nodeExecution := NodeExecution.set_Status "failed" nodeExecution in
          let nodeExecution :=
            NodeExecution.set_ErrorMessage ("failed to load executor: " +:+ err)
                                           nodeExecution in
          let w := DB_Save_NodeExecution nodeExecution w in
          (w, context, Returned (Some err))
      | inl executor =>
      match json_Unmarshal (Node.Config node) with
      | inr err =>
          let nodeExecution := NodeExecution.set_Status "failed" nodeExecution in
          let nodeExecution :=
            NodeExecution.set_ErrorMessage ("failed to parse node config: " +:+ err)
                                           nodeExecution in
          let w := DB_Save_NodeExecution nodeExecution w in
          (w, context, Returned (Some err))
      | inl config =>
      match Execute executor (clock w) config inputData with
      | (_, Some err) =>
          let nodeExecution := NodeExecution.set_Status "failed" nodeExecution in
          let nodeExecution :=
            NodeExecution.set_ErrorMessage ("execution failed: " +:+ err) nodeExecution in
          let '(now, w) := time_Now w in
          let nodeExecution := NodeExecution.set_CompletedAt now nodeExecution in
          let w := DB_Save_NodeExecution nodeExecution w in
          (w, context, Returned (Some err))
      | (result, None) =>
          let nodeExecution :=
            NodeExecution.set_OutputData (marshal_or_empty result) nodeExecution in
          let nodeExecution := NodeExecution.set_Status "completed" nodeExecution in
          (* [now = time.Now()] assigns the variable that [StartedAt] points to *)
          let '(now, w) := time_Now w in
          let nodeExecution := NodeExecution.set_StartedAt now nodeExecution in
          let nodeExecution := NodeExecution.set_CompletedAt now nodeExecution in
          let w := DB_Save_NodeExecution nodeExecution w in
          let context := set_Result nodeID result context in
          let connections := DB_Find_Connections_by_source nodeID w in
          executeSuccessors
            (fun targetNodeID => executeNode depth' targetNodeID executionID)
            connections executionID w context
      end
      end
      end
    end
    end
  end.

(** The loop [for _, node := range startNodes] of [executeWorkflowInternal]. *)
Fixpoint executeStartNodes (depth : nat) (startNodes : list Node.t) (executionID : nat)
    (w : World) (context : ExecutionContext) : Outcome :=
  match startNodes with
  | [] => (w, context, Returned None)
  | node :: startNodes' =>
      match executeNode depth (Node.ID node) executionID w context with
      | (w, context, Returned None) =>
          executeStartNodes depth startNodes' executionID w context
      | stopped => stopped
      end
  end.

(** The nodes of the workflow without an incoming connection. *)
Definition startNodesOf (workflowNodes : list Node.t)
    (workflowConnections : list Connection.t) : list Node.t :=
  List.filter
    (fun node =>
       let hasIncoming :=
         existsb (fun conn => bool_decide (Connection.TargetNodeID conn = Node.ID node))
                 workflowConnections in
       negb hasIncoming)
    workflowNodes.

(** [executeWorkflowInternal(execution)]: the store afterwards, the
    execution struct (its [OutputData] is set on success) and how the call
    ended. *)
Definition executeWorkflowInternal (depth : nat) (execution : WorkflowExecution.t)
    (w : World) : World * WorkflowExecution.t * Completion :=
  let startNodes :=
    startNodesOf (Preload_Workflow_Nodes execution w)
                 (Preload_Workflow_Connections execution w) in
  if decide (length startNodes = 0) then
    (w, execution, Returned (Some "workflow has no start nodes"))
  else
    match json_Unmarshal (WorkflowExecution.InputData execution) with
    | inr err => (w, execution, Returned (Some ("failed to parse input data: " +:+ err)))
    | inl inputData =>
        let context := NewExecutionContext inputData in
        match executeStartNodes depth startNodes (WorkflowExecution.ID execution) w context with
        | (w, _, StackOverflow) => (w, execution, StackOverflow)
        | (w, _, Returned (Some err)) => (w, execution, Returned (Some err))
        | (w, context, Returned None) =>
            match json_Marshal_Results (Results context) with
            | inr err =>
                (w, execution, Returned (Some ("failed to marshal output data: " +:+ err)))
            | inl outputJSON =>
                (w, WorkflowExecution.set_OutputData outputJSON execution, Returned None)
            end
        end
    end.

Definition ExecuteWorkflow (depth : nat) (executionID : nat) (w : World)
  : World * Completion :=
  match DB_First_WorkflowExecution executionID w with
  | None => (w, Returned (Some ErrRecordNotFound))
  | Some execution =>
      let '(now, w) := time_Now w in
      let execution := WorkflowExecution.set_running now execution in
      let w := DB_Save_WorkflowExecution execution w in
      match executeWorkflowInternal depth execution w with
      | (w, _, StackOverflow) => (w, StackOverflow)
      | (w, execution, Returned err) =>
          let '(now, w) := time_Now w in
          let execution := WorkflowExecution.set_CompletedAt now execution in
          let execution :=
            match err with
            | Some e => WorkflowExecution.set_failed e execution
            | None => WorkflowExecution.set_completed execution
            end in
          let w := DB_Save_WorkflowExecution execution w in
          (w, Returned err)
      end
  end.

End Engine.

(** ** The task queue ([internal/queue/queue.go]) *)

Module TaskMessage.
(** [Payload] is a [json.RawMessage]: the bytes of the encoded payload. *)
Record t : Type := mk { TaskType : string; Payload : string }.
End TaskMessage.

(** The Redis server behind [redisClient]: its lists by key (a key without
    elements does not exist), and the error with which every command fails
    while the server cannot be reached. *)
Record Redis : Type := mkRedis {
  lists : gmap string (list string);
  failure : option error
}.

Definition redis_Nil : error := "redis: nil".

(** [RPush(ctx, key, value).Err()] *)
Definition RPush (key value : string) (r : Redis) : Redis * option error :=
  match failure r with
  | Some err => (r, Some err)
  | None =>
      let l : list string := default [] (lists r !! key) in
      (mkRedis (<[key := l ++ [value]]> (lists r)) None, None)
  end.

(** [BLPop(ctx, timeout, key).Result()]: the head of the list, with the key in
    front; on an empty list [redis.Nil] once the timeout has passed.  No one
    else pushes in between, so with the timeout 0, which waits for ever, the
    call does not return ([None]). *)
Definition BLPop (timeout : nat) (key : string) (r : Redis)
  : option (Redis * list string * option error) :=
  match failure r with
  | Some err => Some (r, [], Some err)
  | None =>
      match default [] (lists r !! key) with
      | value :: l =>
          let lists' := match l with
                        | [] => delete key (lists r)
                        | _ => <[key := l]> (lists r)
                        end in
          Some (mkRedis lists' None, [key; value], None)
      | [] => if decide (timeout = 0) then None else Some (r, [], Some redis_Nil)
      end
  end.

Class Codec : Type := {
  (** [json.Marshal(payload)] *)
  json_Marshal_payload : Value -> string + error;
  (** [json.Marshal(task)] for [task TaskMessage] *)
  json_Marshal_TaskMessage : TaskMessage.t -> string + error;
  (** [json.Unmarshal([]byte(s), &task)] for [task TaskMessage] *)
  json_Unmarshal_TaskMessage : string -> TaskMessage.t + error
}.

Section Queue.
Context `{Codec}.

Definition EnqueueTask (queueName taskType : string) (payload : Value) (r : Redis)
  : Redis * option error :=
  match json_Marshal_payload payload with
  | inr err => (r, Some ("failed to marshal payload: " +:+ err))
  | inl payloadBytes =>
      let task := TaskMessage.mk taskType payloadBytes in
      match json_Marshal_TaskMessage task with
      | inr err => (r, Some ("failed to marshal task: " +:+ err))
      | inl taskBytes =>
          match RPush queueName taskBytes r with
          | (r, Some err) => (r, Some ("failed to push task to queue: " +:+ err))
          | (r, None) => (r, None)
          end
      end
  end.

Definition DequeueTask (queueName : string) (timeout : nat) (r : Redis)
  : option (Redis * option TaskMessage.t * option error) :=
  match BLPop timeout queueName r with
  | None => None
  | Some (r, _, Some err) =>
      if decide (err = redis_Nil) then Some (r, None, None)
      else Some (r, None, Some ("failed to pop task from queue: " +:+ err))
  | Some (r, result, None) =>
      match result with
      | [_; value] =>
          match json_Unmarshal_TaskMessage value with
          | inr err => Some (r, None, Some ("failed to unmarshal task: " +:+ err))
          | inl task => Some (r, Some task, None)
          end
      | _ => Some (r, None, Some "unexpected result from BLPOP")
      end
  end.

End Queue.

(** ** [encoding/json] for the envelope ([unicode/utf8], [encoding/json])

    What [json.Marshal] writes for a [TaskMessage] and what [json.Unmarshal]
    reads from it depends on the bytes of the task type: this part follows
    the two packages for the string literal and for the layout of the
    envelope, as Go 1.21 has them (the version of the build images; later
    versions write the bytes 8 and 12 as short escapes, which are read back
    as the same bytes).  Bytes are the characters of a [string], their values
    are in [N]. *)

Definition quote : string := String "034"%char EmptyString.

(** [p[n:]] and [p[:n]], for [n <= len(p)]. *)
Fixpoint bytes_from (n : nat) (p : string) : string :=
  match n, p with
  | S n, String _ p => bytes_from n p
  | _, _ => p
  end.

Fixpoint bytes_upto (n : nat) (p : string) : string :=
  match n, p with
  | S n, String a p => String a (bytes_upto n p)
  | _, _ => ""
  end.

Definition string_of_Ns (l : list N) : string :=
  foldr (fun b s => String (ascii_of_N b) s) "" l.

Section UTF8.
Local Open Scope N_scope.

Definition RuneError : N := 65533.
Definition MaxRune : N := 1114111.

(** The table [first] together with [acceptRanges]: for a leading byte the
    length of the encoding and the bounds of the second byte; [None] for a
    byte that leads no encoding of two bytes or more. *)
Definition first (p0 : N) : option (nat * N * N) :=
  if (194 <=? p0) && (p0 <=? 223) then Some (2%nat, 128, 191)
  else if p0 =? 224 then Some (3%nat, 160, 191)
  else if (225 <=? p0) && (p0 <=? 236) then Some (3%nat, 128, 191)
  else if p0 =? 237 then Some (3%nat, 128, 159)
  else if (238 <=? p0) && (p0 <=? 239) then Some (3%nat, 128, 191)
  else if p0 =? 240 then Some (4%nat, 144, 191)
  else if (241 <=? p0) && (p0 <=? 243) then Some (4%nat, 128, 191)
  else if p0 =? 244 then Some (4%nat, 128, 143)
  else None.

(** [b < lo || hi < b] *)
Definition outside (lo hi b : N) : bool := (b <? lo) || (hi <? b).

(** [utf8.DecodeRune(p)]: the rune at the head of [p] and the number of its
    bytes; [(RuneError, 1)] when the head is not a valid encoding, and
    [(RuneError, 0)] for the empty string. *)
Definition utf8_DecodeRune (p : string) : N * nat :=
  match p with
  | "" => (RuneError, 0%nat)
  | String a0 p1 =>
      let p0 := N_of_ascii a0 in
      if p0 <? 128 then (p0, 1%nat)
      else
        match first p0, p1 with
        | Some (sz, lo, hi), String a1 p2 =>
            let b1 := N_of_ascii a1 in
            if outside lo hi b1 then (RuneError, 1%nat)
            else if (sz <=? 2)%nat then
              (N.lor (N.shiftl (N.land p0 31) 6) (N.land b1 63), 2%nat)
            else
              match p2 with
              | String a2 p3 =>
                  let b2 := N_of_ascii a2 in
                  if outside 128 191 b2 then (RuneError, 1%nat)
                  else if (sz <=? 3)%nat then
                    (N.lor (N.lor (N.shiftl (N.land p0 15) 12)
                                  (N.shiftl (N.land b1 63) 6))
                           (N.land b2 63), 3%nat)
                  else
                    match p3 with
                    | String a3 _ =>
                        let b3 := N_of_ascii a3 in
                        if outside 128 191 b3 then (RuneError, 1%nat)
                        else
                          (N.lor (N.lor (N.lor (N.shiftl (N.land p0 7) 18)
                                               (N.shiftl (N.land b1 63) 12))
                                        (N.shiftl (N.land b2 63) 6))
                                 (N.land b3 63), 4%nat)
                    | "" => (RuneError, 1%nat)
                    end
              | "" => (RuneError, 1%nat)
              end
        | _, _ => (RuneError, 1%nat)
        end
  end.

(** [utf8.EncodeRune(p, r)]: the bytes written.  A surrogate and a value
    above [MaxRune] are written as [RuneError]. *)
Definition utf8_EncodeRune (r : N) : string :=
  let three (r : N) :=
    string_of_Ns [N.lor 224 (N.shiftr r 12);
                     N.lor 128 (N.land (N.shiftr r 6) 63);
                     N.lor 128 (N.land r 63)] in
  if r <=? 127 then string_of_Ns [r]
  else if r <=? 2047 then
    string_of_Ns [N.lor 192 (N.shiftr r 6); N.lor 128 (N.land r 63)]
  else if (MaxRune <? r) || ((55296 <=? r) && (r <=? 57343)) then three RuneError
  else if r <=? 65535 then three r
  else
    string_of_Ns [N.lor 240 (N.shiftr r 18);
                     N.lor 128 (N.land (N.shiftr r 12) 63);
                     N.lor 128 (N.land (N.shiftr r 6) 63);
                     N.lor 128 (N.land r 63)].

(** The head of [p] is not a valid encoding: [utf8.DecodeRune] answers
    [(RuneError, 1)]. *)
Definition invalid_head (p : string) : bool :=
  let '(r, size) := utf8_DecodeRune p in (r =? RuneError) && (size =? 1)%nat.

(** [utf8.ValidString(s)]: [s] consists of valid encodings only.  [fuel]
    bounds the number of runes. *)
Fixpoint ValidString_from (fuel : nat) (s : string) : bool :=
  match fuel, s with
  | S fuel, String _ _ =>
      if invalid_head s then false
      else ValidString_from fuel (bytes_from (utf8_DecodeRune s).2 s)
  | _, _ => true
  end.

Definition utf8_ValidString (s : string) : bool := ValidString_from (String.length s) s.

End UTF8.

Section JSONStrings.
Local Open Scope N_scope.

Definition backslash : ascii := "092"%char.

(** An escape sequence: the backslash and what follows it. *)
Definition escape (s : string) : string := String backslash s.

(** [hex[n]] for the table [hex] of the digits. *)
Definition hex (n : N) : ascii :=
  default "0"%char (String.get (N.to_nat n) "0123456789abcdef").

(** [htmlSafeSet[b]] for an ASCII byte: true for the printable bytes and 127,
    other than the double quote, the backslash and [&], [<], [>]. *)
Definition htmlSafeSet (b : N) : bool :=
  (32 <=? b) && (b <? 128)
  && negb ((b =? 34) || (b =? 38) || (b =? 60) || (b =? 62) || (b =? 92)).

(** One round of the loop of [appendString(dst, src, escapeHTML = true)] at
    the head of [src]: what it appends to [dst], and the number of bytes of
    [src] which that stands for.  A byte that starts no valid encoding is
    written as the escape of U+FFFD. *)
Definition appendString_step (src : string) : string * nat :=
  match src with
  | "" => ("", 0%nat)
  | String a _ =>
      let b := N_of_ascii a in
      if b <? 128 then
        if htmlSafeSet b then (String a "", 1%nat)
        else if (b =? 92) || (b =? 34) then (escape (String a ""), 1%nat)
        else if b =? 10 then (escape "n", 1%nat)
        else if b =? 13 then (escape "r", 1%nat)
        else if b =? 9 then (escape "t", 1%nat)
        else
          (escape (String "u" (String "0" (String "0"
             (String (hex (N.shiftr b 4)) (String (hex (N.land b 15)) ""))))), 1%nat)
      else
        let '(c, size) := utf8_DecodeRune src in
        if (c =? RuneError) && (size =? 1)%nat then (escape "ufffd", 1%nat)
        else if (c =? 8232) || (c =? 8233) then
          (escape (String "u" (String "2" (String "0" (String "2"
             (String (hex (N.land c 15)) ""))))), size)
        else (bytes_upto size src, size)
  end.

(** The loop; [fuel] bounds the number of rounds. *)
Fixpoint appendString_from (fuel : nat) (src : string) : string :=
  match fuel, src with
  | S fuel, String _ _ =>
      let '(out, size) := appendString_step src in
      out +:+ appendString_from fuel (bytes_from size src)
  | _, _ => ""
  end.

(** [appendString(nil, src, true)]: the string literal that [Marshal] writes
    for [src]. *)
Definition appendString (src : string) : string :=
  quote +:+ appendString_from (String.length src) src +:+ quote.

(** The value of a hexadecimal digit. *)
Definition unhex (c : ascii) : option N :=
  let b := N_of_ascii c in
  if (48 <=? b) && (b <=? 57) then Some (b - 48)
  else if (97 <=? b) && (b <=? 102) then Some (b - 97 + 10)
  else if (65 <=? b) && (b <=? 70) then Some (b - 65 + 10)
  else None.

(** [getu4(s)]: the rune of the escape of four digits at the head of [s];
    [None] where the source returns -1. *)
Definition getu4 (s : string) : option N :=
  match s with
  | String c0 (String c1 (String h1 (String h2 (String h3 (String h4 _))))) =>
      if (N_of_ascii c0 =? 92) && (N_of_ascii c1 =? 117) then
        match unhex h1, unhex h2, unhex h3, unhex h4 with
        | Some d1, Some d2, Some d3, Some d4 => Some (((d1 * 16 + d2) * 16 + d3) * 16 + d4)
        | _, _, _, _ => None
        end
      else None
  | _ => None
  end.

(** [utf16.IsSurrogate(r)] and [utf16.DecodeRune(r1, r2)] *)
Definition utf16_IsSurrogate (r : N) : bool := (55296 <=? r) && (r <? 57344).

Definition utf16_DecodeRune (r1 r2 : N) : N :=
  if (55296 <=? r1) && (r1 <? 56320) && (56320 <=? r2) && (r2 <? 57344)
  then N.lor (N.shiftl (r1 - 55296) 10) (r2 - 56320) + 65536
  else RuneError.

(** What the scanner and [unquoteBytes] make of the head of the inside of a
    string literal: the closing quote, some bytes of the string, or a
    literal that is not well formed. *)
Inductive Unquoted : Type :=
| Closed (rest : string)
| Bytes (b : string) (rest : string)
| Malformed.

(** One round of the loop of [unquoteBytes], on a literal that the scanner
    accepts: an escape (of a surrogate pair, too), an ASCII byte, or an
    encoding, which is coerced to well-formed UTF-8.  The scanner refuses a
    control byte, another escape and the end of the text. *)
Definition unquote_step (s : string) : Unquoted :=
  match s with
  | "" => Malformed
  | String c s1 =>
      let b := N_of_ascii c in
      if b =? 92 then
        match s1 with
        | "" => Malformed
        | String e s2 =>
            let b' := N_of_ascii e in
            if (b' =? 34) || (b' =? 92) || (b' =? 47) then Bytes (String e "") s2
            else if b' =? 98 then Bytes (string_of_Ns [8]) s2
            else if b' =? 102 then Bytes (string_of_Ns [12]) s2
            else if b' =? 110 then Bytes (string_of_Ns [10]) s2
            else if b' =? 114 then Bytes (string_of_Ns [13]) s2
            else if b' =? 116 then Bytes (string_of_Ns [9]) s2
            else if b' =? 117 then
              match getu4 s with
              | None => Malformed
              | Some rr =>
                  let s6 := bytes_from 6 s in
                  if utf16_IsSurrogate rr then
                    match getu4 s6 with
                    | Some rr1 =>
                        let dec := utf16_DecodeRune rr rr1 in
                        if dec =? RuneError
                        then Bytes (utf8_EncodeRune RuneError) s6
                        else Bytes (utf8_EncodeRune dec) (bytes_from 6 s6)
                    | None => Bytes (utf8_EncodeRune RuneError) s6
                    end
                  else Bytes (utf8_EncodeRune rr) s6
              end
            else Malformed
        end
      else if b =? 34 then Closed s1
      else if b <? 32 then Malformed
      else if b <? 128 then Bytes (String c "") s1
      else
        let '(rr, size) := utf8_DecodeRune s in
        Bytes (utf8_EncodeRune rr) (bytes_from size s)
  end.

(** The loop; [fuel] bounds the number of rounds, and a literal of [n]
    bytes needs at most [n] of them and one for the closing quote. *)
Fixpoint unquote_from (fuel : nat) (s : string) : option (string * string) :=
  match fuel with
  | O => None
  | S fuel =>
      match unquote_step s with
      | Closed rest => Some ("", rest)
      | Bytes b rest =>
          match unquote_from fuel rest with
          | Some (t, rest) => Some (b +:+ t, rest)
          | None => None
          end
      | Malformed => None
      end
  end.

(** The string literal at the head of [s]: the string it stands for and what
    follows its closing quote. *)
Definition unquote (s : string) : option (string * string) :=
  match s with
  | String c s1 =>
      if N_of_ascii c =? 34 then unquote_from (S (String.length s1)) s1 else None
  | "" => None
  end.

End JSONStrings.

(** [s] without the prefix [p], when it has it. *)
Fixpoint without_prefix (p s : string) : option string :=
  match p, s with
  | "", _ => Some s
  | String a p, String b s => if decide (a = b) then without_prefix p s else None
  | _, "" => None
  end.

(** [s] split before its last byte. *)
Fixpoint without_last (s : string) : option (string * ascii) :=
  match s with
  | "" => None
  | String a s' =>
      match s' with
      | "" => Some ("", a)
      | _ =>
          match without_last s' with
          | Some (t, z) => Some (String a t, z)
          | None => None
          end
      end
  end.

(** What the envelope takes from [encoding/json] beyond the string literal. *)
Class JSONText : Type := {
  (** [compact(dst, src, escapeHTML = true)], which [Marshal] applies to the
      bytes of a [RawMessage]: the JSON value [src] without the white space
      between its tokens and with [&], [<], [>], U+2028 and U+2029 escaped,
      or the error of the scanner when [src] is not one JSON value *)
  json_Compact : string -> string + error;
  (** [json.Unmarshal([]byte(s), &task)] for a text [s] that is not laid out
      as [Marshal] lays out a [TaskMessage] *)
  json_Unmarshal_TaskMessage_other : string -> TaskMessage.t + error
}.

Section Envelope.
Context `{Platform} `{JSONText}.

(** The keys of the struct tags, as [Marshal] writes them. *)
Definition envelope_head : string := "{" +:+ quote +:+ "task_type" +:+ quote +:+ ":".
Definition envelope_mid : string := "," +:+ quote +:+ "payload" +:+ quote +:+ ":".

(** [json.Marshal(task)]: the two fields in the order of the struct, the
    task type as a string literal, the payload compacted.  ([EnqueueTask]
    sets the payload to what [Marshal] returned, so it is never nil.) *)
Definition Marshal_TaskMessage (task : TaskMessage.t) : string + error :=
  match json_Compact (TaskMessage.Payload task) with
  | inr err => inr ("json: error calling MarshalJSON for type json.RawMessage: " +:+ err)
  | inl payload =>
      inl (envelope_head +:+ appendString (TaskMessage.TaskType task)
           +:+ envelope_mid +:+ payload +:+ "}")
  end.

(** The task of a text in the layout of [Marshal_TaskMessage]: the two keys
    in that order, no white space between the tokens, and a payload that
    compaction leaves as it is.  The payload of such a text is taken over
    byte by byte, as [RawMessage.UnmarshalJSON] does. *)
Definition read_envelope (text : string) : option TaskMessage.t :=
  match without_prefix envelope_head text with
  | None => None
  | Some text =>
  match unquote text with
  | None => None
  | Some (taskType, text) =>
  match without_prefix envelope_mid text with
  | None => None
  | Some text =>
  match without_last text with
  | None => None
  | Some (payload, last) =>
      if decide (last = "}"%char) then
        match json_Compact payload with
        | inl compact =>
            if decide (compact = payload) then Some (TaskMessage.mk taskType payload)
            else None
        | inr _ => None
        end
      else None
  end
  end
  end
  end.

(** [json.Unmarshal([]byte(text), &task)] *)
Definition Unmarshal_TaskMessage (text : string) : TaskMessage.t + error :=
  match read_envelope text with
  | Some task => inl task
  | None => json_Unmarshal_TaskMessage_other text
  end.

(** The codec of the queue, as [encoding/json] provides it. *)
Definition encoding_json : Codec := {|
  json_Marshal_payload := json_Marshal;
  json_Marshal_TaskMessage := Marshal_TaskMessage;
  json_Unmarshal_TaskMessage := Unmarshal_TaskMessage
|}.

End Envelope.

(** C8 as the specification states it, read for a server within reach and a
    queue on which nothing waits: whatever the task type and the payload
    that [json.Marshal] encodes, [EnqueueTask] followed by [DequeueTask] on
    the same queue name returns an envelope with that task type and with the
    bytes of the encoded payload. *)
Definition round_trips `{Codec} (queueName taskType : string) (payload : Value) : Prop :=
  ∀ (r : Redis) (timeout : nat) (payloadBytes : string),
    failure r = None →
    default [] (lists r !! queueName) = [] →
    json_Marshal_payload payload = inl payloadBytes →
    ∃ r' r'' task,
      EnqueueTask queueName taskType payload r = (r', None)
      ∧ DequeueTask queueName timeout r' = Some (r'', Some task, None)
      ∧ TaskMessage.TaskType task = taskType
      ∧ TaskMessage.Payload task = payloadBytes.

(** ** The workflow graph of a Run *)

Section Graph.
Variables (execution : WorkflowExecution.t) (w : World).

(** The identifiers of the nodes of the workflow. *)
Definition workflow_node_ids : list nat :=
  Node.ID <$> Preload_Workflow_Nodes execution w.

(** A connection of the workflow leads from [a] to [b]. *)
Definition edge (a b : nat) : Prop :=
  ∃ c, c ∈ Preload_Workflow_Connections execution w
       ∧ Connection.SourceNodeID c = a ∧ Connection.TargetNodeID c = b.

(** The graph has no cycle: no node is reached from itself along one or
    more connections. *)
Definition acyclic : Prop := ∀ n, ¬ tc edge n n.

(** A source node: a node of the workflow without an incoming connection. *)
Definition source_node (n : nat) : Prop :=
  n ∈ workflow_node_ids
  ∧ ∀ c, c ∈ Preload_Workflow_Connections execution w → Connection.TargetNodeID c ≠ n.

(** Reachable from some source node by following connections forward. *)
Definition reachable (n : nat) : Prop := ∃ s, source_node s ∧ rtc edge s n.

(** The invariant of the data model on which the engine relies without
    checking it: a connection of the store that touches a node of the
    workflow belongs to that workflow and joins two of its nodes. *)
Definition connections_within_workflow : Prop :=
  ∀ c, c ∈ connections w →
       Connection.SourceNodeID c ∈ workflow_node_ids
       ∨ Connection.TargetNodeID c ∈ workflow_node_ids →
       c ∈ Preload_Workflow_Connections execution w
       ∧ Connection.SourceNodeID c ∈ workflow_node_ids
       ∧ Connection.TargetNodeID c ∈ workflow_node_ids.
End Graph.

(** The step-runs of Run [executionID] for node [nodeID], oldest first. *)
Definition step_runs (executionID nodeID : nat) (w : World) : list NodeExecution.t :=
  List.filter (fun r => bool_decide (NodeExecution.WorkflowExecutionID r = executionID)
                        && bool_decide (NodeExecution.NodeID r = nodeID))
              (node_executions w).

(** All the step-runs of Run [executionID]. *)
Definition run_step_runs (executionID : nat) (w : World) : list NodeExecution.t :=
  List.filter (fun r => bool_decide (NodeExecution.WorkflowExecutionID r = executionID))
              (node_executions w).

(** The Run has no step-run yet. *)
Definition fresh_run (executionID : nat) (w : World) : Prop :=
  run_step_runs executionID w = [].

(** The instants on the step-runs of the Run lie in the past, and a
    completed step-run carries the instant of its completion. *)
Definition clock_bounds (executionID : nat) (w : World) : Prop :=
  ∀ r, r ∈ node_executions w → NodeExecution.WorkflowExecutionID r = executionID →
       (∃ t, NodeExecution.StartedAt r = Some t ∧ t < clock w)
       ∧ (NodeExecution.Status r = "completed" →
          ∃ t, NodeExecution.CompletedAt r = Some t ∧ t < clock w).

(** Node [source] has a step-run of the Run that was completed before the
    step-run [r] was started. *)
Definition completed_before (executionID : nat) (w : World) (source : nat)
    (r : NodeExecution.t) : Prop :=
  ∃ r' t t',
    r' ∈ node_executions w
    ∧ NodeExecution.WorkflowExecutionID r' = executionID
    ∧ NodeExecution.NodeID r' = source
    ∧ NodeExecution.Status r' = "completed"
    ∧ NodeExecution.CompletedAt r' = Some t'
    ∧ NodeExecution.StartedAt r = Some t
    ∧ t' < t.

(** Every step-run of the Run was started after a step-run of the source of
    each connection into its node had been completed. *)
Definition inputs_completed_first (executionID : nat) (w : World) : Prop :=
  ∀ r, r ∈ node_executions w → NodeExecution.WorkflowExecutionID r = executionID →
  ∀ c, c ∈ connections w → Connection.TargetNodeID c = NodeExecution.NodeID r →
       completed_before executionID w (Connection.SourceNodeID c) r.

(** No node has two incoming connections such that the source of the one
    is the source of the other or is reached from it.  A node with at most
    one incoming connection satisfies this, and so does the join of a
    diamond. *)
Definition no_shortcut (execution : WorkflowExecution.t) (w0 : World) : Prop :=
  ∀ c1 c2, c1 ∈ Preload_Workflow_Connections execution w0 →
           c2 ∈ Preload_Workflow_Connections execution w0 →
           Connection.TargetNodeID c1 = Connection.TargetNodeID c2 →
           rtc (edge execution w0) (Connection.SourceNodeID c1) (Connection.SourceNodeID c2) →
           c1 = c2.

(** The outputs that the connections [conns] deliver on the handle [handle]:
    for each connection into that handle whose source has a recorded result,
    that result, in the order of the connections. *)
Definition handle_outputs (handle : string) (conns : list Connection.t)
    (results : gmap nat Value) : list Value :=
  omap (fun c => if decide (Connection.TargetHandle c = handle)
                 then results !! Connection.SourceNodeID c else None)
       conns.

(** C1 as the specification states it: in a Run of an acyclic workflow in
    which no node fails, every node reachable from a source node has exactly
    one step-run, and no other node has one. *)
Definition executed_exactly_once `{Platform} (depth executionID : nat)
    (execution : WorkflowExecution.t) (w : World) : Prop :=
  acyclic execution w →
  ∀ w', ExecuteWorkflow depth executionID w = (w', Returned None) →
  ∀ n, (reachable execution w n → length (step_runs executionID n w') = 1)
       ∧ (¬ reachable execution w n → step_runs executionID n w' = []).

(** C6 as the specification states it: a Run, so far without step-runs, of a
    workflow with exactly one node whose executor returns an error ends with
    the status failed and an error text that is not empty, and has exactly
    one step-run, with the status failed. *)
Definition fails_with_an_error_text `{Platform} (depth executionID : nat)
    (execution : WorkflowExecution.t) (w : World) : Prop :=
  ∀ (node node' : Node.t) (nodeType : NodeType.t) (executor : NodeExecutor)
    (input config : gmap string Value) (result : Value) (err : error),
    DB_First_WorkflowExecution executionID w = Some execution →
    fresh_run executionID w →
    Preload_Workflow_Nodes execution w = [node] →
    (∀ c, c ∈ Preload_Workflow_Connections execution w →
          Connection.TargetNodeID c ≠ Node.ID node) →
    json_Unmarshal (WorkflowExecution.InputData execution) = inl input →
    DB_First_Node (Node.ID node) w = Some node' →
    DB_First_NodeType (Node.NodeType node') w = Some nodeType →
    LoadExecutor (NodeType.ExecutorClass nodeType) = inl executor →
    json_Unmarshal (Node.Config node') = inl config →
    Execute executor (2 + clock w) config
            (prepareNodeInput node' executionID (NewExecutionContext input) w)
    = (result, Some err) →
    1 ≤ depth →
    ∃ w' how run row,
      ExecuteWorkflow depth executionID w = (w', how)
      ∧ DB_First_WorkflowExecution executionID w' = Some run
      ∧ WorkflowExecution.Status run = "failed"
      ∧ WorkflowExecution.ErrorMessage run ≠ ""
      ∧ run_step_runs executionID w' = [row]
      ∧ NodeExecution.Status row = "failed".

(** ** Notions for the proofs about the engine *)

(** One step of the loop of [prepareNodeInput]. *)
Definition collect (results : gmap nat Value) (inputs : gmap string Value)
    (conn : Connection.t) : gmap string Value :=
  match results !! Connection.SourceNodeID conn with
  | Some result =>
      let inputs :=
        match inputs !! Connection.TargetHandle conn with
        | Some _ => inputs
        | None => <[Connection.TargetHandle conn := VList []]> inputs
        end in
      let inputArray :=
        match inputs !! Connection.TargetHandle conn with
        | Some (VList a) => a
        | _ => []
        end in
      <[Connection.TargetHandle conn := VList (inputArray ++ [result])]> inputs
  | None => inputs
  end.

(** Every handle of [inputs] holds a list. *)
Definition lists_only (inputs : gmap string Value) : Prop :=
  ∀ h v, inputs !! h = Some v → ∃ a, v = VList a.

(** The store [w] with the step-runs [added] behind the ones it has and the
    clock [ticks] later. *)
Definition appended (w : World) (added : list NodeExecution.t) (ticks : nat) : World :=
  mkWorld (workflows w) (nodes w) (node_types w) (connections w)
          (workflow_executions w) (node_executions w ++ added) (ticks + clock w).

(** Node [nodeID] has a completed step-run in Run [executionID]: the query of
    [allInputsReady] finds a row. *)
Definition completed (executionID nodeID : nat) (w : World) : Prop :=
  is_Some (DB_First_NodeExecution executionID nodeID "completed" w).

(** Every connection into [nodeID] comes from a node with a completed
    step-run. *)
Definition ready (executionID nodeID : nat) (w : World) : Prop :=
  ∀ c, c ∈ connections w → Connection.TargetNodeID c = nodeID →
       completed executionID (Connection.SourceNodeID c) w.

Section NodeStep.
Context `{Platform}.

(** The part of [executeNode] before its loop: the rows are read, the
    step-run is created and the executor runs.  The error is the one
    [executeNode] returns at once; without one the loop over the outgoing
    connections follows. *)
Definition nodeStep (nodeID executionID : nat) (w : World) (context : ExecutionContext)
  : World * ExecutionContext * option error :=
  match DB_First_Node nodeID w with
  | None => (w, context, Some ErrRecordNotFound)
  | Some node =>
  match DB_First_NodeType (Node.NodeType node) w with
  | None => (w, context, Some ErrRecordNotFound)
  | Some nodeType =>
    let '(now, w) := time_Now w in
    let nodeExecution :=
      NodeExecution.mk 0 executionID nodeID "running" (Some now) None "" "" "" in
    let '(nodeExecution, w) := DB_Create_NodeExecution nodeExecution w in
    let inputData := prepareNodeInput node executionID context w in
    let nodeExecution :=
      NodeExecution.set_InputData (marshal_or_empty (VMap inputData)) nodeExecution in
    let w := DB_Save_NodeExecution nodeExecution w in
    match LoadExecutor (NodeType.ExecutorClass nodeType) with
    | inr err =>
        let nodeExecution := NodeExecution.set_Status "failed" nodeExecution in
        let nodeExecution :=
          NodeExecution.set_ErrorMessage ("failed to load executor: " +:+ err)
                                         nodeExecution in
        let w := DB_Save_NodeExecution nodeExecution w in
        (w, context, Some err)
    | inl executor =>
    match json_Unmarshal (Node.Config node) with
    | inr err =>
        let nodeExecution := NodeExecution.set_Status "failed" nodeExecution in
        let nodeExecution :=
          NodeExecution.set_ErrorMessage ("failed to parse node config: " +:+ err)
                                         nodeExecution in
        let w := DB_Save_NodeExecution nodeExecution w in
        (w, context, Some err)
    | inl config =>
    match Execute executor (clock w) config inputData with
    | (_, Some err) =>
        let nodeExecution := NodeExecution.set_Status "failed" nodeExecution in
        let nodeExecution :=
          NodeExecution.set_ErrorMessage ("execution failed: " +:+ err) nodeExecution in
        let '(now, w) := time_Now w in
        let nodeExecution := NodeExecution.set_CompletedAt now nodeExecution in
        let w := DB_Save_NodeExecution nodeExecution w in
        (w, context, Some err)
    | (result, None) =>
        let nodeExecution :=
          NodeExecution.set_OutputData (marshal_or_empty result) nodeExecution in
        let nodeExecution := NodeExecution.set_Status "completed" nodeExecution in
        (* [now = time.Now()] assigns the variable that [StartedAt] points to *)
        let '(now, w) := time_Now w in
        let nodeExecution := NodeExecution.set_StartedAt now nodeExecution in
        let nodeExecution := NodeExecution.set_CompletedAt now nodeExecution in
        let w := DB_Save_NodeExecution nodeExecution w in
        let context := set_Result nodeID result context in
        (w, context, None)
    end
    end
    end
  end
  end.
End NodeStep.

(** The tables of workflows, nodes, node types and connections, which the
    engine only reads, are the same in [w] and [w']. *)
Definition same_graph (w w' : World) : Prop :=
  workflows w' = workflows w ∧ nodes w' = nodes w ∧ node_types w' = node_types w
  ∧ connections w' = connections w.

(** The calls of [executeNode] as a relation between the store and context
    before and the outcome, whatever the depth of the stack: a call either
    overflows on entry, stops with the error of its own step, or goes through
    the loop over its outgoing connections ([run_successors]). *)
Section Runs.
Context `{Platform}.
Variable executionID : nat.

Inductive run_node : nat → World → ExecutionContext → Outcome → Prop :=
| run_overflow nodeID w context :
    run_node nodeID w context (w, context, StackOverflow)
| run_stop nodeID w context w1 context1 err :
    nodeStep nodeID executionID w context = (w1, context1, Some err) →
    run_node nodeID w context (w1, context1, Returned (Some err))
| run_loop nodeID w context w1 context1 out :
    nodeStep nodeID executionID w context = (w1, context1, None) →
    run_successors (DB_Find_Connections_by_source nodeID w1) w1 context1 out →
    run_node nodeID w context out
with run_successors : list Connection.t → World → ExecutionContext → Outcome → Prop :=
| successors_done w context :
    run_successors [] w context (w, context, Returned None)
| successors_skip conn conns w context out :
    allInputsReady (Connection.TargetNodeID conn) executionID w = false →
    run_successors conns w context out →
    run_successors (conn :: conns) w context out
| successors_next conn conns w context w1 context1 out :
    allInputsReady (Connection.TargetNodeID conn) executionID w = true →
    run_node (Connection.TargetNodeID conn) w context (w1, context1, Returned None) →
    run_successors conns w1 context1 out →
    run_successors (conn :: conns) w context out
| successors_stop conn conns w context w1 context1 how :
    allInputsReady (Connection.TargetNodeID conn) executionID w = true →
    run_node (Connection.TargetNodeID conn) w context (w1, context1, how) →
    how ≠ Returned None →
    run_successors (conn :: conns) w context (w1, context1, how).

(** The loop over the start nodes, in the same way. *)
Inductive run_start_nodes : list Node.t → World → ExecutionContext → Outcome → Prop :=
| start_done w context :
    run_start_nodes [] w context (w, context, Returned None)
| start_next node startNodes w context w1 context1 out :
    run_node (Node.ID node) w context (w1, context1, Returned None) →
    run_start_nodes startNodes w1 context1 out →
    run_start_nodes (node :: startNodes) w context out
| start_stop node startNodes w context w1 context1 how :
    run_node (Node.ID node) w context (w1, context1, how) →
    how ≠ Returned None →
    run_start_nodes (node :: startNodes) w context (w1, context1, how).
End Runs.

Scheme run_node_mut := Minimality for run_node Sort Prop
  with run_successors_mut := Minimality for run_successors Sort Prop.

(** What [nodeStep] does to the store and the context: nothing when a row
    of the node or of its type is missing, and otherwise one step-run more,
    failed or completed. *)
Inductive nodeStep_cases (nodeID executionID : nat) (w : World)
    (context : ExecutionContext) : World * ExecutionContext * option error → Prop :=
| step_no_row :
    nodeStep_cases nodeID executionID w context (w, context, Some ErrRecordNotFound)
| step_failed row err ticks :
    NodeExecution.WorkflowExecutionID row = executionID →
    NodeExecution.NodeID row = nodeID →
    NodeExecution.StartedAt row = Some (clock w) →
    NodeExecution.Status row = "failed" →
    1 ≤ ticks →
    nodeStep_cases nodeID executionID w context
                   (appended w [row] ticks, context, Some err)
| step_completed row result :
    NodeExecution.WorkflowExecutionID row = executionID →
    NodeExecution.NodeID row = nodeID →
    NodeExecution.StartedAt row = Some (S (clock w)) →
    NodeExecution.Status row = "completed" →
    NodeExecution.CompletedAt row = Some (S (clock w)) →
    nodeStep_cases nodeID executionID w context
                   (appended w [row] 2, set_Result nodeID result context, None).

(** The store once [ExecuteWorkflow] has marked the Run as running. *)
Definition started (execution : WorkflowExecution.t) (w : World) : World :=
  DB_Save_WorkflowExecution (WorkflowExecution.set_running (clock w) execution)
                            (time_Now w).2.

(** The start nodes of the workflow of the Run. *)
Definition start_nodes (execution : WorkflowExecution.t) (w : World) : list Node.t :=
  startNodesOf (Preload_Workflow_Nodes execution w)
               (Preload_Workflow_Connections execution w).

(** The instants of the Run are in order, and every step-run was started
    after its inputs had completed. *)
Definition timely (executionID : nat) (w : World) : Prop :=
  clock_bounds executionID w ∧ inputs_completed_first executionID w.

(** The graph of [w] is the one of [w0], and the step-runs of the Run are
    step-runs of nodes reachable from a source node. *)
Definition only_reachable (executionID : nat) (execution : WorkflowExecution.t)
    (w0 w : World) : Prop :=
  same_graph w0 w
  ∧ ∀ r, r ∈ node_executions w → NodeExecution.WorkflowExecutionID r = executionID →
         reachable execution w0 (NodeExecution.NodeID r).

(** From [w] to [w'] the completed nodes only grow in number, and every
    node whose inputs became ready on the way has been completed. *)
Definition follows (executionID : nat) (w w' : World) : Prop :=
  same_graph w w'
  ∧ (∀ n, completed executionID n w → completed executionID n w')
  ∧ (∀ n, allInputsReady n executionID w' = true →
          allInputsReady n executionID w = false →
          completed executionID n w').

(** Node [m] has an incoming connection whose source is [n] or is reached
    from [n]. *)
Definition fed_from (execution : WorkflowExecution.t) (w0 : World) (n m : nat) : Prop :=
  ∃ c, c ∈ Preload_Workflow_Connections execution w0
       ∧ Connection.TargetNodeID c = m
       ∧ rtc (edge execution w0) n (Connection.SourceNodeID c).

(** The graph of [w] is the one of [w0], the Run is timely, and no node has
    more than one step-run. *)
Definition at_most_once (executionID : nat) (w0 w : World) : Prop :=
  same_graph w0 w
  ∧ timely executionID w
  ∧ ∀ m, length (step_runs executionID m w) ≤ 1.

(** ** Notions for the proofs about the executors *)

(** The number of constructors of a value, on which the induction over
    nested values runs. *)
Fixpoint Value_size (v : Value) : nat :=
  match v with
  | VList l => S (foldr (fun x n => Value_size x + n) 0 l)
  | VMap m => S (map_fold (fun _ x n => Value_size x + n) 0 m)
  | _ => 1
  end.

(** A mapping template in which nothing is replaced: no key of an object
    in it, at any depth, has as its value a string that both starts with
    [{{] and ends with [}}].  Such a string may stand in a list, or be the
    template itself. *)
Inductive template_free : Value → Prop :=
| free_nil : template_free VNil
| free_bool b : template_free (VBool b)
| free_int n : template_free (VInt n)
| free_float f : template_free (VFloat f)
| free_str v : template_free (VStr v)
| free_list l : Forall template_free l → template_free (VList l)
| free_map m :
    (∀ key v, m !! key = Some (VStr v) →
              strings_HasPrefix v "{{" && strings_HasSuffix v "}}" = false) →
    map_Forall (fun _ => template_free) m →
    template_free (VMap m).

(** ** Notions for the proofs about a whole Run *)

(** The store once [ExecuteWorkflow] has written down how the Run ended:
    [execution] is the struct of the Run as [executeWorkflowInternal] left
    it, [err] the error that it returned. *)
Definition closed (err : option error) (execution : WorkflowExecution.t) (w : World)
  : World :=
  let execution := WorkflowExecution.set_CompletedAt (clock w) execution in
  let execution :=
    match err with
    | Some e => WorkflowExecution.set_failed e execution
    | None => WorkflowExecution.set_completed execution
    end in
  DB_Save_WorkflowExecution execution (time_Now w).2.

(** The ways through [executeWorkflowInternal] for the Run [execution] that
    [ExecuteWorkflow] has marked as running in the store [w]: the store it
    leaves, the struct of the Run at the end, and how the call ends. *)
Inductive workflow_cases `{Platform} (depth : nat) (execution : WorkflowExecution.t)
    (w : World) : World → WorkflowExecution.t → Completion → Prop :=
| case_no_start_nodes :
    start_nodes execution w = [] →
    workflow_cases depth execution w (started execution w)
      (WorkflowExecution.set_running (clock w) execution)
      (Returned (Some "workflow has no start nodes"))
| case_bad_input err :
    start_nodes execution w ≠ [] →
    json_Unmarshal (WorkflowExecution.InputData execution) = inr err →
    workflow_cases depth execution w (started execution w)
      (WorkflowExecution.set_running (clock w) execution)
      (Returned (Some ("failed to parse input data: " +:+ err)))
| case_overflow input w2 context2 :
    start_nodes execution w ≠ [] →
    json_Unmarshal (WorkflowExecution.InputData execution) = inl input →
    executeStartNodes depth (start_nodes execution w) (WorkflowExecution.ID execution)
                      (started execution w) (NewExecutionContext input)
    = (w2, context2, StackOverflow) →
    workflow_cases depth execution w w2
      (WorkflowExecution.set_running (clock w) execution) StackOverflow
| case_node_failed input w2 context2 err :
    start_nodes execution w ≠ [] →
    json_Unmarshal (WorkflowExecution.InputData execution) = inl input →
    executeStartNodes depth (start_nodes execution w) (WorkflowExecution.ID execution)
                      (started execution w) (NewExecutionContext input)
    = (w2, context2, Returned (Some err)) →
    workflow_cases depth execution w w2
      (WorkflowExecution.set_running (clock w) execution) (Returned (Some err))
| case_bad_output input w2 context2 err :
    start_nodes execution w ≠ [] →
    json_Unmarshal (WorkflowExecution.InputData execution) = inl input →
    executeStartNodes depth (start_nodes execution w) (WorkflowExecution.ID execution)
                      (started execution w) (NewExecutionContext input)
    = (w2, context2, Returned None) →
    json_Marshal_Results (Results context2) = inr err →
    workflow_cases depth execution w w2
      (WorkflowExecution.set_running (clock w) execution)
      (Returned (Some ("failed to marshal output data: " +:+ err)))
| case_completed input w2 context2 outputJSON :
    start_nodes execution w ≠ [] →
    json_Unmarshal (WorkflowExecution.InputData execution) = inl input →
    executeStartNodes depth (start_nodes execution w) (WorkflowExecution.ID execution)
                      (started execution w) (NewExecutionContext input)
    = (w2, context2, Returned None) →
    json_Marshal_Results (Results context2) = inl outputJSON →
    workflow_cases depth execution w w2
      (WorkflowExecution.set_OutputData outputJSON
         (WorkflowExecution.set_running (clock w) execution))
      (Returned None).

(** The step-run [row] of the Run is completed. *)
Definition completed_row (executionID : nat) (row : NodeExecution.t) : Prop :=
  NodeExecution.WorkflowExecutionID row = executionID
  ∧ NodeExecution.Status row = "completed".

(** The step-run [row] of the Run has failed with the error [err]: before
    the executor ran (it was not loaded, or the configuration of the node
    was not read), in which case the row has no instant of completion, or in
    the executor. *)
Definition failed_row (executionID : nat) (err : error) (row : NodeExecution.t) : Prop :=
  NodeExecution.WorkflowExecutionID row = executionID
  ∧ NodeExecution.Status row = "failed"
  ∧ (NodeExecution.ErrorMessage row = "failed to load executor: " +:+ err
     ∧ NodeExecution.CompletedAt row = None
     ∨ NodeExecution.ErrorMessage row = "failed to parse node config: " +:+ err
       ∧ NodeExecution.CompletedAt row = None
     ∨ NodeExecution.ErrorMessage row = "execution failed: " +:+ err
       ∧ is_Some (NodeExecution.CompletedAt row)).

(** What a run that ends as [how] has done to the store [w]: behind the
    step-runs of [w], which are as they were, stand completed step-runs of
    the Run and, when the run stopped on the failure of a node, the failed
    step-run of that node as the last; the rows of the Runs are the same and
    the clock has not gone back. *)
Definition grown (executionID : nat) (w w' : World) (how : Completion) : Prop :=
  workflow_executions w' = workflow_executions w
  ∧ clock w ≤ clock w'
  ∧ ∃ finished last,
      node_executions w' = node_executions w ++ finished ++ last
      ∧ Forall (completed_row executionID) finished
      ∧ match how with
        | Returned (Some err) =>
            last = [] ∨ ∃ row, last = [row] ∧ failed_row executionID err row
        | _ => last = []
        end.

(** The nodes that have a result in the context are the nodes with a
    completed step-run of the Run. *)
Definition results_recorded (executionID : nat) (w : World) (context : ExecutionContext)
  : Prop :=
  ∀ n, is_Some (Results context !! n) ↔ completed executionID n w.

(** The graph of [w] is the one of [w0], and every node with a step-run of
    the Run is grounded: no chain of connections leads back from it for
    ever, so neither it nor a node from which it is reached lies on a
    cycle. *)
Definition only_grounded (executionID : nat) (execution : WorkflowExecution.t)
    (w0 w : World) : Prop :=
  same_graph w0 w
  ∧ ∀ r, r ∈ node_executions w → NodeExecution.WorkflowExecutionID r = executionID →
         Acc (edge execution w0) (NodeExecution.NodeID r).

(** ** A platform and a store for the examples *)

(** A printer that agrees with [%v] on nil, booleans, integers, strings and
    lists of them; floats and maps are only sketched. *)
Fixpoint demo_Sprintf (v : Value) : string :=
  match v with
  | VNil => "<nil>"
  | VBool true => "true"
  | VBool false => "false"
  | VInt n => pretty n
  | VFloat _ => "float64"
  | VStr s => s
  | VList l => "[" +:+ String.concat " " (demo_Sprintf <$> l) +:+ "]"
  | VMap _ => "map[]"
  end.

(** A JSON encoder for nil, booleans, integers, strings without characters to
    escape, lists and maps of them. *)
Fixpoint demo_encode (v : Value) : string :=
  match v with
  | VNil => "null"
  | VBool true => "true"
  | VBool false => "false"
  | VInt n => pretty n
  | VFloat _ => "0"
  | VStr s => quote +:+ s +:+ quote
  | VList l => "[" +:+ String.concat "," (demo_encode <$> l) +:+ "]"
  | VMap m =>
      "{" +:+ String.concat ","
                ((fun kv => quote +:+ kv.1 +:+ quote +:+ ":" +:+ kv.2)
                   <$> map_to_list (demo_encode <$> m))
          +:+ "}"
  end.

Definition demo_encode_Results (m : gmap nat Value) : string :=
  "{" +:+ String.concat ","
            ((fun kv => quote +:+ pretty kv.1 +:+ quote +:+ ":" +:+ demo_encode kv.2)
               <$> map_to_list m)
      +:+ "}".

(** The empty JSON object is all the examples need to decode. *)
Definition demo_decode (s : string) : gmap string Value + error :=
  if decide (s = "{}") then inl ∅ else inr "invalid character".

Definition demo_platform : Platform := {|
  fmt_Sprintf_v := demo_Sprintf;
  json_Unmarshal := demo_decode;
  json_Marshal := fun v => inl (demo_encode v);
  json_Marshal_Results := fun m => inl (demo_encode_Results m);
  http_round_trip := fun _ _ _ _ => inr (DoRequest, "no route to host");
  loadPluginExecutor := fun _ => inr "plugin.Open: plugin not found"
|}.

(** The envelope as [encoding/json] writes it for a task type without
    characters to escape, and a decoder for exactly that layout. *)
Definition demo_envelope_head : string := "{" +:+ quote +:+ "task_type" +:+ quote +:+ ":" +:+ quote.
Definition demo_envelope_mid : string := quote +:+ "," +:+ quote +:+ "payload" +:+ quote +:+ ":".

Definition demo_encode_TaskMessage (t : TaskMessage.t) : string :=
  demo_envelope_head +:+ TaskMessage.TaskType t +:+ demo_envelope_mid
  +:+ TaskMessage.Payload t +:+ "}".

Definition demo_decode_TaskMessage (s : string) : TaskMessage.t + error :=
  if strings_HasPrefix s demo_envelope_head && strings_HasSuffix s "}" then
    let body := slice s (String.length demo_envelope_head) (String.length s - 1) in
    match String.index 0 demo_envelope_mid body with
    | Some i =>
        inl (TaskMessage.mk
               (slice body 0 i)
               (slice body (i + String.length demo_envelope_mid) (String.length body)))
    | None => inr "unexpected end of JSON input"
    end
  else inr "unexpected end of JSON input".

Definition demo_codec : Codec := {|
  json_Marshal_payload := fun v => inl (demo_encode v);
  json_Marshal_TaskMessage := fun t => inl (demo_encode_TaskMessage t);
  json_Unmarshal_TaskMessage := demo_decode_TaskMessage
|}.

(** The payloads of the examples are compact as the example encoder writes
    them, and the examples read no envelope in another layout than the one
    of [Marshal]. *)
Definition demo_json : JSONText := {|
  json_Compact := fun s => inl s;
  json_Unmarshal_TaskMessage_other := fun _ => inr "invalid character"
|}.

(** The codec of [encoding/json] on the platform of the examples. *)
Definition demo_encoding_json : Codec :=
  encoding_json (H := demo_platform) (H0 := demo_json).

(** A task type of one byte, 255, which no UTF-8 encoding contains, and the
    encoding of U+FFFD. *)
Definition garbled_type : string := String "255"%char "".
Definition replacement_character : string := string_of_Ns [239%N; 191%N; 189%N].

(** A store with one workflow (id 1) and one Run of it (id 1, input [{}]);
    its nodes and connections vary with the example. *)
Definition demo_node (id : nat) (nodeType : string) : Node.t :=
  Node.mk id 1 nodeType ("node " +:+ pretty id) "{}".

Definition demo_connection (id source target : nat) : Connection.t :=
  Connection.mk id 1 source target "output" "input".

Definition demo_world (ns : list Node.t) (cs : list Connection.t) : World := {|
  workflows := [Workflow.mk 1 "demo"];
  nodes := ns;
  node_types := [NodeType.mk 1 "httpRequest" "httpRequest";
                 NodeType.mk 2 "filter" "filter";
                 NodeType.mk 3 "transform" "transform"];
  connections := cs;
  workflow_executions := [WorkflowExecution.mk 1 1 "pending" 0 None "{}" "{}" ""];
  node_executions := [];
  clock := 1
|}.

(** Three filters: 1 feeds 2 and 3, and 2 feeds 3 as well. *)
Definition triangle : World :=
  demo_world [demo_node 1 "filter"; demo_node 2 "filter"; demo_node 3 "filter"]
             [demo_connection 1 1 2; demo_connection 2 1 3; demo_connection 3 2 3].

(** Four filters in a diamond: 1 feeds 2 and 3, which both feed 4. *)
Definition diamond : World :=
  demo_world [demo_node 1 "filter"; demo_node 2 "filter"; demo_node 3 "filter";
              demo_node 4 "filter"]
             [demo_connection 1 1 2; demo_connection 2 1 3;
              demo_connection 3 2 4; demo_connection 4 3 4].

(** The documented example of the Transform executor: the template
    [{{first}} {{last}}] under the key ["full"]. *)
Definition full_name_config : gmap string Value :=
  {[ "mapping" := VMap {[ "full" := VStr "{{first}} {{last}}" ]} ]}.

Definition full_name_input : gmap string Value :=
  {[ "input" := VList [VMap {[ "first" := VStr "A"; "last" := VStr "B" ]}] ]}.

(** Two nodes that feed each other, and a workflow of one Transform node
    whose configuration has no mapping. *)
Definition ring : World :=
  demo_world [demo_node 1 "filter"; demo_node 2 "filter"]
             [demo_connection 1 1 2; demo_connection 2 2 1].

Definition lonely_transform : World := demo_world [demo_node 1 "transform"] [].

(** A context in which nodes 2 and 3 of the diamond have results. *)
Definition diamond_context : ExecutionContext :=
  mkContext {[ "seed" := VInt 1 ]} {[ 2 := VStr "b"; 3 := VStr "c" ]}.

(** The row of the Run in the stores of the examples. *)
Definition demo_execution : WorkflowExecution.t :=
  WorkflowExecution.mk 1 1 "pending" 0 None "{}" "{}" "".

(** A workflow with a cycle behind its start node: 1 feeds 2, 2 feeds 3 and
    3 feeds 2. *)
Definition lasso : World :=
  demo_world [demo_node 1 "filter"; demo_node 2 "filter"; demo_node 3 "filter"]
             [demo_connection 1 1 2; demo_connection 2 2 3; demo_connection 3 3 2].

(** A Run whose input document is cut short. *)
Definition cut_short_execution : WorkflowExecution.t :=
  WorkflowExecution.mk 1 1 "pending" 0 None "{" "{}" "".

Definition cut_short : World :=
  with_workflow_executions [cut_short_execution] (demo_world [demo_node 1 "filter"] []).

(** A node of a type that the table of node types does not have, and a node
    whose type names an executor class that is not built in. *)
Definition untyped : World := demo_world [demo_node 1 "script"] [].

Definition script_type : NodeType.t := NodeType.mk 1 "script" "python".

Definition scripted : World :=
  with_node_types [script_type] (demo_world [demo_node 1 "script"] []).


Definition plugged_filter : NodeType.t := NodeType.mk 1 "filter" "plugin:filter.so".

Definition plugged : World := with_node_types [plugged_filter] (demo_world [] []).

(** The task that executes Run 7, its envelope, and servers on which the
    envelope waits: alone, and behind one that cannot be decoded. *)
Definition demo_payload : Value := VMap {[ "execution_id" := VInt 7 ]}.

Definition demo_task : TaskMessage.t :=
  TaskMessage.mk "execute_workflow" ("{" +:+ quote +:+ "execution_id" +:+ quote +:+ ":7}").

Definition demo_envelope : string := demo_encode_TaskMessage demo_task.

Definition waiting_server : Redis :=
  mkRedis {[ "workflow_tasks" := [demo_envelope] ]} None.

Definition garbled_server : Redis :=
  mkRedis {[ "workflow_tasks" := ["garbage"; demo_envelope] ]} None.

(** Items and configurations for the executors. *)
Definition ann : Value :=
  VMap {[ "user" := VMap {[ "name" := VStr "Ann" ]}; "status" := VStr "active" ]}.

Definition status_config (operator : list Value) : gmap string Value :=
  list_to_map (("field", VStr "status") :: ("value", VStr "active")
               :: ((fun o => ("operator", o)) <$> operator)).

Definition tagged_mapping : Value := VMap {[ "tags" := VList [VStr "{{tag}}"] ]}.

Definition two_ports : gmap string Value :=
  {[ "left" := VList [ann]; "right" := VList [ann] ]}.

(** A plugin whose executor returns an error without a text, a platform that
    loads it from [silent.so], and a workflow of one node of that type. *)
Definition silent_executor : NodeExecutor :=
  {| Execute := fun _ _ _ => (VNil, Some "") |}.

Definition silent_platform : Platform := {|
  fmt_Sprintf_v := demo_Sprintf;
  json_Unmarshal := demo_decode;
  json_Marshal := fun v => inl (demo_encode v);
  json_Marshal_Results := fun m => inl (demo_encode_Results m);
  http_round_trip := fun _ _ _ _ => inr (DoRequest, "no route to host");
  loadPluginExecutor := fun pluginPath =>
    if decide (pluginPath = "silent.so") then inl silent_executor
    else inr "plugin.Open: plugin not found"
|}.

Definition silent_type : NodeType.t := NodeType.mk 4 "silent" "plugin:silent.so".

Definition silent : World :=
  with_node_types [silent_type] (demo_world [demo_node 1 "silent"] []).

(** A workflow of one node and no connection, in a store in which two
    connections of another workflow form a ring through that node. *)
Definition stray_ring : World := {|
  workflows := [Workflow.mk 1 "demo"; Workflow.mk 2 "other"];
  nodes := [demo_node 1 "filter"; Node.mk 2 2 "filter" "node 2" "{}"];
  node_types := node_types triangle;
  connections := [Connection.mk 1 2 1 2 "output" "input";
                  Connection.mk 2 2 2 1 "output" "input"];
  workflow_executions := [demo_execution];
  node_executions := [];
  clock := 1
|}.

(** The triangle once more, now with an earlier Run of the same workflow
    (id 2), which completed with a step-run for each of the three nodes,
    next to the pending Run 1. *)
Definition earlier_run : WorkflowExecution.t :=
  WorkflowExecution.mk 2 1 "completed" 1 (Some 8) "{}" "{}" "".

Definition earlier_step_runs : list NodeExecution.t :=
  [NodeExecution.mk 1 2 1 "completed" (Some 3) (Some 3) "{}" "[]" "";
   NodeExecution.mk 2 2 2 "completed" (Some 5) (Some 5) "{}" "[]" "";
   NodeExecution.mk 3 2 3 "completed" (Some 7) (Some 7) "{}" "[]" ""].

Definition two_runs : World := {|
  workflows := workflows triangle;
  nodes := nodes triangle;
  node_types := node_types triangle;
  connections := connections triangle;
  workflow_executions := [demo_execution; earlier_run];
  node_executions := earlier_step_runs;
  clock := 9
|}.

(** * Properties *)

(** ** Lists *)

Lemma elem_of_List_filter {A} (p : A → bool) (l : list A) (x : A) :
  x ∈ List.filter p l ↔ x ∈ l ∧ p x = true.
Proof. rewrite !list_elem_of_In. apply filter_In. Qed.

Lemma existsb_false_elem {A} (p : A → bool) (l : list A) (x : A) :
  existsb p l = false → x ∈ l → p x = false.
Proof.
  intros Hex Hin. destruct (p x) eqn:Hpx; [|done].
  assert (existsb p l = true) as Ht; [|congruence].
  apply existsb_exists. exists x. by rewrite <- list_elem_of_In.
Qed.

(** ** The executors *)

Section ExecutorProperties.
Context `{Platform}.

Lemma compareValues_greater_than (value1 value2 : Value) :
  FilterExecutor_compareValues value1 value2 "greater_than" = false.
Proof. reflexivity. Qed.

Lemma compareValues_less_than (value1 value2 : Value) :
  FilterExecutor_compareValues value1 value2 "less_than" = false.
Proof. reflexivity. Qed.

Lemma filter_all_false {A} (p : A → bool) (l : list A) :
  (∀ x, p x = false) → List.filter p l = [].
Proof.
  intros Hp. induction l as [|x l IH]; simpl; [done|]. by rewrite Hp.
Qed.

Lemma filter_sublist {A} (p : A → bool) (l : list A) :
  List.filter p l `sublist_of` l.
Proof.
  induction l as [|x l IH]; simpl; [constructor|].
  destruct (p x); by constructor.
Qed.

(** C5: with the operator ["greater_than"] or ["less_than"] the comparison
    of the Filter executor is false for every pair of values, whatever the
    rest of the configuration and the input are, so the filtered output
    holds no item. *)
Theorem filter_ordering_operators_select_nothing
    (config input : gmap string Value) (operator : string) :
  config !! "operator" = Some (VStr operator) →
  operator = "greater_than" ∨ operator = "less_than" →
  (∀ value1 value2, FilterExecutor_compareValues value1 value2 operator = false)
  ∧ FilterExecutor_Execute config input = (VList [], None).
Proof.
  intros Hop Hcases.
  assert (Hcmp : ∀ value1 value2,
             FilterExecutor_compareValues value1 value2 operator = false).
  { intros v1 v2. destruct Hcases as [-> | ->];
      [apply compareValues_greater_than | apply compareValues_less_than]. }
  split; [exact Hcmp|].
  unfold FilterExecutor_Execute. rewrite Hop.
  assert (Hne : operator ≠ "") by (destruct Hcases as [-> | ->]; discriminate).
  destruct (decide (operator = "")) as [|_]; [done|].
  rewrite filter_all_false; [done|]. intros item. apply Hcmp.
Qed.

(** C9: the Filter executor never returns an error: for every
    configuration (with or without field, operator and value, with any
    operator) and every input, [Execute] returns a result and a nil
    error. *)
Theorem filter_never_fails (config input : gmap string Value) :
  ∃ result, FilterExecutor_Execute config input = (result, None).
Proof. unfold FilterExecutor_Execute. eauto. Qed.

(** C10: the output of the Filter executor is a sublist of its input items
    as [Execute] reads them: the items it keeps are items of the input,
    unchanged and in their order. *)
Theorem filter_output_is_sublist (config input : gmap string Value) :
  ∃ filtered,
    FilterExecutor_Execute config input = (VList filtered, None)
    ∧ filtered `sublist_of` inputItems input.
Proof.
  unfold FilterExecutor_Execute. eexists. split; [reflexivity|].
  apply filter_sublist.
Qed.

End ExecutorProperties.

(** C2: on the mapping [{"full": "{{first}} {{last}}"}] and the item
    [{"first":"A","last":"B"}] the Transform executor does not produce
    [{"full":"A B"}]: it takes everything between the outer braces,
    [first}} {{last], as one path, finds no such field and stores nil. *)
Theorem transform_full_name_is_nil :
  TransformExecutor_Execute full_name_config full_name_input
  = (VList [VMap {[ "full" := VNil ]}], None)
  ∧ TransformExecutor_Execute full_name_config full_name_input
    ≠ (VList [VMap {[ "full" := VStr "A B" ]}], None).
Proof.
  assert (E : TransformExecutor_Execute full_name_config full_name_input
              = (VList [VMap {[ "full" := VNil ]}], None)) by (vm_compute; reflexivity).
  split; [exact E|]. rewrite E. intros Heq.
  assert (Hl : ({[ "full" := VNil ]} : gmap string Value) !! "full"
               = ({[ "full" := VStr "A B" ]} : gmap string Value) !! "full")
    by congruence.
  rewrite !lookup_singleton_eq in Hl. discriminate.
Qed.

(** The Filter executor with the operator ["equals"] on the field
    ["status"] keeps the active item. *)
Example filter_keeps_the_active_item :
  FilterExecutor_Execute (H := demo_platform)
    {[ "field" := VStr "status"; "operator" := VStr "equals"; "value" := VStr "active" ]}
    {[ "input" := VList [VMap {[ "status" := VStr "active" ]};
                         VMap {[ "status" := VStr "inactive" ]}] ]}
  = (VList [VMap {[ "status" := VStr "active" ]}], None).
Proof. vm_compute. reflexivity. Qed.

(** A template that is one placeholder is replaced by the field. *)
Example transform_single_placeholder :
  TransformExecutor_Execute
    {[ "mapping" := VMap {[ "name" := VStr "{{ first }}" ]} ]} full_name_input
  = (VList [VMap {[ "name" := VStr "A" ]}], None).
Proof. vm_compute. reflexivity. Qed.

Lemma filter_ordering_operators_select_nothing_witness :
  FilterExecutor_Execute (H := demo_platform)
    {[ "field" := VStr "age"; "operator" := VStr "greater_than"; "value" := VInt 18 ]}
    {[ "input" := VList [VMap {[ "age" := VInt 30 ]}] ]}
  = (VList [], None).
Proof.
  apply (filter_ordering_operators_select_nothing (H := demo_platform)
           _ _ "greater_than"); [vm_compute; reflexivity | left; reflexivity].
Defined.

(** ** Input aggregation *)

Lemma collect_lookup results inputs conn h :
  lists_only inputs →
  collect results inputs conn !! h =
    match handle_outputs h [conn] results with
    | [] => inputs !! h
    | outs =>
        match inputs !! h with
        | Some (VList a) => Some (VList (a ++ outs))
        | _ => Some (VList outs)
        end
    end.
Proof.
  intros Hl. unfold collect, handle_outputs. simpl.
  destruct (results !! Connection.SourceNodeID conn) as [result|] eqn:Hr.
  - destruct (decide (Connection.TargetHandle conn = h)) as [->|Hne].
    + simpl. destruct (inputs !! h) as [v|] eqn:Hh.
      * destruct (Hl _ _ Hh) as [a ->]. rewrite Hh. by rewrite lookup_insert_eq.
      * rewrite !lookup_insert_eq. reflexivity.
    + simpl. destruct (inputs !! Connection.TargetHandle conn);
        by rewrite ?lookup_insert_ne.
  - by destruct (decide (Connection.TargetHandle conn = h)).
Qed.

Lemma collect_lists_only results inputs conn :
  lists_only inputs → lists_only (collect results inputs conn).
Proof.
  intros Hl h v. rewrite collect_lookup by done.
  destruct (handle_outputs h [conn] results) as [|o outs]; [apply Hl|].
  destruct (inputs !! h) as [[]|]; intros [= <-]; eauto.
Qed.

Lemma handle_outputs_cons h conn conns results :
  handle_outputs h (conn :: conns) results
  = handle_outputs h [conn] results ++ handle_outputs h conns results.
Proof.
  unfold handle_outputs. simpl.
  destruct (decide (Connection.TargetHandle conn = h)); [|done].
  by destruct (results !! Connection.SourceNodeID conn).
Qed.

Lemma foldl_collect_lookup results conns inputs h :
  lists_only inputs →
  foldl (collect results) inputs conns !! h =
    match handle_outputs h conns results with
    | [] => inputs !! h
    | outs =>
        match inputs !! h with
        | Some (VList a) => Some (VList (a ++ outs))
        | _ => Some (VList outs)
        end
    end.
Proof.
  revert inputs. induction conns as [|conn conns IH]; intros inputs Hl; [done|].
  simpl foldl. rewrite IH by by apply collect_lists_only.
  rewrite handle_outputs_cons, collect_lookup by done.
  destruct (handle_outputs h [conn] results) as [|o outs] eqn:Ho; simpl.
  - reflexivity.
  - destruct (handle_outputs h conns results) as [|o' outs'] eqn:Ho'.
    + rewrite app_nil_r. by destruct (inputs !! h) as [[]|].
    + destruct (inputs !! h) as [v|] eqn:Hh.
      * destruct (Hl _ _ Hh) as [a ->]. by rewrite <- app_assoc.
      * reflexivity.
Qed.

(** C4: the input of a node.  Without an incoming connection it is the input
    document of the Run itself.  With at least one it is a map keyed by
    target handle: a handle holds the list of the recorded results of the
    sources of the connections into that handle, in the order of the
    connections (two such connections give a list of two), and a handle on
    which no recorded result arrives is absent. *)
Theorem prepareNodeInput_aggregates (node : Node.t) (executionID : nat)
    (context : ExecutionContext) (w : World) :
  let conns := DB_Find_Connections_by_target (Node.ID node) w in
  (conns = [] → prepareNodeInput node executionID context w = Input context)
  ∧ (conns ≠ [] → ∀ handle,
       prepareNodeInput node executionID context w !! handle =
         match handle_outputs handle conns (Results context) with
         | [] => None
         | outs => Some (VList outs)
         end).
Proof.
  intros conns. unfold prepareNodeInput. fold conns. split.
  - intros ->. reflexivity.
  - intros Hne handle.
    destruct (decide (length conns = 0)) as [Hz|_].
    { destruct conns; [done | discriminate]. }
    change (foldl _ ∅ conns) with (foldl (collect (Results context)) ∅ conns).
    rewrite foldl_collect_lookup.
    + rewrite lookup_empty. by destruct (handle_outputs _ _ _).
    + intros h v. by rewrite lookup_empty.
Qed.

(** ** The row of the Run *)

Lemma find_after_Save (table : list WorkflowExecution.t)
    (execution execution' : WorkflowExecution.t) (executionID saved : nat) :
  List.find (fun e => bool_decide (WorkflowExecution.ID e = executionID)) table
  = Some execution →
  saved = executionID →
  WorkflowExecution.ID execution' = executionID →
  List.find (fun e => bool_decide (WorkflowExecution.ID e = executionID))
            ((fun e => if decide (WorkflowExecution.ID e = saved)
                       then execution' else e) <$> table)
  = Some execution'.
Proof.
  intros Hfind -> Hid. induction table as [|e l IH]; [done|].
  simpl in *.
  destruct (decide (WorkflowExecution.ID e = executionID)) as [He|He].
  - rewrite bool_decide_true by congruence. reflexivity.
  - rewrite bool_decide_false in Hfind by congruence.
    rewrite bool_decide_false by congruence. auto.
Qed.

Lemma First_WorkflowExecution_ID (execution : WorkflowExecution.t) (executionID : nat)
    (w : World) :
  DB_First_WorkflowExecution executionID w = Some execution →
  WorkflowExecution.ID execution = executionID.
Proof.
  unfold DB_First_WorkflowExecution. intros Hfind.
  apply find_some in Hfind as [_ Hid]. by apply bool_decide_eq_true in Hid.
Qed.

Lemma elem_of_startNodesOf (ns : list Node.t) (cs : list Connection.t) (node : Node.t) :
  node ∈ startNodesOf ns cs
  ↔ node ∈ ns ∧ ∀ c, c ∈ cs → Connection.TargetNodeID c ≠ Node.ID node.
Proof.
  unfold startNodesOf. rewrite elem_of_List_filter, negb_true_iff. split.
  - intros [Hin Hex]. split; [done|]. intros c Hc Ht.
    pose proof (existsb_false_elem _ _ c Hex Hc) as Hf. simpl in Hf.
    by rewrite bool_decide_true in Hf.
  - intros [Hin Hno]. split; [done|].
    destruct (existsb _ cs) eqn:Hex; [|done].
    apply existsb_exists in Hex as (c & Hc & Ht).
    apply bool_decide_eq_true in Ht. apply list_elem_of_In in Hc. by destruct (Hno c).
Qed.

Section RunProperties.
Context `{Platform}.

(** C7: when every node of the workflow has an incoming connection, the Run
    fails with the error of the missing start node, and no step-run is
    created: the table of step-runs is what it was. *)
Theorem no_start_node_fails_fast (depth executionID : nat)
    (execution : WorkflowExecution.t) (w : World) :
  DB_First_WorkflowExecution executionID w = Some execution →
  (∀ node, node ∈ Preload_Workflow_Nodes execution w →
           ∃ c, c ∈ Preload_Workflow_Connections execution w
                ∧ Connection.TargetNodeID c = Node.ID node) →
  ∃ w' run,
    ExecuteWorkflow depth executionID w
    = (w', Returned (Some "workflow has no start nodes"))
    ∧ node_executions w' = node_executions w
    ∧ DB_First_WorkflowExecution executionID w' = Some run
    ∧ WorkflowExecution.Status run = "failed"
    ∧ WorkflowExecution.ErrorMessage run = "workflow has no start nodes".
Proof.
  intros Hrun Hincoming.
  pose proof (First_WorkflowExecution_ID _ _ _ Hrun) as Hid.
  unfold ExecuteWorkflow. rewrite Hrun. simpl.
  unfold executeWorkflowInternal.
  set (running := WorkflowExecution.set_running _ _).
  set (w1 := DB_Save_WorkflowExecution _ _).
  assert (Hstart : startNodesOf (Preload_Workflow_Nodes running w1)
                                (Preload_Workflow_Connections running w1) = []).
  { change (Preload_Workflow_Nodes running w1) with (Preload_Workflow_Nodes execution w).
    change (Preload_Workflow_Connections running w1)
      with (Preload_Workflow_Connections execution w).
    destruct (startNodesOf _ _) as [|node l] eqn:Hs; [done|].
    assert (Hin : node ∈ startNodesOf (Preload_Workflow_Nodes execution w)
                                      (Preload_Workflow_Connections execution w))
      by (rewrite Hs; left).
    apply elem_of_startNodesOf in Hin as [Hin Hno].
    destruct (Hincoming _ Hin) as (c & Hc & Ht). by destruct (Hno c). }
  rewrite Hstart. simpl.
  eexists _, _. split; [reflexivity|]. split; [reflexivity|].
  split.
  - unfold DB_First_WorkflowExecution. simpl.
    eapply find_after_Save; [|exact Hid..].
    eapply find_after_Save; [exact Hrun | exact Hid..].
  - split; reflexivity.
Qed.

End RunProperties.

(** ** The task queue *)

Section QueueProperties.
Context `{Codec}.

(** [EnqueueTask] puts the envelope behind the ones that wait. *)
Lemma EnqueueTask_appends (r : Redis) (queueName taskType : string) (payload : Value)
    (payloadBytes taskBytes : string) :
  failure r = None →
  json_Marshal_payload payload = inl payloadBytes →
  json_Marshal_TaskMessage (TaskMessage.mk taskType payloadBytes) = inl taskBytes →
  ∃ r', EnqueueTask queueName taskType payload r = (r', None)
        ∧ failure r' = None
        ∧ lists r' !! queueName
          = Some (default [] (lists r !! queueName) ++ [taskBytes]).
Proof.
  intros Hup Hpayload Htask. unfold EnqueueTask, RPush.
  rewrite Hpayload, Htask, Hup. eexists. split; [reflexivity|]. simpl.
  split; [reflexivity|]. apply lookup_insert_eq.
Qed.

(** [DequeueTask] takes the envelope at the head. *)
Lemma DequeueTask_head (r : Redis) (queueName : string) (timeout : nat)
    (taskBytes : string) (waiting : list string) (task : TaskMessage.t) :
  failure r = None →
  lists r !! queueName = Some (taskBytes :: waiting) →
  json_Unmarshal_TaskMessage taskBytes = inl task →
  ∃ r', DequeueTask queueName timeout r = Some (r', Some task, None)
        ∧ default [] (lists r' !! queueName) = waiting.
Proof.
  intros Hup Hq Hdec. unfold DequeueTask, BLPop. rewrite Hup, Hq. simpl.
  rewrite Hdec. eexists. split; [reflexivity|]. simpl.
  destruct waiting; [by rewrite lookup_delete_eq | by rewrite lookup_insert_eq].
Qed.

(** On a queue on which nothing waits [DequeueTask] returns no task and no
    error once the timeout has passed. *)
Lemma DequeueTask_empty (r : Redis) (queueName : string) (timeout : nat) :
  failure r = None →
  default [] (lists r !! queueName) = [] →
  timeout ≠ 0 →
  DequeueTask queueName timeout r = Some (r, None, None).
Proof.
  intros Hup Hempty Htimeout. unfold DequeueTask, BLPop. rewrite Hup, Hempty.
  by destruct (decide (timeout = 0)).
Qed.

End QueueProperties.

(** ** One call of [executeNode] *)

(** Replaces the stores, contexts and errors that an equation of the context
    determines, and the node by the node of the new step-run; the identifier
    of the Run stays. *)
Ltac subst_outcome :=
  try match goal with
      | E : NodeExecution.NodeID _ = ?x |- _ => is_var x; subst x
      end;
  repeat match goal with
  | E : _ = ?x |- _ =>
      is_var x;
      lazymatch type of x with
      | World => subst x
      | ExecutionContext => subst x
      | option error => subst x
      | Value => subst x
      end
  | E : ?x = _ |- _ =>
      is_var x;
      lazymatch type of x with
      | World => subst x
      | ExecutionContext => subst x
      | option error => subst x
      | Value => subst x
      end
  end.

Section NodeStepProperties.
Context `{Platform}.

Lemma executeNode_unfold (depth nodeID executionID : nat) (w : World)
    (context : ExecutionContext) :
  executeNode (S depth) nodeID executionID w context =
    match nodeStep nodeID executionID w context with
    | (w, context, Some err) => (w, context, Returned (Some err))
    | (w, context, None) =>
        executeSuccessors
          (fun targetNodeID => executeNode depth targetNodeID executionID)
          (DB_Find_Connections_by_source nodeID w) executionID w context
    end.
Proof.
  unfold nodeStep. simpl.
  destruct (DB_First_Node nodeID w); [|reflexivity].
  destruct (DB_First_NodeType _ w); [|reflexivity].
  destruct (LoadExecutor _); [|reflexivity].
  destruct (json_Unmarshal _); [|reflexivity].
  destruct (Execute _ _ _ _) as [result [err|]]; reflexivity.
Qed.

Lemma next_NodeExecution_ID_fresh (w : World) (r : NodeExecution.t) :
  r ∈ node_executions w → NodeExecution.ID r < next_NodeExecution_ID w.
Proof.
  unfold next_NodeExecution_ID. induction (node_executions w) as [|x l IH]; simpl.
  - intros Hin. inversion Hin.
  - intros Hin. apply elem_of_cons in Hin as [->|Hin].
    + apply Nat.lt_succ_r, Nat.le_max_l.
    + specialize (IH Hin). apply Nat.lt_succ_r.
      etrans; [apply Nat.lt_succ_r, IH | apply Nat.le_max_r].
Qed.

Lemma DB_Save_appended (w : World) (row row' : NodeExecution.t) (ticks : nat) :
  NodeExecution.ID row = next_NodeExecution_ID w →
  NodeExecution.ID row' = NodeExecution.ID row →
  DB_Save_NodeExecution row' (appended w [row] ticks) = appended w [row'] ticks.
Proof.
  intros Hnext Hid. unfold DB_Save_NodeExecution, appended, with_node_executions. simpl.
  f_equal. rewrite fmap_app. simpl.
  rewrite decide_True by congruence. f_equal.
  rewrite <- (list_fmap_id (node_executions w)) at 2.
  apply list_fmap_ext. intros i x Hx. simpl.
  apply list_elem_of_lookup_2 in Hx. apply next_NodeExecution_ID_fresh in Hx.
  rewrite decide_False; [done | lia].
Qed.

Lemma nodeStep_spec (nodeID executionID : nat) (w : World) (context : ExecutionContext) :
  nodeStep_cases nodeID executionID w context (nodeStep nodeID executionID w context).
Proof.
  unfold nodeStep.
  destruct (DB_First_Node nodeID w) as [node|]; [|constructor].
  destruct (DB_First_NodeType _ w) as [nodeType|]; [|constructor].
  cbn [time_Now DB_Create_NodeExecution].
  set (row0 := NodeExecution.set_ID _ _).
  change (with_node_executions _ _) with (appended w [row0] 1).
  assert (Hrow0 : NodeExecution.ID row0 = next_NodeExecution_ID w) by reflexivity.
  set (inputData := prepareNodeInput _ _ _ _). clearbody inputData.
  rewrite (DB_Save_appended w row0) by done.
  set (row1 := NodeExecution.set_InputData _ row0).
  destruct (LoadExecutor _) as [executor|err].
  2:{ rewrite (DB_Save_appended w row1) by done. by apply step_failed. }
  destruct (json_Unmarshal _) as [config|err].
  2:{ rewrite (DB_Save_appended w row1) by done. by apply step_failed. }
  destruct (Execute _ _ _ _) as [result [err|]].
  - cbn [time_Now]. change (mkWorld _ _ _ _ _ _ _) with (appended w [row1] 2).
    rewrite (DB_Save_appended w row1) by done.
    apply step_failed; first [done | lia].
  - cbn [time_Now]. change (mkWorld _ _ _ _ _ _ _) with (appended w [row1] 2).
    rewrite (DB_Save_appended w row1) by done. by apply step_completed.
Qed.

End NodeStepProperties.

(** ** The calls of the engine as runs *)

Section RunsOfTheEngine.
Context `{Platform}.
Variable executionID : nat.

Lemma executeSuccessors_runs (exec : nat → World → ExecutionContext → Outcome)
    (conns : list Connection.t) :
  (∀ nodeID w context, run_node executionID nodeID w context (exec nodeID w context)) →
  ∀ w context,
    run_successors executionID conns w context
                   (executeSuccessors exec conns executionID w context).
Proof.
  intros Hexec. induction conns as [|conn conns IH]; intros w context; simpl.
  - constructor.
  - destruct (allInputsReady _ _ w) eqn:Hready; [|by apply successors_skip].
    pose proof (Hexec (Connection.TargetNodeID conn) w context) as Hrun.
    destruct (exec _ w context) as [[w1 context1] [[err|]|]].
    + by eapply successors_stop.
    + by eapply successors_next.
    + by eapply successors_stop.
Qed.

Lemma executeNode_runs (depth nodeID : nat) (w : World) (context : ExecutionContext) :
  run_node executionID nodeID w context (executeNode depth nodeID executionID w context).
Proof.
  revert nodeID w context. induction depth as [|depth IH]; intros nodeID w context.
  - constructor.
  - rewrite executeNode_unfold.
    destruct (nodeStep nodeID executionID w context) as [[w1 context1] [err|]] eqn:Hstep.
    + by apply run_stop.
    + eapply run_loop; [exact Hstep|]. by apply executeSuccessors_runs.
Qed.

Lemma executeStartNodes_runs (depth : nat) (startNodes : list Node.t) (w : World)
    (context : ExecutionContext) :
  run_start_nodes executionID startNodes w context
                  (executeStartNodes depth startNodes executionID w context).
Proof.
  revert w context. induction startNodes as [|node startNodes IH]; intros w context; simpl.
  - constructor.
  - pose proof (executeNode_runs depth (Node.ID node) w context) as Hrun.
    destruct (executeNode _ _ _ w context) as [[w1 context1] [[err|]|]].
    + by eapply start_stop.
    + by eapply start_next.
    + by eapply start_stop.
Qed.

End RunsOfTheEngine.

(** ** Invariants of a run *)

Lemma elem_of_appended (w : World) (added : list NodeExecution.t) (ticks : nat)
    (r : NodeExecution.t) :
  r ∈ node_executions (appended w added ticks) ↔ r ∈ node_executions w ∨ r ∈ added.
Proof. simpl. apply elem_of_app. Qed.

Lemma completed_iff (executionID nodeID : nat) (w : World) :
  completed executionID nodeID w
  ↔ ∃ r, r ∈ node_executions w
         ∧ NodeExecution.WorkflowExecutionID r = executionID
         ∧ NodeExecution.NodeID r = nodeID
         ∧ NodeExecution.Status r = "completed".
Proof.
  unfold completed, DB_First_NodeExecution. split.
  - intros [r Hr]. apply find_some in Hr as [Hin Hr].
    apply andb_prop in Hr as [Hr H3]. apply andb_prop in Hr as [H1 H2].
    apply bool_decide_eq_true in H1, H2, H3. apply list_elem_of_In in Hin. eauto.
  - intros (r & Hin & H1 & H2 & H3).
    destruct (List.find _ _) as [r'|] eqn:Hfind; [by eexists|].
    apply list_elem_of_In in Hin. pose proof (find_none _ _ Hfind r Hin) as Hnone.
    simpl in Hnone. by rewrite !bool_decide_true in Hnone.
Qed.

Lemma allInputsReady_spec (nodeID executionID : nat) (w : World) :
  allInputsReady nodeID executionID w = true ↔ ready executionID nodeID w.
Proof.
  unfold allInputsReady, ready, DB_Find_Connections_by_target.
  rewrite forallb_forall. split.
  - intros Hall c Hc Ht. specialize (Hall c). rewrite filter_In in Hall.
    apply list_elem_of_In in Hc. rewrite bool_decide_true in Hall by done.
    specialize (Hall (conj Hc eq_refl)). unfold completed.
    by destruct (DB_First_NodeExecution _ _ _ _).
  - intros Hready c [Hc Ht]%filter_In. apply bool_decide_eq_true in Ht.
    apply list_elem_of_In in Hc. destruct (Hready c Hc Ht) as [r ->]. reflexivity.
Qed.

Section Invariants.
Context `{Platform}.
Variable executionID : nat.

(** An invariant [I] of the store that one step of a node keeps when the
    node satisfies [Pre], and [Pre] holds of the targets the loop goes
    into, is kept by every run. *)
Section Preservation.
Variables (I : World → Prop) (Pre : nat → World → Prop).
Hypothesis step_keeps : ∀ nodeID w context w1 context1 err,
  I w → Pre nodeID w →
  nodeStep nodeID executionID w context = (w1, context1, err) → I w1.
Hypothesis targets_satisfy : ∀ nodeID w context w1 context1 conn w2,
  I w → Pre nodeID w →
  nodeStep nodeID executionID w context = (w1, context1, None) →
  conn ∈ DB_Find_Connections_by_source nodeID w1 →
  I w2 → allInputsReady (Connection.TargetNodeID conn) executionID w2 = true →
  Pre (Connection.TargetNodeID conn) w2.

Lemma run_node_keeps nodeID w context out :
  run_node executionID nodeID w context out →
  I w → Pre nodeID w → I out.1.1.
Proof.
  revert nodeID w context out.
  apply (run_node_mut _ executionID
           (fun nodeID w context out => I w → Pre nodeID w → I out.1.1)
           (fun conns w context out =>
              I w →
              (∀ conn w2, conn ∈ conns → I w2 →
                 allInputsReady (Connection.TargetNodeID conn) executionID w2 = true →
                 Pre (Connection.TargetNodeID conn) w2) →
              I out.1.1)); simpl.
  - auto.
  - intros nodeID w context w1 context1 err Hstep HI HPre. eauto.
  - intros nodeID w context w1 context1 out Hstep _ IH HI HPre.
    apply IH; [eauto|]. intros conn w2 Hconn HI2 Hready. eauto.
  - auto.
  - intros conn conns w context out _ _ IH HI Htargets.
    apply IH; [done|]. intros c w2 Hc. apply Htargets. by right.
  - intros conn conns w context w1 context1 out Hready _ IHnode _ IH HI Htargets.
    apply IH.
    + apply IHnode; [done|]. apply Htargets; [left|done|done].
    + intros c w2 Hc. apply Htargets. by right.
  - intros conn conns w context w1 context1 how Hready _ IHnode _ HI Htargets.
    apply IHnode; [done|]. apply Htargets; [left|done|done].
Qed.

Lemma run_start_nodes_keeps startNodes w context out :
  run_start_nodes executionID startNodes w context out →
  I w →
  (∀ node w2, node ∈ startNodes → I w2 → Pre (Node.ID node) w2) →
  I out.1.1.
Proof.
  induction 1 as [w context
                 |node startNodes w context w1 context1 out Hnode _ IH
                 |node startNodes w context w1 context1 how Hnode _];
    intros HI Hstart; simpl.
  - done.
  - apply IH.
    + apply (run_node_keeps _ _ _ _ Hnode); [done|]. apply Hstart; [left|done].
    + intros n w2 Hn. apply Hstart. by right.
  - apply (run_node_keeps _ _ _ _ Hnode); [done|]. apply Hstart; [left|done].
Qed.
End Preservation.

(** The read-only tables stay as they are. *)
Lemma nodeStep_same_graph nodeID w context w1 context1 err :
  nodeStep nodeID executionID w context = (w1, context1, err) → same_graph w w1.
Proof.
  intros Hstep. pose proof (nodeStep_spec nodeID executionID w context) as Hcases.
  rewrite Hstep in Hcases. inversion Hcases; subst_outcome; by repeat split.
Qed.

Lemma same_graph_trans w0 w w1 : same_graph w0 w → same_graph w w1 → same_graph w0 w1.
Proof.
  intros (?&?&?&?) (?&?&?&?). repeat split; congruence.
Qed.

Lemma run_node_same_graph nodeID w context out :
  run_node executionID nodeID w context out → same_graph w out.1.1.
Proof.
  intros Hrun.
  apply (run_node_keeps (same_graph w) (fun _ _ => True)) with (3 := Hrun);
    [|done|by repeat split|done].
  intros n w2 context2 w3 context3 err Hg _ Hstep.
  eapply same_graph_trans; [exact Hg|]. by eapply nodeStep_same_graph.
Qed.

Lemma run_start_nodes_same_graph startNodes w context out :
  run_start_nodes executionID startNodes w context out → same_graph w out.1.1.
Proof.
  intros Hrun.
  apply (run_start_nodes_keeps (same_graph w) (fun _ _ => True)) with (3 := Hrun);
    [|done|by repeat split|done].
  intros n w2 context2 w3 context3 err Hg _ Hstep.
  eapply same_graph_trans; [exact Hg|]. by eapply nodeStep_same_graph.
Qed.

End Invariants.

(** ** Readiness comes first *)

Section Readiness.
Context `{Platform}.
Variable executionID : nat.
Local Abbreviation timely := (timely executionID).

Lemma completed_before_appended w added ticks source r :
  completed_before executionID w source r →
  completed_before executionID (appended w added ticks) source r.
Proof.
  intros (r' & t & t' & Hin & Hrest). exists r', t, t'.
  split; [|done]. apply elem_of_appended. by left.
Qed.

Lemma timely_appended w row ticks :
  timely w →
  ready executionID (NodeExecution.NodeID row) w →
  NodeExecution.WorkflowExecutionID row = executionID →
  (∃ t, NodeExecution.StartedAt row = Some t ∧ clock w ≤ t < ticks + clock w) →
  (NodeExecution.Status row = "completed" →
   ∃ t, NodeExecution.CompletedAt row = Some t ∧ t < ticks + clock w) →
  1 ≤ ticks →
  timely (appended w [row] ticks).
Proof.
  intros [Hclock Hfirst] Hready Hrun (start & Hstart & Hstart_ge & Hstart_lt) Hdone Hticks.
  split.
  - intros r [Hr|Hr]%elem_of_appended Hr_run.
    + destruct (Hclock r Hr Hr_run) as [(t & Ht & Hlt) Hcompleted].
      split; [exists t; simpl; split; [done|lia]|].
      intros Hs. destruct (Hcompleted Hs) as (t' & Ht' & Hlt').
      exists t'. simpl. split; [done|lia].
    + apply list_elem_of_singleton in Hr as ->. split.
      * exists start. simpl. split; [done|lia].
      * exact Hdone.
  - intros r [Hr|Hr]%elem_of_appended Hr_run c Hc Htarget.
    + apply completed_before_appended. by apply Hfirst.
    + apply list_elem_of_singleton in Hr as ->.
      apply completed_before_appended.
      pose proof (Hready c Hc Htarget) as Hsource.
      apply completed_iff in Hsource as (r' & Hin & Hr'_run & Hr'_node & Hr'_status).
      destruct (Hclock r' Hin Hr'_run) as [_ Hcompleted].
      destruct (Hcompleted Hr'_status) as (t' & Ht' & Hlt').
      exists r', start, t'. repeat split; try done. lia.
Qed.

Lemma nodeStep_timely nodeID w context w1 context1 err :
  timely w → ready executionID nodeID w →
  nodeStep nodeID executionID w context = (w1, context1, err) →
  timely w1.
Proof.
  intros Htimely Hready Hstep.
  pose proof (nodeStep_spec nodeID executionID w context) as Hcases.
  rewrite Hstep in Hcases.
  inversion Hcases as [|row e ticks Hrun Hnode Hstart Hstatus Hticks
                       |row result Hrun Hnode Hstart Hstatus Hdone]; subst_outcome.
  - done.
  - apply timely_appended; try done.
    + exists (clock w). split; [done|lia].
    + rewrite Hstatus. discriminate.
  - apply timely_appended; try done; [| |lia].
    + exists (S (clock w)). split; [done|lia].
    + intros _. exists (S (clock w)). split; [done|lia].
Qed.

Lemma run_node_timely nodeID w context out :
  run_node executionID nodeID w context out →
  timely w → ready executionID nodeID w → timely out.1.1.
Proof.
  apply (run_node_keeps executionID timely (ready executionID)).
  - intros n w0 context0 w1 context1 err Ht Hr Hstep. by eapply nodeStep_timely.
  - intros n w0 context0 w1 context1 conn w2 _ _ _ _ _ Hready.
    by apply allInputsReady_spec.
Qed.

Lemma run_start_nodes_timely startNodes w context out :
  run_start_nodes executionID startNodes w context out →
  timely w →
  (∀ node c, node ∈ startNodes → c ∈ connections w →
             Connection.TargetNodeID c ≠ Node.ID node) →
  timely out.1.1.
Proof.
  intros Hrun Htimely Hsources.
  apply (run_start_nodes_keeps executionID
           (fun w' => connections w' = connections w ∧ timely w')
           (ready executionID)) with (3 := Hrun); [| |done|].
  - intros n w0 context0 w1 context1 err [Hconns Ht] Hr Hstep. split.
    + apply nodeStep_same_graph in Hstep as (_ & _ & _ & ->). done.
    + by eapply nodeStep_timely.
  - intros n w0 context0 w1 context1 conn w2 _ _ _ _ _ Hready.
    by apply allInputsReady_spec.
  - intros node w2 Hnode [Hconns _] c Hc Htarget.
    rewrite Hconns in Hc. by destruct (Hsources node c).
Qed.

End Readiness.

(** ** A whole Run *)

Section WholeRun.
Context `{Platform}.

(** [ExecuteWorkflow] either runs no node at all, or runs the start nodes
    from the store in which the Run is marked as running; the step-runs it
    leaves are the ones of that run. *)
Lemma ExecuteWorkflow_runs (depth executionID : nat) (w w' : World) (how : Completion) :
  ExecuteWorkflow depth executionID w = (w', how) →
  (node_executions w' = node_executions w ∧ connections w' = connections w
   ∧ how ≠ StackOverflow ∧ how ≠ Returned None)
  ∨ ∃ execution input w2 context2 how2,
      DB_First_WorkflowExecution executionID w = Some execution
      ∧ json_Unmarshal (WorkflowExecution.InputData execution) = inl input
      ∧ executeStartNodes depth (start_nodes execution w) executionID
                          (started execution w) (NewExecutionContext input)
        = (w2, context2, how2)
      ∧ node_executions w' = node_executions w2
      ∧ connections w' = connections w2
      ∧ (how = StackOverflow ↔ how2 = StackOverflow)
      ∧ (how = Returned None → how2 = Returned None).
Proof.
  unfold ExecuteWorkflow.
  destruct (DB_First_WorkflowExecution executionID w) as [execution|] eqn:Hrun.
  2:{ intros [= <- <-]. left. by repeat split. }
  pose proof (First_WorkflowExecution_ID _ _ _ Hrun) as Hid.
  cbn [time_Now]. unfold executeWorkflowInternal.
  change (startNodesOf _ _) with (start_nodes execution w).
  change (DB_Save_WorkflowExecution (WorkflowExecution.set_running (clock w) execution) _)
    with (started execution w).
  destruct (decide (length (start_nodes execution w) = 0)) as [_|_].
  { intros [= <- <-]. left. by repeat split. }
  change (WorkflowExecution.InputData (WorkflowExecution.set_running _ _))
    with (WorkflowExecution.InputData execution).
  destruct (json_Unmarshal _) as [input|err] eqn:Hinput.
  2:{ intros [= <- <-]. left. by repeat split. }
  change (WorkflowExecution.ID (WorkflowExecution.set_running _ _))
    with (WorkflowExecution.ID execution).
  rewrite Hid.
  destruct (executeStartNodes _ _ _ _ _) as [[w2 context2] [[err|]|]] eqn:Hstart.
  - intros [= <- <-]. right. exists execution, input, w2, context2, (Returned (Some err)).
    repeat split; try done.
  - destruct (json_Marshal_Results _); intros [= <- <-]; right;
      exists execution, input, w2, context2, (Returned None); repeat split; try done.
  - intros [= <- <-]. right. exists execution, input, w2, context2, StackOverflow.
    by repeat split.
Qed.

Lemma elem_of_start_nodes execution w node :
  node ∈ start_nodes execution w
  ↔ node ∈ Preload_Workflow_Nodes execution w
    ∧ ∀ c, c ∈ Preload_Workflow_Connections execution w →
           Connection.TargetNodeID c ≠ Node.ID node.
Proof. apply elem_of_startNodesOf. Qed.

End WholeRun.

Lemma fresh_run_no_row (executionID : nat) (w : World) (r : NodeExecution.t) :
  fresh_run executionID w → r ∈ node_executions w →
  NodeExecution.WorkflowExecutionID r ≠ executionID.
Proof.
  unfold fresh_run, run_step_runs. intros Hfresh Hin Hrun.
  assert (Hr : r ∈ List.filter
                 (fun r => bool_decide (NodeExecution.WorkflowExecutionID r = executionID))
                 (node_executions w)).
  { apply elem_of_List_filter. split; [done|]. by apply bool_decide_eq_true. }
  rewrite Hfresh in Hr. inversion Hr.
Qed.

Section ReadinessOfARun.
Context `{Platform}.

(** C3: a node is not executed before the sources of its incoming
    connections have completed.  In the store that a Run leaves (however it
    ends), every step-run of the Run was started after, for each connection
    into its node, a step-run of the source of that connection had been
    completed in the same Run; for a node with two incoming connections
    from two distinct sources that is a completed step-run of each of
    them. *)
Theorem targets_wait_for_their_sources (depth executionID : nat)
    (execution : WorkflowExecution.t) (w w' : World) (how : Completion) :
  DB_First_WorkflowExecution executionID w = Some execution →
  connections_within_workflow execution w →
  fresh_run executionID w →
  ExecuteWorkflow depth executionID w = (w', how) →
  ∀ r, r ∈ node_executions w' →
       NodeExecution.WorkflowExecutionID r = executionID →
  ∀ c, c ∈ connections w →
       Connection.TargetNodeID c = NodeExecution.NodeID r →
       completed_before executionID w' (Connection.SourceNodeID c) r.
Proof.
  intros Hrun Hwithin Hfresh Hexec.
  assert (Hgoal : inputs_completed_first executionID w' ∧ connections w' = connections w).
  { apply ExecuteWorkflow_runs in Hexec
      as [(Hrows & Hconns & _) | (execution' & input & w2 & context2 & how2 & Hrun' & _
                                  & Hstart & Hrows & Hconns & _)].
    - split; [|done]. intros r Hr Hr_run. rewrite Hrows in Hr.
      by destruct (fresh_run_no_row _ _ _ Hfresh Hr).
    - rewrite Hrun in Hrun'. injection Hrun' as <-.
      pose proof (executeStartNodes_runs executionID depth (start_nodes execution w)
                    (started execution w) (NewExecutionContext input)) as Hruns.
      rewrite Hstart in Hruns.
      pose proof (run_start_nodes_same_graph executionID _ _ _ _ Hruns)
        as (_ & _ & _ & Hconns2). simpl in Hconns2.
      apply run_start_nodes_timely in Hruns as [_ Hfirst].
      + split; [|congruence].
        intros r Hr Hr_run c Hc Htarget. rewrite Hrows in Hr. rewrite Hconns in Hc.
        destruct (Hfirst r Hr Hr_run c Hc Htarget) as (r' & t & t' & Hr' & Hrest).
        exists r', t, t'. by rewrite Hrows.
      + split.
        * intros r Hr Hr_run. by destruct (fresh_run_no_row _ _ _ Hfresh Hr).
        * intros r Hr Hr_run. by destruct (fresh_run_no_row _ _ _ Hfresh Hr).
      + intros node c [Hnode Hsource]%elem_of_start_nodes Hc Htarget.
        destruct (Hwithin c Hc) as (Hc' & _).
        { right. rewrite Htarget. unfold workflow_node_ids.
          apply list_elem_of_fmap. by exists node. }
        by destruct (Hsource c Hc'). }
  destruct Hgoal as [Hfirst Hconns]. intros r Hr Hr_run c Hc. apply Hfirst; [done..|].
  by rewrite Hconns.
Qed.

End ReadinessOfARun.

(** ** A Run whose only node fails *)

Section FailingNode.
Context `{Platform}.

Lemma nodeStep_executor_fails (nodeID executionID : nat) (w : World)
    (context : ExecutionContext) (node : Node.t) (nodeType : NodeType.t)
    (executor : NodeExecutor) (config : gmap string Value) (result : Value) (err : error) :
  DB_First_Node nodeID w = Some node →
  DB_First_NodeType (Node.NodeType node) w = Some nodeType →
  LoadExecutor (NodeType.ExecutorClass nodeType) = inl executor →
  json_Unmarshal (Node.Config node) = inl config →
  Execute executor (S (clock w)) config (prepareNodeInput node executionID context w)
  = (result, Some err) →
  ∃ row,
    nodeStep nodeID executionID w context = (appended w [row] 2, context, Some err)
    ∧ NodeExecution.WorkflowExecutionID row = executionID
    ∧ NodeExecution.NodeID row = nodeID
    ∧ NodeExecution.Status row = "failed"
    ∧ NodeExecution.ErrorMessage row = "execution failed: " +:+ err.
Proof.
  intros Hnode Htype Hload Hconfig Hexec.
  unfold nodeStep. rewrite Hnode, Htype. cbn [time_Now DB_Create_NodeExecution].
  set (row0 := NodeExecution.set_ID _ _).
  change (with_node_executions _ _) with (appended w [row0] 1).
  change (prepareNodeInput node executionID context (appended w [row0] 1))
    with (prepareNodeInput node executionID context w).
  rewrite (DB_Save_appended w row0) by done.
  set (row1 := NodeExecution.set_InputData _ row0).
  rewrite Hload, Hconfig.
  change (clock (appended w [row1] 1)) with (S (clock w)). rewrite Hexec.
  cbn [time_Now]. change (mkWorld _ _ _ _ _ _ _) with (appended w [row1] 2).
  rewrite (DB_Save_appended w row1) by done.
  eexists. split; [reflexivity|]. by repeat split.
Qed.

Lemma run_step_runs_appended (executionID : nat) (w : World) (row : NodeExecution.t)
    (ticks : nat) :
  fresh_run executionID w →
  NodeExecution.WorkflowExecutionID row = executionID →
  run_step_runs executionID (appended w [row] ticks) = [row].
Proof.
  unfold fresh_run, run_step_runs. intros Hfresh Hrow. simpl.
  rewrite List.filter_app, Hfresh. simpl. by rewrite bool_decide_true.
Qed.

(** The errors of the built-in executors have a text. *)
Lemma builtin_error_has_a_text (executorClass : string) (executor : NodeExecutor)
    (now : nat) (config input : gmap string Value) (result : Value) (err : error) :
  executorClass ∈ ["httpRequest"; "filter"; "transform"] →
  LoadExecutor executorClass = inl executor →
  Execute executor now config input = (result, Some err) →
  err ≠ "".
Proof.
  intros Hclass Hload Hexec. unfold LoadExecutor in Hload.
  rewrite !elem_of_cons in Hclass.
  destruct Hclass as [->|[->|[->|Hclass]]]; [| | |by apply elem_of_nil in Hclass];
    simpl in Hload; injection Hload as <-.
  - unfold HttpRequestExecutor in Hexec. cbn [Execute] in Hexec.
    unfold HttpRequestExecutor_Execute in Hexec.
    destruct (config !! "url") as [[| | | |url| |]|]; try by injection Hexec as _ <-.
    destruct (http_round_trip _ _ _ _) as [[statusCode data]|[failure cause]];
      [done|].
    injection Hexec as _ <-. by destruct failure.
  - unfold FilterExecutor in Hexec. cbn [Execute] in Hexec.
    unfold FilterExecutor_Execute in Hexec. done.
  - unfold TransformExecutor in Hexec. cbn [Execute] in Hexec.
    unfold TransformExecutor_Execute in Hexec.
    destruct (config !! "mapping"); [done|]. by injection Hexec as _ <-.
Qed.

(** C6: a Run, so far without step-runs, of a workflow with exactly one node
    whose executor returns an error.  The Run ends with the status failed and
    with the text of that error as its error text, and the Run has exactly one
    step-run, with the status failed and the text of the error behind
    ["execution failed: "].  The error text of the Run is not empty when the
    executor is one of the built-in ones; the text of the error of a plugin
    is the plugin's choice. *)
Theorem single_failing_node_fails_the_run (depth executionID : nat)
    (execution : WorkflowExecution.t) (w : World) (node node' : Node.t)
    (nodeType : NodeType.t) (executor : NodeExecutor)
    (input config : gmap string Value) (result : Value) (err : error) :
  DB_First_WorkflowExecution executionID w = Some execution →
  fresh_run executionID w →
  Preload_Workflow_Nodes execution w = [node] →
  (∀ c, c ∈ Preload_Workflow_Connections execution w →
        Connection.TargetNodeID c ≠ Node.ID node) →
  json_Unmarshal (WorkflowExecution.InputData execution) = inl input →
  DB_First_Node (Node.ID node) w = Some node' →
  DB_First_NodeType (Node.NodeType node') w = Some nodeType →
  LoadExecutor (NodeType.ExecutorClass nodeType) = inl executor →
  json_Unmarshal (Node.Config node') = inl config →
  Execute executor (2 + clock w) config
          (prepareNodeInput node' executionID (NewExecutionContext input) w)
  = (result, Some err) →
  1 ≤ depth →
  ∃ w' run row,
    ExecuteWorkflow depth executionID w = (w', Returned (Some err))
    ∧ DB_First_WorkflowExecution executionID w' = Some run
    ∧ WorkflowExecution.Status run = "failed"
    ∧ WorkflowExecution.ErrorMessage run = err
    ∧ (NodeType.ExecutorClass nodeType ∈ ["httpRequest"; "filter"; "transform"] →
       WorkflowExecution.ErrorMessage run ≠ "")
    ∧ run_step_runs executionID w' = [row]
    ∧ NodeExecution.NodeID row = Node.ID node
    ∧ NodeExecution.Status row = "failed"
    ∧ NodeExecution.ErrorMessage row = "execution failed: " +:+ err.
Proof.
  intros Hrun Hfresh Hnodes Hsource Hinput Hnode Htype Hload Hconfig Hexec Hdepth.
  pose proof (First_WorkflowExecution_ID _ _ _ Hrun) as Hid.
  destruct depth as [|depth]; [lia|].
  destruct (nodeStep_executor_fails (Node.ID node) executionID (started execution w)
              (NewExecutionContext input) node' nodeType executor config result err)
    as (row & Hstep & Hrow_run & Hrow_node & Hrow_status & Hrow_error); try done.
  unfold ExecuteWorkflow. rewrite Hrun. cbn [time_Now]. unfold executeWorkflowInternal.
  change (startNodesOf _ _) with (start_nodes execution w).
  change (DB_Save_WorkflowExecution (WorkflowExecution.set_running (clock w) execution) _)
    with (started execution w).
  assert (Hstart : start_nodes execution w = [node]).
  { unfold start_nodes. rewrite Hnodes. simpl.
    destruct (existsb _ _) eqn:Hex; [|done].
    apply existsb_exists in Hex as (c & Hc & Ht). apply bool_decide_eq_true in Ht.
    apply list_elem_of_In in Hc. by destruct (Hsource c). }
  rewrite Hstart. simpl length. destruct (decide (1 = 0)) as [|_]; [done|].
  change (WorkflowExecution.InputData (WorkflowExecution.set_running _ _))
    with (WorkflowExecution.InputData execution).
  rewrite Hinput.
  change (WorkflowExecution.ID (WorkflowExecution.set_running _ _))
    with (WorkflowExecution.ID execution).
  rewrite Hid. cbn [executeStartNodes]. rewrite executeNode_unfold, Hstep.
  cbn [time_Now].
  eexists _, _, row. split; [reflexivity|]. split.
  { unfold DB_First_WorkflowExecution. simpl.
    eapply find_after_Save; [|exact Hid..].
    eapply find_after_Save; [exact Hrun | exact Hid..]. }
  split; [reflexivity|]. split; [reflexivity|].
  split; [intros Hclass; by eapply builtin_error_has_a_text|].
  split; [|by split].
  change (run_step_runs executionID _)
    with (run_step_runs executionID (appended w [row] 0)).
  by apply run_step_runs_appended.
Qed.

End FailingNode.

(** ** The workflow graph *)

Lemma tc_last_step {A} (R : relation A) (x y : A) : tc R x y → ∃ z, R z y.
Proof. induction 1; eauto. Qed.

Lemma tc_first_step {A} (R : relation A) (x y : A) : tc R x y → ∃ z, R x z.
Proof. destruct 1; eauto. Qed.

Section GraphProperties.
Variables (execution : WorkflowExecution.t) (w : World).

Lemma workflow_connection_in_store c :
  c ∈ Preload_Workflow_Connections execution w → c ∈ connections w.
Proof.
  unfold Preload_Workflow_Connections. destruct (Preload_Workflow _ _); [|inversion 1].
  by intros [? _]%elem_of_List_filter.
Qed.

Lemma edge_source_bound (stack : list nat) :
  NoDup stack →
  (∀ x, x ∈ stack →
        ∃ c, c ∈ Preload_Workflow_Connections execution w
             ∧ Connection.SourceNodeID c = x) →
  length stack ≤ length (Preload_Workflow_Connections execution w).
Proof.
  intros Hnodup Hsources.
  rewrite <- (length_fmap Connection.SourceNodeID (Preload_Workflow_Connections execution w)).
  apply submseteq_length, NoDup_submseteq; [done|].
  intros x (c & Hc & <-)%Hsources. apply list_elem_of_fmap. by exists c.
Qed.

Lemma edge_target_bound (stack : list nat) :
  NoDup stack →
  (∀ x, x ∈ stack →
        ∃ c, c ∈ Preload_Workflow_Connections execution w
             ∧ Connection.TargetNodeID c = x) →
  length stack ≤ length (Preload_Workflow_Connections execution w).
Proof.
  intros Hnodup Htargets.
  rewrite <- (length_fmap Connection.TargetNodeID (Preload_Workflow_Connections execution w)).
  apply submseteq_length, NoDup_submseteq; [done|].
  intros x (c & Hc & <-)%Htargets. apply list_elem_of_fmap. by exists c.
Qed.

Hypothesis no_cycle : acyclic execution w.

(** Induction along the connections of an acyclic graph: what holds of a
    node as soon as it holds of the sources of its incoming connections
    holds of every node.  The chain of nodes passed on the way back from a
    node never repeats a node, so it is not longer than the list of
    connections. *)
Lemma acyclic_chain (P : nat → Prop) :
  (∀ n, (∀ p, edge execution w p n → P p) → P n) →
  ∀ k stack n,
    NoDup stack →
    (∀ x, x ∈ stack → tc (edge execution w) n x) →
    length (Preload_Workflow_Connections execution w) < k + length stack →
    P n.
Proof.
  intros Hstep. induction k as [|k IH]; intros stack n Hnodup Hchain Hlen.
  - exfalso. assert (length stack ≤ length (Preload_Workflow_Connections execution w));
      [|simpl in Hlen; lia].
    apply edge_target_bound; [done|]. intros x Hx.
    apply Hchain, tc_last_step in Hx as (y & c & Hc & _ & Ht). eauto.
  - apply Hstep. intros p Hedge. apply (IH (n :: stack)).
    + constructor; [|done]. intros Hin. by apply (no_cycle n), Hchain.
    + intros x [->|Hx]%elem_of_cons; [by apply tc_once|].
      eapply tc_l; [exact Hedge|]. by apply Hchain.
    + simpl. lia.
Qed.

Lemma acyclic_induction (P : nat → Prop) :
  (∀ n, (∀ p, edge execution w p n → P p) → P n) → ∀ n, P n.
Proof.
  intros Hstep n.
  apply (acyclic_chain P Hstep (S (length (Preload_Workflow_Connections execution w))) []).
  - constructor.
  - intros x Hx. inversion Hx.
  - simpl. lia.
Qed.

End GraphProperties.

(** ** Which nodes a Run executes *)

Section Traversal.
Context `{Platform}.
Variables (executionID : nat) (execution : WorkflowExecution.t) (w0 : World).
Hypothesis within : connections_within_workflow execution w0.

Lemma edge_forward a b :
  edge execution w0 a b → a ∈ workflow_node_ids execution w0 →
  b ∈ workflow_node_ids execution w0.
Proof.
  intros (c & Hc & <- & <-) Ha.
  apply workflow_connection_in_store in Hc. destruct (within c Hc) as (_ & _ & Hb); auto.
Qed.

Lemma edge_backward a b :
  edge execution w0 a b → b ∈ workflow_node_ids execution w0 →
  a ∈ workflow_node_ids execution w0.
Proof.
  intros (c & Hc & <- & <-) Hb.
  apply workflow_connection_in_store in Hc. destruct (within c Hc) as (_ & Ha & _); auto.
Qed.

Lemma reachable_in_workflow n :
  reachable execution w0 n → n ∈ workflow_node_ids execution w0.
Proof.
  intros (s & [Hs _] & Hpath). induction Hpath as [|a b c Hedge _ IH]; [done|].
  apply IH. by eapply edge_forward.
Qed.

Lemma reachable_step a b :
  reachable execution w0 a → edge execution w0 a b → reachable execution w0 b.
Proof. intros (s & Hs & Hpath) Hedge. exists s. split; [done|]. by eapply rtc_r. Qed.

(** The connections that the loop of [executeNode] follows from a node of
    the workflow are connections of the workflow. *)
Lemma outgoing_is_edge w n conn :
  same_graph w0 w → n ∈ workflow_node_ids execution w0 →
  conn ∈ DB_Find_Connections_by_source n w →
  edge execution w0 n (Connection.TargetNodeID conn).
Proof.
  intros (_ & _ & _ & Hconns) Hn [Hconn Hsource]%elem_of_List_filter.
  apply bool_decide_eq_true in Hsource. rewrite Hconns in Hconn.
  destruct (within conn Hconn) as (Hc & _); [left; by rewrite Hsource|].
  by exists conn.
Qed.

Lemma outgoing_in_workflow w n conn :
  same_graph w0 w → n ∈ workflow_node_ids execution w0 →
  conn ∈ DB_Find_Connections_by_source n w →
  conn ∈ Preload_Workflow_Connections execution w0 ∧ Connection.SourceNodeID conn = n.
Proof.
  intros (_ & _ & _ & Hconns) Hn [Hconn Hsource]%elem_of_List_filter.
  apply bool_decide_eq_true in Hsource. rewrite Hconns in Hconn.
  destruct (within conn Hconn) as (Hc & _); [left; by rewrite Hsource|]. done.
Qed.

Lemma incoming_is_edge conn :
  conn ∈ connections w0 →
  Connection.TargetNodeID conn ∈ workflow_node_ids execution w0 →
  edge execution w0 (Connection.SourceNodeID conn) (Connection.TargetNodeID conn).
Proof.
  intros Hconn Ht. destruct (within conn Hconn) as (Hc & _); [by right|]. by exists conn.
Qed.

Lemma start_node_is_source node :
  node ∈ start_nodes execution w0 → source_node execution w0 (Node.ID node).
Proof.
  intros [Hnode Hsource]%elem_of_start_nodes. split; [|done].
  apply list_elem_of_fmap. by exists node.
Qed.

Lemma start_node_reachable node :
  node ∈ start_nodes execution w0 → reachable execution w0 (Node.ID node).
Proof. intros Hnode. exists (Node.ID node). split; [by apply start_node_is_source|done]. Qed.

(** *** Only reachable nodes are executed *)

Local Abbreviation only_reachable := (only_reachable executionID execution w0).

Lemma nodeStep_only_reachable n w context w1 context1 err :
  only_reachable w → reachable execution w0 n →
  nodeStep n executionID w context = (w1, context1, err) → only_reachable w1.
Proof.
  intros [Hgraph Hrows] Hn Hstep. split.
  { eapply same_graph_trans; [exact Hgraph|]. by eapply nodeStep_same_graph. }
  pose proof (nodeStep_spec n executionID w context) as Hcases.
  rewrite Hstep in Hcases.
  inversion Hcases as [|row e ticks Hrun Hnode Hstart Hstatus Hticks
                       |row result Hrun Hnode Hstart Hstatus Hdone]; subst_outcome.
  - done.
  - intros r [Hr|Hr]%elem_of_appended Hr_run; [by apply Hrows|].
    apply list_elem_of_singleton in Hr as ->. done.
  - intros r [Hr|Hr]%elem_of_appended Hr_run; [by apply Hrows|].
    apply list_elem_of_singleton in Hr as ->. done.
Qed.

Lemma run_start_nodes_only_reachable w context out :
  run_start_nodes executionID (start_nodes execution w0) w context out →
  only_reachable w → only_reachable out.1.1.
Proof.
  intros Hrun Hinv.
  apply (run_start_nodes_keeps executionID only_reachable
           (fun n _ => reachable execution w0 n)) with (3 := Hrun); [| |done|].
  - intros n w1 context1 w2 context2 err. apply nodeStep_only_reachable.
  - intros n w1 context1 w2 context2 conn w3 [Hgraph _] Hn Hstep Hconn _ _.
    apply (reachable_step n); [done|].
    apply (outgoing_is_edge w2); [|by apply reachable_in_workflow|done].
    eapply same_graph_trans; [exact Hgraph|]. by eapply nodeStep_same_graph.
  - intros node _ Hnode _. by apply start_node_reachable.
Qed.

(** *** The recursion ends *)

Lemma executeSuccessors_returns (exec : nat → World → ExecutionContext → Outcome)
    (conns : list Connection.t) :
  (∀ n w context, run_node executionID n w context (exec n w context)) →
  (∀ conn w context, conn ∈ conns → same_graph w0 w →
                     (exec (Connection.TargetNodeID conn) w context).2 ≠ StackOverflow) →
  ∀ w context, same_graph w0 w →
               (executeSuccessors exec conns executionID w context).2 ≠ StackOverflow.
Proof.
  intros Hruns. induction conns as [|conn conns IH]; intros Hexec w context Hgraph; simpl.
  - done.
  - assert (Hrest : ∀ c w' context', c ∈ conns → same_graph w0 w' →
                      (exec (Connection.TargetNodeID c) w' context').2 ≠ StackOverflow).
    { intros c w' context' Hc. apply Hexec. by right. }
    destruct (allInputsReady _ _ w); [|by apply IH].
    pose proof (Hexec conn w context (list_elem_of_here _ _) Hgraph) as Hcall.
    pose proof (Hruns (Connection.TargetNodeID conn) w context) as Hrun.
    destruct (exec _ w context) as [[w1 context1] [[err|]|]]; simpl in *; [done| |done].
    apply IH; [done|].
    eapply same_graph_trans; [exact Hgraph|].
    by apply (run_node_same_graph executionID _ _ _ _ Hrun).
Qed.

Hypothesis no_cycle : acyclic execution w0.

(** A call of [executeNode] for a node of the workflow does not overflow
    when the stack has room for the nodes still ahead: the nodes on the
    stack are distinct and each of them is the source of a connection. *)
Lemma executeNode_returns (depth : nat) :
  ∀ stack n w context,
    same_graph w0 w →
    n ∈ workflow_node_ids execution w0 →
    NoDup stack →
    (∀ x, x ∈ stack → tc (edge execution w0) x n) →
    length (Preload_Workflow_Connections execution w0) < depth + length stack →
    (executeNode depth n executionID w context).2 ≠ StackOverflow.
Proof.
  induction depth as [|depth IH]; intros stack n w context Hgraph Hn Hnodup Hchain Hlen.
  - exfalso.
    assert (length stack ≤ length (Preload_Workflow_Connections execution w0));
      [|simpl in Hlen; lia].
    apply edge_source_bound; [done|]. intros x Hx.
    apply Hchain, tc_first_step in Hx as (y & c & Hc & Hs & _). eauto.
  - rewrite executeNode_unfold.
    destruct (nodeStep n executionID w context) as [[w1 context1] [err|]] eqn:Hstep;
      [done|].
    assert (Hgraph1 : same_graph w0 w1).
    { eapply same_graph_trans; [exact Hgraph|]. by eapply nodeStep_same_graph. }
    apply executeSuccessors_returns; [|  |done].
    { intros. apply executeNode_runs. }
    intros conn w2 context2 Hconn Hgraph2.
    pose proof (outgoing_is_edge w1 n conn Hgraph1 Hn Hconn) as Hedge.
    apply (IH (n :: stack)); [done| | | |simpl; lia].
    + by eapply edge_forward.
    + constructor; [|done]. intros Hin. by apply (no_cycle n), Hchain.
    + intros x [->|Hx]%elem_of_cons; [by apply tc_once|].
      eapply tc_r; [|exact Hedge]. by apply Hchain.
Qed.

Lemma executeStartNodes_returns (depth : nat) (startNodes : list Node.t) :
  length (Preload_Workflow_Connections execution w0) < depth →
  (∀ node, node ∈ startNodes → Node.ID node ∈ workflow_node_ids execution w0) →
  ∀ w context, same_graph w0 w →
    (executeStartNodes depth startNodes executionID w context).2 ≠ StackOverflow.
Proof.
  intros Hdepth. induction startNodes as [|node startNodes IH];
    intros Hnodes w context Hgraph; simpl; [done|].
  pose proof (executeNode_returns depth [] (Node.ID node) w context Hgraph) as Hcall.
  pose proof (executeNode_runs executionID depth (Node.ID node) w context) as Hrun.
  destruct (executeNode _ _ _ w context) as [[w1 context1] [[err|]|]]; simpl in *.
  - done.
  - apply IH.
    + intros n Hin. apply Hnodes. by right.
    + eapply same_graph_trans; [exact Hgraph|].
      by apply (run_node_same_graph executionID _ _ _ _ Hrun).
  - apply Hcall.
    + apply Hnodes. left.
    + constructor.
    + intros x Hx. inversion Hx.
    + lia.
Qed.

End Traversal.

(** ** Every ready node gets executed *)

Lemma forallb_false_elem {A} (p : A → bool) (l : list A) :
  forallb p l = false → ∃ x, x ∈ l ∧ p x = false.
Proof.
  induction l as [|x l IH]; simpl; [discriminate|].
  destruct (p x) eqn:Hpx; simpl.
  - intros (y & Hy & Hpy)%IH. exists y. split; [by right|done].
  - intros _. exists x. split; [left|done].
Qed.

Lemma allInputsReady_false (nodeID executionID : nat) (w : World) :
  allInputsReady nodeID executionID w = false →
  ∃ c, c ∈ connections w ∧ Connection.TargetNodeID c = nodeID
       ∧ ¬ completed executionID (Connection.SourceNodeID c) w.
Proof.
  unfold allInputsReady. intros (c & Hc & Hnone)%forallb_false_elem.
  apply elem_of_List_filter in Hc as [Hc Ht]. apply bool_decide_eq_true in Ht.
  exists c. split; [done|]. split; [done|]. unfold completed.
  destruct (DB_First_NodeExecution _ _ _ _); [done|]. by intros [? ?].
Qed.

Lemma completed_appended (executionID nodeID : nat) (w : World) (row : NodeExecution.t)
    (ticks : nat) :
  completed executionID nodeID (appended w [row] ticks)
  ↔ completed executionID nodeID w
    ∨ (NodeExecution.WorkflowExecutionID row = executionID
       ∧ NodeExecution.NodeID row = nodeID
       ∧ NodeExecution.Status row = "completed").
Proof.
  rewrite !completed_iff. split.
  - intros (r & [Hr|Hr]%elem_of_appended & Hrest); [left; eauto|].
    apply list_elem_of_singleton in Hr as ->. by right.
  - intros [(r & Hr & Hrest)|Hrow].
    + exists r. split; [|done]. apply elem_of_appended. by left.
    + exists row. split; [|done]. apply elem_of_appended. right. apply list_elem_of_here.
Qed.

Section Progress.
Context `{Platform}.
Variable executionID : nat.
Local Abbreviation follows := (follows executionID).

Lemma follows_refl w : follows w w.
Proof. split; [by repeat split|]. split; [done|]. intros n ->. discriminate. Qed.

Lemma allInputsReady_mono w w' n :
  same_graph w w' →
  (∀ m, completed executionID m w → completed executionID m w') →
  allInputsReady n executionID w = true → allInputsReady n executionID w' = true.
Proof.
  intros (_ & _ & _ & Hconns) Hgrows. rewrite !allInputsReady_spec.
  intros Hready c Hc Ht. rewrite Hconns in Hc. by apply Hgrows, Hready.
Qed.

Lemma follows_trans w w1 w2 : follows w w1 → follows w1 w2 → follows w w2.
Proof.
  intros (Hg1 & Hgrow1 & Hnew1) (Hg2 & Hgrow2 & Hnew2).
  split; [by eapply same_graph_trans|]. split; [auto|].
  intros n Hready2 Hnot.
  destruct (allInputsReady n executionID w1) eqn:Hready1; [|by apply Hnew2].
  by apply Hgrow2, Hnew1.
Qed.

Lemma run_node_follows nodeID w context out :
  run_node executionID nodeID w context out →
  ∀ w' context', out = (w', context', Returned None) →
                 follows w w' ∧ completed executionID nodeID w'.
Proof.
  revert nodeID w context out.
  apply (run_node_mut _ executionID
           (fun nodeID w context out =>
              ∀ w' context', out = (w', context', Returned None) →
                             follows w w' ∧ completed executionID nodeID w')
           (fun conns w context out =>
              ∀ w' context', out = (w', context', Returned None) →
                follows w w'
                ∧ ∀ conn, conn ∈ conns →
                    allInputsReady (Connection.TargetNodeID conn) executionID w = true →
                    completed executionID (Connection.TargetNodeID conn) w')).
  - intros nodeID w context w' context' [=].
  - intros nodeID w context w1 context1 err _ w' context' [=].
  - intros nodeID w context w1 context1 out Hstep _ IH w' context' ->.
    destruct (IH w' context' eq_refl) as [(Hg & Hgrow & Hnew) Hloop].
    pose proof (nodeStep_spec nodeID executionID w context) as Hcases.
    rewrite Hstep in Hcases.
    inversion Hcases as [| |row result Hrun Hnode Hstart Hstatus Hdone]; subst_outcome.
    assert (Hown : completed executionID (NodeExecution.NodeID row) (appended w [row] 2)).
    { apply completed_appended. by right. }
    split; [|by apply Hgrow]. split; [|split].
    + eapply same_graph_trans; [|exact Hg]. by repeat split.
    + intros n Hn. apply Hgrow, completed_appended. by left.
    + intros n Hready' Hnot.
      destruct (allInputsReady n executionID (appended w [row] 2)) eqn:Hready1;
        [|by apply Hnew].
      destruct (allInputsReady_false _ _ _ Hnot) as (c & Hc & Ht & Hc_not).
      apply allInputsReady_spec in Hready1.
      pose proof (Hready1 c Hc Ht) as Hc_done.
      apply completed_appended in Hc_done as [?|(_ & Hsource & _)]; [done|].
      rewrite <- Ht. apply Hloop.
      * apply elem_of_List_filter. split; [done|]. by apply bool_decide_eq_true.
      * apply allInputsReady_spec. by rewrite Ht.
  - intros w context w' context' [= <- <-]. split; [apply follows_refl|].
    intros conn Hconn. inversion Hconn.
  - intros conn conns w context out Hnot _ IH w' context' ->.
    destruct (IH w' context' eq_refl) as [Hfollows Hloop]. split; [done|].
    intros c [->|Hc]%elem_of_cons Hready; [congruence|by apply Hloop].
  - intros conn conns w context w1 context1 out Hready _ IHnode _ IH w' context' ->.
    destruct (IHnode w1 context1 eq_refl) as [Hfollows1 Hdone].
    destruct (IH w' context' eq_refl) as [Hfollows2 Hloop].
    split; [by eapply follows_trans|].
    destruct Hfollows1 as (Hg1 & Hgrow1 & _). destruct Hfollows2 as (_ & Hgrow2 & _).
    intros c [->|Hc]%elem_of_cons Hc_ready; [by apply Hgrow2|].
    apply Hloop; [done|]. by eapply allInputsReady_mono.
  - intros conn conns w context w1 context1 how _ _ _ Hhow w' context' [= <- <- ->].
    done.
Qed.

Lemma run_start_nodes_follows startNodes w context out :
  run_start_nodes executionID startNodes w context out →
  ∀ w' context', out = (w', context', Returned None) →
    follows w w'
    ∧ ∀ node, node ∈ startNodes → completed executionID (Node.ID node) w'.
Proof.
  induction 1 as [w context
                 |node startNodes w context w1 context1 out Hnode _ IH
                 |node startNodes w context w1 context1 how Hnode Hhow];
    intros w' context' Hout.
  - injection Hout as <- <-. split; [apply follows_refl|]. intros node Hn. inversion Hn.
  - destruct (run_node_follows _ _ _ _ Hnode w1 context1 eq_refl) as [Hfollows1 Hdone].
    destruct (IH w' context' Hout) as [Hfollows2 Hrest].
    split; [by eapply follows_trans|].
    intros n [->|Hn]%elem_of_cons; [|by apply Hrest].
    destruct Hfollows2 as (_ & Hgrow & _). by apply Hgrow.
  - injection Hout as <- <- ->. done.
Qed.

End Progress.

(** ** Reachable nodes and step-runs *)

Lemma elem_of_step_runs (executionID nodeID : nat) (w : World) (r : NodeExecution.t) :
  r ∈ step_runs executionID nodeID w
  ↔ r ∈ node_executions w
    ∧ NodeExecution.WorkflowExecutionID r = executionID
    ∧ NodeExecution.NodeID r = nodeID.
Proof.
  unfold step_runs. rewrite elem_of_List_filter, andb_true_iff, !bool_decide_eq_true.
  tauto.
Qed.

Lemma fresh_run_not_completed (executionID nodeID : nat) (w : World) :
  fresh_run executionID w → ¬ completed executionID nodeID w.
Proof.
  intros Hfresh (r & Hr & Hrun & _)%completed_iff.
  by destruct (fresh_run_no_row _ _ _ Hfresh Hr).
Qed.

Section ReachableNodes.
Context `{Platform}.
Variables (executionID : nat) (execution : WorkflowExecution.t) (w : World).
Hypothesis within : connections_within_workflow execution w.
Hypothesis no_cycle : acyclic execution w.
Hypothesis fresh : fresh_run executionID w.

(** When the start nodes have run without an error, every node of the
    workflow has a completed step-run. *)
Lemma all_nodes_completed (w1 w2 : World) :
  same_graph w w1 → node_executions w1 = node_executions w →
  follows executionID w1 w2 →
  (∀ node, node ∈ start_nodes execution w → completed executionID (Node.ID node) w2) →
  ∀ n, n ∈ workflow_node_ids execution w → completed executionID n w2.
Proof.
  intros Hgraph Hrows (Hgraph2 & Hgrow & Hnew) Hstart.
  assert (Hconns1 : connections w1 = connections w) by apply Hgraph.
  assert (Hconns2 : connections w2 = connections w).
  { destruct Hgraph2 as (_ & _ & _ & ->). done. }
  apply (acyclic_induction execution w no_cycle
           (fun n => n ∈ workflow_node_ids execution w → completed executionID n w2)).
  intros n IH Hn.
  destruct (existsb (fun conn => bool_decide (Connection.TargetNodeID conn = n))
                    (Preload_Workflow_Connections execution w)) eqn:Hincoming.
  - apply existsb_exists in Hincoming as (c & Hc & Ht).
    apply bool_decide_eq_true in Ht. apply list_elem_of_In in Hc. apply Hnew.
    + apply allInputsReady_spec. intros c' Hc' Ht'. rewrite Hconns2 in Hc'.
      assert (Hedge : edge execution w (Connection.SourceNodeID c')
                           (Connection.TargetNodeID c')).
      { apply incoming_is_edge; [done..|]. by rewrite Ht'. }
      rewrite Ht' in Hedge. apply IH; [done|]. by eapply edge_backward.
    + destruct (allInputsReady n executionID w1) eqn:Hready; [|done].
      apply allInputsReady_spec in Hready.
      apply workflow_connection_in_store in Hc. rewrite <- Hconns1 in Hc.
      pose proof (Hready c Hc Ht) as Hdone. exfalso.
      apply (fresh_run_not_completed executionID (Connection.SourceNodeID c) w fresh).
      apply completed_iff in Hdone as (r & Hr & Hrest). apply completed_iff.
      exists r. by rewrite <- Hrows.
  - apply list_elem_of_fmap in Hn as (node & -> & Hnode).
    apply Hstart, elem_of_start_nodes. split; [done|].
    intros c Hc Ht.
    pose proof (existsb_false_elem _ _ c Hincoming Hc) as Hfalse. simpl in Hfalse.
    by rewrite bool_decide_true in Hfalse.
Qed.

End ReachableNodes.

(** ** When a node is executed once only *)

Lemma step_runs_appended (executionID nodeID : nat) (w : World) (row : NodeExecution.t)
    (ticks : nat) :
  step_runs executionID nodeID (appended w [row] ticks)
  = step_runs executionID nodeID w
    ++ (if decide (NodeExecution.WorkflowExecutionID row = executionID
                   ∧ NodeExecution.NodeID row = nodeID) then [row] else []).
Proof.
  unfold step_runs. simpl. rewrite List.filter_app. f_equal. simpl.
  destruct (decide _) as [[-> ->]|Hno].
  - by rewrite !bool_decide_true.
  - destruct (bool_decide (NodeExecution.WorkflowExecutionID row = executionID)) eqn:H1;
      destruct (bool_decide (NodeExecution.NodeID row = nodeID)) eqn:H2; try done.
    apply bool_decide_eq_true in H1, H2. by destruct Hno.
Qed.

Section Once.
Context `{Platform}.
Variables (executionID : nat) (execution : WorkflowExecution.t) (w0 : World).
Hypothesis within : connections_within_workflow execution w0.
Local Abbreviation fed_from := (fed_from execution w0).
Local Abbreviation at_most_once := (at_most_once executionID w0).

Lemma nodeStep_other_runs n w context w1 context1 err m :
  nodeStep n executionID w context = (w1, context1, err) → m ≠ n →
  step_runs executionID m w1 = step_runs executionID m w.
Proof.
  intros Hstep Hm. pose proof (nodeStep_spec n executionID w context) as Hcases.
  rewrite Hstep in Hcases.
  inversion Hcases as [|row e ticks Hrun Hnode Hstart Hstatus Hticks
                       |row result Hrun Hnode Hstart Hstatus Hdone]; subst_outcome; [done| |].
  - rewrite step_runs_appended, decide_False, app_nil_r; [done|]. by intros [_ ?].
  - rewrite step_runs_appended, decide_False, app_nil_r; [done|]. by intros [_ ?].
Qed.

Lemma fed_from_target p conn :
  conn ∈ Preload_Workflow_Connections execution w0 →
  Connection.SourceNodeID conn = p → fed_from p (Connection.TargetNodeID conn).
Proof. intros Hconn <-. by exists conn. Qed.

Lemma fed_from_step p conn m :
  conn ∈ Preload_Workflow_Connections execution w0 →
  Connection.SourceNodeID conn = p →
  fed_from (Connection.TargetNodeID conn) m → fed_from p m.
Proof.
  intros Hconn Hp (c & Hc & Ht & Hpath). exists c. split; [done|]. split; [done|].
  eapply rtc_l; [|exact Hpath]. by exists conn.
Qed.

(** A call of [executeNode] for [n] adds step-runs only for [n] and for
    nodes fed from [n]. *)
Lemma run_node_other_runs n w context out :
  run_node executionID n w context out →
  same_graph w0 w → n ∈ workflow_node_ids execution w0 →
  ∀ m, m ≠ n → ¬ fed_from n m →
       step_runs executionID m out.1.1 = step_runs executionID m w.
Proof.
  revert n w context out.
  apply (run_node_mut _ executionID
           (fun n w context out =>
              same_graph w0 w → n ∈ workflow_node_ids execution w0 →
              ∀ m, m ≠ n → ¬ fed_from n m →
                   step_runs executionID m out.1.1 = step_runs executionID m w)
           (fun conns w context out =>
              same_graph w0 w →
              ∀ p, p ∈ workflow_node_ids execution w0 →
                   (∀ conn, conn ∈ conns →
                            conn ∈ Preload_Workflow_Connections execution w0
                            ∧ Connection.SourceNodeID conn = p) →
              ∀ m, ¬ fed_from p m →
                   step_runs executionID m out.1.1 = step_runs executionID m w)); simpl.
  - done.
  - intros n w context w1 context1 err Hstep _ _ m Hm _.
    by eapply nodeStep_other_runs.
  - intros n w context w1 context1 out Hstep _ IH Hgraph Hn m Hm Hfed.
    assert (Hgraph1 : same_graph w0 w1).
    { eapply same_graph_trans; [exact Hgraph|]. by eapply nodeStep_same_graph. }
    rewrite (IH Hgraph1 n Hn); [by eapply nodeStep_other_runs| |done].
    intros conn Hconn. by eapply outgoing_in_workflow.
  - done.
  - intros conn conns w context out _ _ IH Hgraph p Hp Hconns m Hfed.
    apply (IH Hgraph p Hp); [|done]. intros c Hc. apply Hconns. by right.
  - intros conn conns w context w1 context1 out _ Hnode IHnode _ IH Hgraph p Hp Hconns
           m Hfed.
    destruct (Hconns conn (list_elem_of_here _ _)) as [Hconn Hsource].
    assert (Ht : Connection.TargetNodeID conn ∈ workflow_node_ids execution w0).
    { apply (edge_forward execution w0 within p); [by exists conn|done]. }
    assert (Hgraph1 : same_graph w0 w1).
    { eapply same_graph_trans; [exact Hgraph|].
      by apply (run_node_same_graph executionID _ _ _ _ Hnode). }
    rewrite (IH Hgraph1 p Hp); [| |done].
    + apply (IHnode Hgraph Ht).
      * intros ->. by apply Hfed, fed_from_target.
      * intros Hfed'. by eapply Hfed, fed_from_step.
    + intros c Hc. apply Hconns. by right.
  - intros conn conns w context w1 context1 how _ Hnode IHnode _ Hgraph p Hp Hconns
           m Hfed.
    destruct (Hconns conn (list_elem_of_here _ _)) as [Hconn Hsource].
    assert (Ht : Connection.TargetNodeID conn ∈ workflow_node_ids execution w0).
    { apply (edge_forward execution w0 within p); [by exists conn|done]. }
    apply (IHnode Hgraph Ht).
    + intros ->. by apply Hfed, fed_from_target.
    + intros Hfed'. by eapply Hfed, fed_from_step.
Qed.

Hypothesis no_cycle : acyclic execution w0.

Hypothesis direct : no_shortcut execution w0.
Hypothesis distinct_connections : NoDup (connections w0).

Lemma nodeStep_at_most_once n w context w1 context1 err :
  at_most_once w → ready executionID n w → step_runs executionID n w = [] →
  nodeStep n executionID w context = (w1, context1, err) →
  at_most_once w1.
Proof.
  intros (Hgraph & Htimely & Hcount) Hready Hnone Hstep. split; [|split].
  - eapply same_graph_trans; [exact Hgraph|]. by eapply nodeStep_same_graph.
  - by eapply nodeStep_timely.
  - intros m. destruct (decide (m = n)) as [->|Hm].
    + pose proof (nodeStep_spec n executionID w context) as Hcases.
      rewrite Hstep in Hcases.
      inversion Hcases as [|row e ticks Hrun Hnode Hstart Hstatus Hticks
                           |row result Hrun Hnode Hstart Hstatus Hdone]; subst_outcome.
      * rewrite Hnone. simpl. lia.
      * rewrite step_runs_appended, Hnone. destruct (decide _); simpl; lia.
      * rewrite step_runs_appended, Hnone. destruct (decide _); simpl; lia.
    + by rewrite (nodeStep_other_runs _ _ _ _ _ _ _ Hstep Hm).
Qed.

(** Before a node has run, no target of its connections has. *)
Lemma targets_not_yet_run n w conn :
  at_most_once w → step_runs executionID n w = [] →
  conn ∈ Preload_Workflow_Connections execution w0 →
  Connection.SourceNodeID conn = n →
  step_runs executionID (Connection.TargetNodeID conn) w = [].
Proof.
  intros (Hgraph & [_ Hfirst] & _) Hnone Hconn Hsource.
  destruct (step_runs executionID (Connection.TargetNodeID conn) w) as [|r l] eqn:Hl;
    [done|]. exfalso.
  assert (Hr : r ∈ step_runs executionID (Connection.TargetNodeID conn) w)
    by (rewrite Hl; left).
  apply elem_of_step_runs in Hr as (Hr & Hr_run & Hr_node).
  apply workflow_connection_in_store in Hconn.
  destruct Hgraph as (_ & _ & _ & Hconns). rewrite <- Hconns in Hconn.
  destruct (Hfirst r Hr Hr_run conn Hconn (eq_sym Hr_node))
    as (r' & _ & _ & Hr' & Hr'_run & Hr'_node & _).
  assert (Hin : r' ∈ step_runs executionID n w).
  { apply elem_of_step_runs. by rewrite <- Hsource. }
  rewrite Hnone in Hin. inversion Hin.
Qed.

Lemma run_node_at_most_once n w context out :
  run_node executionID n w context out →
  at_most_once w → n ∈ workflow_node_ids execution w0 →
  ready executionID n w → step_runs executionID n w = [] →
  at_most_once out.1.1.
Proof.
  revert n w context out.
  apply (run_node_mut _ executionID
           (fun n w context out =>
              at_most_once w → n ∈ workflow_node_ids execution w0 →
              ready executionID n w → step_runs executionID n w = [] →
              at_most_once out.1.1)
           (fun conns w context out =>
              at_most_once w →
              ∀ p, p ∈ workflow_node_ids execution w0 →
                   (∀ conn, conn ∈ conns →
                            conn ∈ Preload_Workflow_Connections execution w0
                            ∧ Connection.SourceNodeID conn = p) →
                   NoDup conns →
                   (∀ conn, conn ∈ conns →
                            step_runs executionID (Connection.TargetNodeID conn) w = []) →
                   at_most_once out.1.1)); simpl.
  - done.
  - intros n w context w1 context1 err Hstep Hinv _ Hready Hnone.
    by eapply nodeStep_at_most_once.
  - intros n w context w1 context1 out Hstep _ IH Hinv Hn Hready Hnone.
    pose proof (nodeStep_at_most_once _ _ _ _ _ _ Hinv Hready Hnone Hstep) as Hinv1.
    assert (Hgraph1 : same_graph w0 w1) by apply Hinv1.
    apply (IH Hinv1 n Hn).
    + intros conn Hconn. by eapply outgoing_in_workflow.
    + unfold DB_Find_Connections_by_source.
      eapply sublist_NoDup; [|apply filter_sublist].
      destruct Hgraph1 as (_ & _ & _ & ->). done.
    + intros conn Hconn.
      destruct (outgoing_in_workflow execution w0 within w1 n conn Hgraph1 Hn Hconn)
        as [Hc Hsource].
      rewrite (nodeStep_other_runs _ _ _ _ _ _ _ Hstep).
      * by eapply targets_not_yet_run.
      * intros Heq. apply (no_cycle n), tc_once. exists conn. by rewrite Heq.
  - done.
  - intros conn conns w context out _ _ IH Hinv p Hp Hconns Hnodup Hnone.
    apply (IH Hinv p Hp).
    + intros c Hc. apply Hconns. by right.
    + by apply NoDup_cons_1_2 in Hnodup.
    + intros c Hc. apply Hnone. by right.
  - intros conn conns w context w1 context1 out Hready Hnode IHnode _ IH Hinv p Hp Hconns
           Hnodup Hnone.
    destruct (Hconns conn (list_elem_of_here _ _)) as [Hconn Hsource].
    assert (Hedge : edge execution w0 p (Connection.TargetNodeID conn)) by by exists conn.
    assert (Ht : Connection.TargetNodeID conn ∈ workflow_node_ids execution w0)
      by by eapply edge_forward.
    assert (Hinv1 : at_most_once w1).
    { apply IHnode; [done..| |].
      - by apply allInputsReady_spec.
      - apply Hnone. left. }
    apply (IH Hinv1 p Hp).
    + intros c Hc. apply Hconns. by right.
    + by apply NoDup_cons_1_2 in Hnodup.
    + intros c Hc. destruct (Hconns c (list_elem_of_further _ _ _ Hc)) as [Hc' Hc_source].
      rewrite (run_node_other_runs _ _ _ _ Hnode); [apply Hnone; by right|apply Hinv|done| |].
      * intros Heq.
        assert (c = conn) as ->.
        { apply direct; [done..|]. by rewrite Hc_source, Hsource. }
        by apply NoDup_cons_1_1 in Hnodup.
      * intros (c' & Hc'_in & Hc'_target & Hpath).
        assert (c = c') as <-.
        { apply direct; [done..|]. rewrite Hc_source. by eapply rtc_l. }
        apply (no_cycle p). eapply tc_rtc_r; [by apply tc_once|]. by rewrite <- Hc_source.
  - intros conn conns w context w1 context1 how Hready _ IHnode _ Hinv p Hp Hconns
           Hnodup Hnone.
    destruct (Hconns conn (list_elem_of_here _ _)) as [Hconn Hsource].
    apply IHnode; [done| | |].
    + apply (edge_forward execution w0 within p); [by exists conn|done].
    + by apply allInputsReady_spec.
    + apply Hnone. left.
Qed.

Lemma source_node_ready n w :
  same_graph w0 w → source_node execution w0 n → ready executionID n w.
Proof.
  intros (_ & _ & _ & Hconns) [Hn Hsource] c Hc Ht. rewrite Hconns in Hc.
  destruct (within c Hc) as (Hc' & _); [right; by rewrite Ht|].
  by destruct (Hsource c Hc').
Qed.

Lemma run_start_nodes_at_most_once startNodes w context out :
  run_start_nodes executionID startNodes w context out →
  at_most_once w →
  (∀ node, node ∈ startNodes → source_node execution w0 (Node.ID node)) →
  NoDup (Node.ID <$> startNodes) →
  (∀ node, node ∈ startNodes → step_runs executionID (Node.ID node) w = []) →
  at_most_once out.1.1.
Proof.
  induction 1 as [w context
                 |node startNodes w context w1 context1 out Hnode _ IH
                 |node startNodes w context w1 context1 how Hnode _];
    intros Hinv Hsources Hnodup Hnone; simpl.
  - done.
  - pose proof (Hsources node (list_elem_of_here _ _)) as Hsource.
    assert (Hinv1 : at_most_once w1).
    { apply (run_node_at_most_once _ _ _ _ Hnode); [done|apply Hsource| |].
      - apply source_node_ready; [apply Hinv|done].
      - apply Hnone. left. }
    rewrite fmap_cons in Hnodup. apply IH; [done| | |].
    + intros n Hn. apply Hsources. by right.
    + by apply NoDup_cons_1_2 in Hnodup.
    + intros n Hn.
      rewrite (run_node_other_runs _ _ _ _ Hnode);
        [apply Hnone; by right|apply Hinv|apply Hsource| |].
      * intros Heq. apply NoDup_cons_1_1 in Hnodup. apply Hnodup.
        rewrite <- Heq. apply list_elem_of_fmap. by exists n.
      * intros (c & Hc & Ht & _).
        destruct (Hsources n (list_elem_of_further _ _ _ Hn)) as [_ Hno].
        by destruct (Hno c Hc).
  - pose proof (Hsources node (list_elem_of_here _ _)) as Hsource.
    apply (run_node_at_most_once _ _ _ _ Hnode); [done|apply Hsource| |].
    + apply source_node_ready; [apply Hinv|done].
    + apply Hnone. left.
Qed.

End Once.

(** ** The nodes that a Run executes *)

Lemma fresh_run_no_step_runs (executionID nodeID : nat) (w : World) :
  fresh_run executionID w → step_runs executionID nodeID w = [].
Proof.
  intros Hfresh. destruct (step_runs executionID nodeID w) as [|r l] eqn:Hl; [done|].
  assert (Hr : r ∈ step_runs executionID nodeID w) by (rewrite Hl; left).
  apply elem_of_step_runs in Hr as (Hr & Hr_run & _).
  by destruct (fresh_run_no_row _ _ _ Hfresh Hr).
Qed.

Lemma fresh_run_timely (executionID : nat) (w : World) :
  fresh_run executionID w → timely executionID w.
Proof.
  intros Hfresh. split; intros r Hr Hr_run; by destruct (fresh_run_no_row _ _ _ Hfresh Hr).
Qed.

Lemma step_runs_same_rows (executionID nodeID : nat) (w w' : World) :
  node_executions w' = node_executions w →
  step_runs executionID nodeID w' = step_runs executionID nodeID w.
Proof. unfold step_runs. by intros ->. Qed.

Section ExecutedNodes.
Context `{Platform}.
Variables (executionID : nat) (execution : WorkflowExecution.t) (w : World).
Hypothesis within : connections_within_workflow execution w.
Hypothesis no_cycle : acyclic execution w.
Hypothesis fresh : fresh_run executionID w.

(** C1, as the engine has it.  In a Run of an acyclic workflow: the
    recursion ends; only nodes reachable from a source node are executed;
    when no node fails (the Run returns without an error) every node
    reachable from a source node is executed at least once and has a
    completed step-run; and no node is executed more than once when no
    node has two incoming connections of which one comes from the source
    of the other or from a node reached from it. *)
Theorem reachable_nodes_are_executed (depth : nat) :
  DB_First_WorkflowExecution executionID w = Some execution →
  length (Preload_Workflow_Connections execution w) < depth →
  ∃ w' how,
    ExecuteWorkflow depth executionID w = (w', how)
    ∧ how ≠ StackOverflow
    ∧ (∀ n, step_runs executionID n w' ≠ [] → reachable execution w n)
    ∧ (how = Returned None →
       ∀ n, reachable execution w n →
            1 ≤ length (step_runs executionID n w')
            ∧ completed executionID n w')
    ∧ (NoDup (connections w) → NoDup (workflow_node_ids execution w) →
       no_shortcut execution w →
       ∀ n, length (step_runs executionID n w') ≤ 1).
Proof.
  intros Hrun Hdepth.
  destruct (ExecuteWorkflow depth executionID w) as [w' how] eqn:Hexec.
  exists w', how. split; [done|].
  apply ExecuteWorkflow_runs in Hexec
    as [(Hrows & _ & Hnot_overflow & Hnot_ok)
       | (execution' & input & w2 & context2 & how2 & Hrun' & _
          & Hstart & Hrows & _ & Hoverflow & Hok)].
  { split; [done|].
    assert (Hnone : ∀ n, step_runs executionID n w' = []).
    { intros n. rewrite (step_runs_same_rows _ _ _ _ Hrows).
      by apply fresh_run_no_step_runs. }
    split; [intros n; by rewrite Hnone|]. split; [done|].
    intros _ _ _ n. rewrite Hnone. simpl. lia. }
  rewrite Hrun in Hrun'. injection Hrun' as <-.
  set (w1 := started execution w) in *.
  assert (Hgraph1 : same_graph w1 w1) by by repeat split.
  pose proof (executeStartNodes_runs executionID depth (start_nodes execution w)
                w1 (NewExecutionContext input)) as Hruns.
  rewrite Hstart in Hruns.
  split; [|split; [|split]].
  - rewrite Hoverflow.
    pose proof (executeStartNodes_returns executionID execution w1 within no_cycle depth
                  (start_nodes execution w) Hdepth) as Hreturns.
    change how2 with (w2, context2, how2).2. rewrite <- Hstart.
    apply Hreturns; [|done].
    intros node [Hnode _]%elem_of_start_nodes. apply list_elem_of_fmap. by exists node.
  - intros n Hn.
    pose proof (run_start_nodes_only_reachable executionID execution w1 within
                  w1 _ _ Hruns) as [_ Hreach].
    { split; [done|]. intros r Hr Hr_run.
      by destruct (fresh_run_no_row _ _ _ fresh Hr). }
    destruct (step_runs executionID n w') as [|r l] eqn:Hl; [done|].
    assert (Hr : r ∈ step_runs executionID n w') by (rewrite Hl; left).
    apply elem_of_step_runs in Hr as (Hr & Hr_run & <-). rewrite Hrows in Hr.
    by apply Hreach.
  - intros Hreturned n Hn. rewrite (Hok Hreturned) in Hruns.
    destruct (run_start_nodes_follows executionID _ _ _ _ Hruns w2 context2 eq_refl)
      as [Hfollows Hstarted].
    assert (Hdone : completed executionID n w2).
    { apply (all_nodes_completed executionID execution w within no_cycle fresh w1 w2);
        try done.
      by apply (reachable_in_workflow execution w within). }
    assert (Hdone' : completed executionID n w').
    { apply completed_iff in Hdone as (r & Hr & Hrest). apply completed_iff.
      exists r. by rewrite Hrows. }
    split; [|done].
    apply completed_iff in Hdone' as (r & Hr & Hr_run & Hr_node & _).
    assert (Hin : r ∈ step_runs executionID n w') by by apply elem_of_step_runs.
    destruct (step_runs executionID n w'); [inversion Hin | simpl; lia].
  - intros Hconns Hnodes Hdirect n.
    rewrite (step_runs_same_rows _ _ _ _ Hrows).
    assert (Hinv : at_most_once executionID w1 w2); [|apply Hinv].
    apply (run_start_nodes_at_most_once executionID execution w1 within no_cycle
             Hdirect Hconns _ _ _ _ Hruns).
    + split; [done|]. split; [by apply fresh_run_timely|].
      intros m. change (step_runs executionID m w1) with (step_runs executionID m w).
      rewrite (fresh_run_no_step_runs executionID m w fresh). simpl. lia.
    + intros node Hnode. by apply (start_node_is_source execution w).
    + eapply sublist_NoDup; [exact Hnodes|]. apply fmap_sublist, filter_sublist.
    + intros node _. by apply (fresh_run_no_step_runs executionID _ w).
Qed.

End ExecutedNodes.

(** ** The examples *)

Lemma increasing_acyclic (execution : WorkflowExecution.t) (w : World) :
  Forall (fun c => Connection.SourceNodeID c < Connection.TargetNodeID c)
         (Preload_Workflow_Connections execution w) →
  acyclic execution w.
Proof.
  intros Hinc n Hcycle.
  assert (Hlt : ∀ a b, tc (edge execution w) a b → a < b); [|specialize (Hlt n n Hcycle); lia].
  assert (Hedge : ∀ a b, edge execution w a b → a < b).
  { intros a b (c & Hc & <- & <-). by apply (proj1 (Forall_forall _ _) Hinc). }
  induction 1 as [a b Hab|a b c Hab _ IH]; [by apply Hedge|].
  apply Hedge in Hab. lia.
Qed.

Lemma triangle_acyclic : acyclic demo_execution triangle.
Proof. apply increasing_acyclic. apply (bool_decide_unpack _). by vm_compute. Qed.

Lemma diamond_acyclic : acyclic demo_execution diamond.
Proof. apply increasing_acyclic. apply (bool_decide_unpack _). by vm_compute. Qed.

Lemma diamond_within : connections_within_workflow demo_execution diamond.
Proof.
  unfold connections_within_workflow.
  apply (proj1 (Forall_forall
    (fun c => Connection.SourceNodeID c ∈ workflow_node_ids demo_execution diamond
              ∨ Connection.TargetNodeID c ∈ workflow_node_ids demo_execution diamond →
              c ∈ Preload_Workflow_Connections demo_execution diamond
              ∧ Connection.SourceNodeID c ∈ workflow_node_ids demo_execution diamond
              ∧ Connection.TargetNodeID c ∈ workflow_node_ids demo_execution diamond) _)).
  apply (bool_decide_unpack _). by vm_compute.
Qed.

Lemma increasing_path (execution : WorkflowExecution.t) (w : World) (a b : nat) :
  Forall (fun c => Connection.SourceNodeID c < Connection.TargetNodeID c)
         (Preload_Workflow_Connections execution w) →
  rtc (edge execution w) a b → a ≤ b.
Proof.
  intros Hinc. induction 1 as [|a b c (conn & Hconn & <- & <-) _ IH]; [done|].
  pose proof (proj1 (Forall_forall _ _) Hinc conn Hconn) as Hlt. simpl in Hlt. lia.
Qed.

(** A workflow in which every node has at most one incoming connection has
    no shortcut. *)
Lemma single_inputs_no_shortcut (execution : WorkflowExecution.t) (w : World) :
  (∀ c1 c2, c1 ∈ Preload_Workflow_Connections execution w →
            c2 ∈ Preload_Workflow_Connections execution w →
            Connection.TargetNodeID c1 = Connection.TargetNodeID c2 → c1 = c2) →
  no_shortcut execution w.
Proof. intros Hsingle c1 c2 H1 H2 Ht _. by apply Hsingle. Qed.

(** The diamond has none either: neither of the nodes 2 and 3, which feed
    node 4, is reached from the other. *)
Lemma diamond_no_shortcut : no_shortcut demo_execution diamond.
Proof.
  assert (Hinc : Forall (fun c => Connection.SourceNodeID c < Connection.TargetNodeID c)
                        (Preload_Workflow_Connections demo_execution diamond)).
  { apply (bool_decide_unpack _). by vm_compute. }
  assert (Hfrom2 : ∀ b, edge demo_execution diamond 2 b → b = 4).
  { intros b (c & Hc & Hs & <-). apply list_elem_of_In in Hc. vm_compute in Hc.
    destruct Hc as [<-|[<-|[<-|[<-|[]]]]]; simpl in Hs; (done || discriminate). }
  intros c1 c2 H1 H2 Ht Hpath.
  pose proof (increasing_path _ _ _ _ Hinc Hpath) as Hle.
  apply list_elem_of_In in H1, H2. vm_compute in H1, H2.
  destruct H1 as [<-|[<-|[<-|[<-|[]]]]]; destruct H2 as [<-|[<-|[<-|[<-|[]]]]];
    simpl in Ht, Hle; try done; try lia.
  apply rtc_inv in Hpath as [Heq|(y & Hedge & Hrest)]; [done|].
  apply Hfrom2 in Hedge as ->.
  pose proof (increasing_path _ _ _ _ Hinc Hrest) as Hle'. simpl in Hle'. lia.
Qed.

(** In the triangle node 3 is reachable from the source node 1, the Run
    completes, and node 3 has two step-runs: C1 fails as stated. *)
Lemma triangle_executes_a_node_twice :
  ¬ executed_exactly_once (H := demo_platform) 10 1 demo_execution triangle.
Proof.
  intros Hclaim.
  pose (out := ExecuteWorkflow (H := demo_platform) 10 1 triangle).
  assert (Hhow : out.2 = Returned None) by (vm_compute; reflexivity).
  assert (Htwice : length (step_runs 1 3 out.1) = 2) by (vm_compute; reflexivity).
  assert (Hrun : ExecuteWorkflow (H := demo_platform) 10 1 triangle = (out.1, Returned None)).
  { rewrite <- Hhow. apply surjective_pairing. }
  destruct (Hclaim triangle_acyclic out.1 Hrun 3) as [Honce _].
  assert (Hreach : reachable demo_execution triangle 3).
  { exists 1. split.
    - split; [vm_compute; left|].
      apply Forall_forall. apply (bool_decide_unpack _). vm_compute. exact I.
    - apply rtc_once. exists (demo_connection 2 1 3).
      split; [|split; reflexivity]. vm_compute.
      apply list_elem_of_further, list_elem_of_here. }
  specialize (Honce Hreach). rewrite Htwice in Honce. discriminate.
Qed.

(** The diamond: every node is reachable and is executed. *)
Lemma reachable_nodes_are_executed_witness :
  ∃ w' how,
    ExecuteWorkflow (H := demo_platform) 10 1 diamond = (w', how)
    ∧ how ≠ StackOverflow
    ∧ (∀ n, step_runs 1 n w' ≠ [] → reachable demo_execution diamond n)
    ∧ (how = Returned None →
       ∀ n, reachable demo_execution diamond n →
            1 ≤ length (step_runs 1 n w') ∧ completed 1 n w')
    ∧ (NoDup (connections diamond) → NoDup (workflow_node_ids demo_execution diamond) →
       no_shortcut demo_execution diamond →
       ∀ n, length (step_runs 1 n w') ≤ 1).
Proof.
  apply (reachable_nodes_are_executed (H := demo_platform) 1 demo_execution diamond
           diamond_within diamond_acyclic).
  - reflexivity.
  - reflexivity.
  - vm_compute. lia.
Defined.

(** The diamond: every step-run is started after the sources of the
    connections into its node have completed; node 4 after nodes 2 and 3. *)
Lemma targets_wait_for_their_sources_witness :
  Forall
    (fun r =>
       NodeExecution.WorkflowExecutionID r = 1 →
       Forall
         (fun c =>
            Connection.TargetNodeID c = NodeExecution.NodeID r →
            completed_before 1 (ExecuteWorkflow (H := demo_platform) 10 1 diamond).1
                             (Connection.SourceNodeID c) r)
         (connections diamond))
    (node_executions (ExecuteWorkflow (H := demo_platform) 10 1 diamond).1).
Proof.
  apply (proj2 (Forall_forall _ _)). intros r Hr Hr_run.
  apply (proj2 (Forall_forall _ _)). intros c Hc Ht.
  revert r Hr Hr_run c Hc Ht.
  apply (targets_wait_for_their_sources (H := demo_platform) 10 1 demo_execution diamond
           (ExecuteWorkflow (H := demo_platform) 10 1 diamond).1
           (ExecuteWorkflow (H := demo_platform) 10 1 diamond).2).
  - reflexivity.
  - exact diamond_within.
  - reflexivity.
  - apply surjective_pairing.
Defined.

(** The diamond: node 1 receives the input of the Run, node 4 the results of
    nodes 2 and 3 on its handle, in that order. *)
Lemma prepareNodeInput_aggregates_witness :
  prepareNodeInput (demo_node 1 "filter") 1 diamond_context diamond = {[ "seed" := VInt 1 ]}
  ∧ prepareNodeInput (demo_node 4 "filter") 1 diamond_context diamond !! "input"
    = Some (VList [VStr "b"; VStr "c"]).
Proof.
  split.
  - apply (proj1 (prepareNodeInput_aggregates (demo_node 1 "filter") 1 diamond_context
                    diamond)).
    reflexivity.
  - rewrite (proj2 (prepareNodeInput_aggregates (demo_node 4 "filter") 1 diamond_context
                      diamond)).
    + vm_compute. reflexivity.
    + vm_compute. discriminate.
Defined.

(** A Transform node without a mapping fails, and with it the Run. *)
Lemma single_failing_node_fails_the_run_witness :
  ∃ w' run row,
    ExecuteWorkflow (H := demo_platform) 1 1 lonely_transform
    = (w', Returned (Some "mapping is required in config"))
    ∧ DB_First_WorkflowExecution 1 w' = Some run
    ∧ WorkflowExecution.Status run = "failed"
    ∧ WorkflowExecution.ErrorMessage run = "mapping is required in config"
    ∧ ("transform" ∈ ["httpRequest"; "filter"; "transform"] →
       WorkflowExecution.ErrorMessage run ≠ "")
    ∧ run_step_runs 1 w' = [row]
    ∧ NodeExecution.NodeID row = 1
    ∧ NodeExecution.Status row = "failed"
    ∧ NodeExecution.ErrorMessage row = "execution failed: mapping is required in config".
Proof.
  apply (single_failing_node_fails_the_run (H := demo_platform) 1 1 demo_execution
           lonely_transform (demo_node 1 "transform") (demo_node 1 "transform")
           (NodeType.mk 3 "transform" "transform") TransformExecutor ∅ ∅ VNil).
  - reflexivity.
  - reflexivity.
  - reflexivity.
  - intros c Hc. vm_compute in Hc. inversion Hc.
  - reflexivity.
  - reflexivity.
  - reflexivity.
  - reflexivity.
  - reflexivity.
  - reflexivity.
  - lia.
Defined.

(** The one node of [silent] is run by a plugin whose error has no text: the
    Run fails with an empty error text, so C6 fails as stated. *)
Lemma silent_plugin_leaves_no_error_text :
  ¬ fails_with_an_error_text (H := silent_platform) 1 1 demo_execution silent.
Proof.
  intros Hclaim.
  destruct (Hclaim (demo_node 1 "silent") (demo_node 1 "silent") silent_type
              silent_executor ∅ ∅ VNil "")
    as (w' & how & run & row & Hout & Hrun & _ & Htext & _); try reflexivity.
  - intros c Hc. vm_compute in Hc. inversion Hc.
  - assert (Hrow : DB_First_WorkflowExecution 1
                     (ExecuteWorkflow (H := silent_platform) 1 1 silent).1
                   = Some (WorkflowExecution.mk 1 1 "failed" 1 (Some 4) "{}" "{}" ""))
      by (vm_compute; reflexivity).
    rewrite Hout in Hrow. simpl in Hrow. rewrite Hrun in Hrow.
    injection Hrow as ->. by apply Htext.
Qed.

(** In the ring every node has an incoming connection. *)
Lemma no_start_node_fails_fast_witness :
  ∃ w' run,
    ExecuteWorkflow (H := demo_platform) 10 1 ring
    = (w', Returned (Some "workflow has no start nodes"))
    ∧ node_executions w' = node_executions ring
    ∧ DB_First_WorkflowExecution 1 w' = Some run
    ∧ WorkflowExecution.Status run = "failed"
    ∧ WorkflowExecution.ErrorMessage run = "workflow has no start nodes".
Proof.
  apply (no_start_node_fails_fast (H := demo_platform) 10 1 demo_execution ring).
  - reflexivity.
  - intros node Hnode. apply list_elem_of_In in Hnode. vm_compute in Hnode.
    destruct Hnode as [<-|[<-|[]]].
    + exists (demo_connection 2 2 1). split; [|reflexivity].
      apply list_elem_of_In. vm_compute. auto.
    + exists (demo_connection 1 1 2). split; [|reflexivity].
      apply list_elem_of_In. vm_compute. auto.
Defined.


(** * Further properties of the code *)

(** ** Strings *)

Lemma append_cons (a : ascii) (s t : string) : String a s +:+ t = String a (s +:+ t).
Proof. reflexivity. Qed.

Lemma length_append (s t : string) :
  String.length (s +:+ t) = String.length s + String.length t.
Proof. induction s as [|a s IH]; [done|]. rewrite append_cons. simpl. by rewrite IH. Qed.

Lemma prefix_append (p s : string) : String.prefix p (p +:+ s) = true.
Proof.
  induction p as [|a p IH]; [by destruct s|].
  rewrite append_cons. simpl. by destruct (ascii_dec a a).
Qed.

Lemma prefix_cons (a b : ascii) (p s : string) :
  String.prefix (String a p) (String b s) = true ↔ a = b ∧ String.prefix p s = true.
Proof. cbn [String.prefix]. destruct (ascii_dec a b); intuition congruence. Qed.

Lemma substring_all (s : string) : String.substring 0 (String.length s) s = s.
Proof. induction s as [|a s IH]; [done|]. simpl. by rewrite IH. Qed.

Lemma substring_front (s t : string) :
  String.substring 0 (String.length s) (s +:+ t) = s.
Proof.
  induction s as [|a s IH]; [by destruct t|].
  rewrite append_cons. simpl. by rewrite IH.
Qed.

Lemma substring_skip (p s : string) (n : nat) :
  String.substring (String.length p) n (p +:+ s) = String.substring 0 n s.
Proof. induction p as [|a p IH]; [done|]. rewrite append_cons. simpl. exact IH. Qed.

Lemma append_assoc (s t u : string) : (s +:+ t) +:+ u = s +:+ t +:+ u.
Proof. induction s as [|a s IH]; [done|]. rewrite !append_cons. by rewrite IH. Qed.

Lemma append_nil_r (s : string) : s +:+ "" = s.
Proof. induction s as [|a s IH]; [done|]. rewrite append_cons. by rewrite IH. Qed.

Lemma rev_app_append (s t : string) : String.rev_app s t = String.rev s +:+ t.
Proof.
  unfold String.rev. revert t. induction s as [|a s IH]; intros t; [done|].
  simpl. rewrite IH, (IH (String a "")). by rewrite append_assoc.
Qed.

Lemma rev_append (s t : string) : String.rev (s +:+ t) = String.rev t +:+ String.rev s.
Proof.
  induction s as [|a s IH].
  - by rewrite append_nil_r.
  - rewrite append_cons. unfold String.rev at 1 3. simpl.
    rewrite !rev_app_append, IH. by rewrite append_assoc.
Qed.

Lemma HasPrefix_append (p s : string) : strings_HasPrefix (p +:+ s) p = true.
Proof. apply prefix_append. Qed.

Lemma HasSuffix_append (s t : string) : strings_HasSuffix (s +:+ t) t = true.
Proof. unfold strings_HasSuffix. rewrite rev_append. apply prefix_append. Qed.

Lemma strings_Split_cons (s : string) (sep : ascii) :
  ∃ part parts, strings_Split s sep = part :: parts.
Proof.
  induction s as [|c s (part & parts & IH)]; simpl; [eauto|].
  rewrite IH. destruct (decide (c = sep)); eauto.
Qed.

Lemma strings_Split_append (p q : string) (sep : ascii) :
  strings_Split (p +:+ String sep q) sep = strings_Split p sep ++ strings_Split q sep.
Proof.
  induction p as [|c p IH].
  - change ("" +:+ String sep q) with (String sep q). simpl.
    destruct (strings_Split_cons q sep) as (part & parts & ->).
    by rewrite decide_True.
  - rewrite append_cons. simpl. rewrite IH.
    destruct (strings_Split_cons p sep) as (part & parts & ->). simpl.
    by destruct (decide (c = sep)).
Qed.

(** ** Nested values *)

(** Induction over values, with the property at hand for the elements of a
    list and the values of a map. *)
Lemma Value_nested_ind (P : Value → Prop) :
  P VNil → (∀ b, P (VBool b)) → (∀ n, P (VInt n)) → (∀ f, P (VFloat f)) →
  (∀ s, P (VStr s)) →
  (∀ l, Forall P l → P (VList l)) →
  (∀ m, map_Forall (fun _ => P) m → P (VMap m)) →
  ∀ v, P v.
Proof.
  intros Hnil Hbool Hint Hfloat Hstr Hlist Hmap v.
  remember (Value_size v) as n eqn:Hn. revert v Hn.
  induction (lt_wf n) as [n _ IH]. intros v ->.
  destruct v as [| b | z | f | s | l | m]; auto.
  - apply Hlist. simpl in IH. induction l as [|x l IHl]; constructor.
    + eapply IH; [|reflexivity]. simpl. lia.
    + apply IHl. intros k Hk. apply IH. simpl. lia.
  - apply Hmap. simpl in IH. revert IH.
    induction m as [|k x m Hk Hfold IHm] using map_first_key_ind.
    + intros _. apply map_Forall_empty.
    + intros IH. rewrite map_fold_insert_first_key in IH by done.
      apply map_Forall_insert; [done|]. split.
      * eapply IH; [|reflexivity]. lia.
      * apply IHm. intros y Hy. apply IH. lia.
Qed.

Lemma nestedLookup_nil (parts : list string) :
  parts ≠ [] → nestedLookup VNil parts = VNil.
Proof. by destruct parts. Qed.

Lemma nestedLookup_app (item : Value) (parts1 parts2 : list string) :
  parts2 ≠ [] →
  nestedLookup item (parts1 ++ parts2)
  = nestedLookup (nestedLookup item parts1) parts2.
Proof.
  intros Hne. revert item. induction parts1 as [|part parts1 IH]; intros item; [done|].
  simpl. destruct item as [| | | | | |m]; try by rewrite nestedLookup_nil.
  destruct (m !! part); [apply IH | by rewrite nestedLookup_nil].
Qed.

Lemma nestedLookup_dotted (item : Value) (p q : string) :
  p ≠ "" → q ≠ "" →
  (if decide (p +:+ String "." q = "") then item
   else nestedLookup item (strings_Split (p +:+ String "." q) "."))
  = (if decide (q = "") then (if decide (p = "") then item
                              else nestedLookup item (strings_Split p "."))
     else nestedLookup (if decide (p = "") then item
                        else nestedLookup item (strings_Split p "."))
                       (strings_Split q ".")).
Proof.
  intros Hp Hq. rewrite (decide_False (P := p = "")), (decide_False (P := q = "")) by done.
  rewrite decide_False by (by destruct p).
  rewrite strings_Split_append. apply nestedLookup_app.
  by destruct (strings_Split_cons q ".") as (part & parts & ->).
Qed.

(** ** More on the executors *)

(** X1: A dotted path is followed part by part: the value at [p.q] is the value
    at [q] inside the value at [p], for the Filter executor and for the
    Transform executor alike. *)
Theorem getNestedValue_follows_dotted_paths (item : Value) (p q : string) :
  p ≠ "" → q ≠ "" →
  FilterExecutor_getNestedValue item (p +:+ "." +:+ q)
  = FilterExecutor_getNestedValue (FilterExecutor_getNestedValue item p) q
  ∧ TransformExecutor_getNestedValue item (p +:+ "." +:+ q)
    = TransformExecutor_getNestedValue (TransformExecutor_getNestedValue item p) q.
Proof.
  intros Hp Hq. split; by apply nestedLookup_dotted.
Qed.

(** X2: A string that starts with [{{] and ends with [}}] has at least four
    bytes, so the slice [v[2 : len(v)-2]] that [applyMapping] takes of it is
    within bounds. *)
Theorem template_slice_within_bounds (v : string) :
  strings_HasPrefix v "{{" = true → strings_HasSuffix v "}}" = true →
  2 ≤ String.length v - 2 ∧ String.length v - 2 ≤ String.length v.
Proof.
  unfold strings_HasPrefix, strings_HasSuffix, String.rev.
  destruct v as [|a [|b [|c [|d v]]]]; cbn [String.rev_app String.length];
    rewrite ?prefix_cons; try (simpl; lia).
  - intros (<- & <- & _) (? & _). done.
  - intros (<- & <- & _) (_ & ? & _). done.
Qed.

Section MoreOnExecutors.
Context `{Platform}.

Lemma inputItems_singleton (port : string) (v : Value) :
  inputItems {[ port := v ]} = match v with VList items => items | _ => [v] end.
Proof.
  unfold inputItems. rewrite map_size_singleton, map_to_list_singleton.
  rewrite decide_True by done. by destruct v.
Qed.

Lemma filter_filter_same {A} (p : A → bool) (l : list A) :
  List.filter p (List.filter p l) = List.filter p l.
Proof.
  induction l as [|x l IH]; [done|]. simpl.
  destruct (p x) eqn:Hpx; [|done]. simpl. by rewrite Hpx, IH.
Qed.

Lemma filter_complement {A} (p q : A → bool) (l : list A) :
  (∀ x, q x = negb (p x)) → List.filter p l ++ List.filter q l ≡ₚ l.
Proof.
  intros Hq. induction l as [|x l IH]; [done|]. simpl. rewrite Hq.
  destruct (p x); simpl.
  - by rewrite IH.
  - by rewrite <- Permutation_middle, IH.
Qed.

(** X3: An operator that the comparison does not know (a misspelt or
    differently capitalised one, say) makes the Filter executor drop every
    item; it is not an error. *)
Theorem filter_unknown_operator_selects_nothing
    (config input : gmap string Value) (operator : string) :
  config !! "operator" = Some (VStr operator) →
  operator ∉ [""; "equals"; "not_equals"; "contains"] →
  FilterExecutor_Execute config input = (VList [], None).
Proof.
  intros Hop Hnot. unfold FilterExecutor_Execute. rewrite Hop.
  rewrite !not_elem_of_cons in Hnot. destruct Hnot as (H0 & H1 & H2 & H3 & _).
  rewrite (decide_False (P := operator = "")) by done.
  rewrite filter_all_false; [done|]. intros item.
  unfold FilterExecutor_compareValues. rewrite !decide_False by done.
  by repeat case_decide.
Qed.

(** X4: Without an operator in the configuration (none, one that is not a
    string, or the empty string) the Filter executor compares with
    ["equals"]. *)
Theorem filter_operator_defaults_to_equals (config input : gmap string Value) :
  (∀ operator, config !! "operator" = Some (VStr operator) → operator = "") →
  FilterExecutor_Execute config input
  = FilterExecutor_Execute (<["operator" := VStr "equals"]> config) input.
Proof.
  intros Hop. unfold FilterExecutor_Execute.
  rewrite lookup_insert_eq, !lookup_insert_ne by done.
  destruct (config !! "operator") as [[| | | |operator| |]|]; try done.
  by rewrite (Hop operator).
Qed.

(** X5: The operators ["equals"] and ["not_equals"] split the items: with the
    rest of the configuration the same, every item is kept by exactly one of
    the two. *)
Theorem filter_equals_and_not_equals_split_the_items
    (config input : gmap string Value) :
  ∃ yes no,
    FilterExecutor_Execute (<["operator" := VStr "equals"]> config) input
    = (VList yes, None)
    ∧ FilterExecutor_Execute (<["operator" := VStr "not_equals"]> config) input
      = (VList no, None)
    ∧ yes ++ no ≡ₚ inputItems input.
Proof.
  unfold FilterExecutor_Execute.
  rewrite !lookup_insert_eq, !lookup_insert_ne by done. simpl.
  eexists _, _. split; [reflexivity|]. split; [reflexivity|].
  apply filter_complement. intros item.
  unfold FilterExecutor_compareValues. simpl. apply bool_decide_not.
Qed.

(** X6: Filtering is idempotent: the Filter executor keeps all of its own
    output when that is fed back to it on one port. *)
Theorem filter_is_idempotent (config input : gmap string Value) :
  FilterExecutor_Execute config
    {[ "input" := (FilterExecutor_Execute config input).1 ]}
  = FilterExecutor_Execute config input.
Proof.
  unfold FilterExecutor_Execute. simpl. rewrite inputItems_singleton.
  by rewrite filter_filter_same.
Qed.

(** X7: With ["equals"] and no value in the configuration the items are
    compared with nil, so an item that does not have the field is kept. *)
Theorem filter_without_value_keeps_items_without_the_field
    (config input : gmap string Value) (field : string) (item : Value) :
  config !! "field" = Some (VStr field) →
  config !! "operator" = Some (VStr "equals") →
  config !! "value" = None →
  item ∈ inputItems input →
  FilterExecutor_getNestedValue item field = VNil →
  ∃ filtered, FilterExecutor_Execute config input = (VList filtered, None)
              ∧ item ∈ filtered.
Proof.
  intros Hfield Hop Hvalue Hitem Hnil. unfold FilterExecutor_Execute.
  rewrite Hfield, Hop, Hvalue. simpl.
  eexists. split; [reflexivity|]. apply elem_of_List_filter. split; [done|].
  rewrite Hnil. unfold FilterExecutor_compareValues. simpl.
  by apply bool_decide_eq_true.
Qed.

(** X8: With exactly one input port both executors read that port, whatever its
    name, and a value on it that is not a list counts as one item. *)
Theorem single_port_is_read_whatever_its_name
    (config : gmap string Value) (port : string) (v : Value) :
  let items := match v with VList _ => v | _ => VList [v] end in
  FilterExecutor_Execute config {[ port := v ]}
  = FilterExecutor_Execute config {[ "input" := items ]}
  ∧ TransformExecutor_Execute config {[ port := v ]}
    = TransformExecutor_Execute config {[ "input" := items ]}.
Proof.
  intros items. unfold FilterExecutor_Execute, TransformExecutor_Execute.
  rewrite !inputItems_singleton. by destruct v.
Qed.

(** X9: With no port, or with several of which none is a list named ["input"],
    there are no items: the Filter executor and the Transform executor
    return the empty list, and what arrives on the other ports is not
    looked at. *)
Theorem several_ports_without_input_give_nothing
    (config input : gmap string Value) :
  size input ≠ 1 →
  (∀ items, input !! "input" ≠ Some (VList items)) →
  FilterExecutor_Execute config input = (VList [], None)
  ∧ (is_Some (config !! "mapping") →
     TransformExecutor_Execute config input = (VList [], None)).
Proof.
  intros Hsize Hinput.
  assert (Hitems : inputItems input = []).
  { unfold inputItems. rewrite decide_False by done.
    destruct (input !! "input") as [[| | | | |items|]|] eqn:Hi; try done.
    by destruct (Hinput items). }
  unfold FilterExecutor_Execute, TransformExecutor_Execute. rewrite Hitems.
  split; [done|]. by intros [mapping ->].
Qed.

End MoreOnExecutors.

Lemma applyMapping_template_free (item mapping : Value) :
  template_free mapping → TransformExecutor_applyMapping item mapping = mapping.
Proof.
  induction mapping as [| | | | |l IH|m IH] using Value_nested_ind; try done.
  - intros Hfree. inversion Hfree as [| | | | |l' Hl|]; subst. simpl. f_equal.
    rewrite <- (list_fmap_id l) at 2. apply list_fmap_ext. intros i x Hx. simpl.
    apply (Forall_lookup_1 _ _ _ _ IH Hx), (Forall_lookup_1 _ _ _ _ Hl Hx).
  - intros Hfree. inversion Hfree as [| | | | | |m' Hstrings Hm]; subst. simpl. f_equal.
    apply map_eq. intros k. rewrite lookup_fmap.
    destruct (m !! k) as [value|] eqn:Hk; [|done]. simpl. f_equal.
    pose proof (IH k value Hk) as IHvalue. pose proof (Hm k value Hk) as Hvalue.
    simpl in IHvalue, Hvalue.
    destruct value; try done; [|by apply IHvalue..].
    by rewrite (Hstrings k s Hk).
Qed.

(** X10: With a mapping that is an object, the Transform executor returns one
    object per item, in the order of the items, and each of them has
    exactly the keys of the mapping. *)
Theorem transform_output_has_the_keys_of_the_mapping
    (config input m : gmap string Value) :
  config !! "mapping" = Some (VMap m) →
  ∃ out,
    TransformExecutor_Execute config input = (VList out, None)
    ∧ length out = length (inputItems input)
    ∧ Forall (fun o => ∃ m', o = VMap m' ∧ dom m' = dom m) out.
Proof.
  intros Hmapping. unfold TransformExecutor_Execute. rewrite Hmapping.
  eexists. split; [reflexivity|]. split; [by rewrite length_fmap|].
  apply Forall_fmap, Forall_true. intros item. simpl.
  eexists. split; [reflexivity|]. apply dom_fmap_L.
Qed.

(** X11: Placeholders are replaced only where they are the value of a key of an
    object.  A mapping without such a value is copied as it is, whatever
    strings stand in its lists: every item is replaced by the mapping
    itself. *)
Theorem transform_without_templates_repeats_the_mapping
    (config input : gmap string Value) (mapping : Value) :
  config !! "mapping" = Some mapping →
  template_free mapping →
  TransformExecutor_Execute config input
  = (VList (replicate (length (inputItems input)) mapping), None).
Proof.
  intros Hmapping Hfree. unfold TransformExecutor_Execute. rewrite Hmapping.
  do 2 f_equal. rewrite <- (const_fmap (fun _ => mapping) (inputItems input)) by done.
  apply list_fmap_ext. intros i item _. by apply applyMapping_template_free.
Qed.

(** X12: A string of the mapping that is one placeholder, [{{path}}], is replaced
    by the value that the item has at that path, blanks around the path
    apart. *)
Theorem transform_placeholder_selects_the_field
    (item : Value) (m : gmap string Value) (key path : string) :
  m !! key = Some (VStr ("{{" +:+ path +:+ "}}")) →
  ∃ m', TransformExecutor_applyMapping item (VMap m) = VMap m'
        ∧ m' !! key
          = Some (TransformExecutor_getNestedValue item (strings_TrimSpace path)).
Proof.
  intros Hkey. set (v := "{{" +:+ path +:+ "}}") in *.
  assert (Hprefix : strings_HasPrefix v "{{" = true)
    by apply (HasPrefix_append "{{" (path +:+ "}}")).
  assert (Hsuffix : strings_HasSuffix v "}}" = true).
  { pose proof (HasSuffix_append ("{{" +:+ path) "}}") as Hs.
    by rewrite append_assoc in Hs. }
  assert (Hslice : slice v 2 (String.length v - 2) = path).
  { unfold slice, v. rewrite (substring_skip "{{" (path +:+ "}}")).
    rewrite !length_append.
    replace (String.length "{{" + (String.length path + String.length "}}") - 2 - 2)
      with (String.length path) by (simpl; lia).
    apply substring_front. }
  clearbody v. eexists. split; [reflexivity|].
  rewrite lookup_fmap, Hkey. simpl. by rewrite Hprefix, Hsuffix, Hslice.
Qed.

Section LoadingExecutors.
Context `{Platform}.

(** X13: An executor class with the prefix [plugin:] is handed to the plugin
    loader, with the rest of the class as the path of the plugin. *)
Theorem LoadExecutor_hands_plugins_to_the_loader (pluginPath : string) :
  LoadExecutor ("plugin:" +:+ pluginPath) = loadPluginExecutor pluginPath.
Proof.
  unfold LoadExecutor. rewrite !decide_False by done.
  rewrite (HasPrefix_append "plugin:" pluginPath).
  unfold strings_TrimPrefix. rewrite (HasPrefix_append "plugin:" pluginPath).
  unfold slice. rewrite (substring_skip "plugin:" pluginPath).
  rewrite length_append. simpl.
  replace (String.length pluginPath - 0) with (String.length pluginPath) by lia.
  by rewrite substring_all.
Qed.

End LoadingExecutors.

(** ** The rows that a run writes *)

Lemma grown_refl (executionID : nat) (w : World) (how : Completion) :
  grown executionID w w how.
Proof.
  split; [done|]. split; [done|]. exists [], []. rewrite !app_nil_r.
  split; [done|]. split; [constructor|]. destruct how as [[err|]|]; auto.
Qed.

Lemma grown_trans (executionID : nat) (w w1 w2 : World) (how : Completion) :
  grown executionID w w1 (Returned None) → grown executionID w1 w2 how →
  grown executionID w w2 how.
Proof.
  intros (Hruns1 & Hclock1 & finished1 & last1 & Hrows1 & Hfinished1 & ->)
         (Hruns2 & Hclock2 & finished2 & last2 & Hrows2 & Hfinished2 & Hlast).
  split; [congruence|]. split; [lia|].
  exists (finished1 ++ finished2), last2. split; [|split; [by apply Forall_app|done]].
  rewrite Hrows2, Hrows1, app_nil_r. by rewrite <- !app_assoc.
Qed.

Lemma grown_completed (executionID : nat) (w : World) (row : NodeExecution.t)
    (ticks : nat) :
  completed_row executionID row →
  grown executionID w (appended w [row] ticks) (Returned None).
Proof.
  intros Hrow. split; [done|]. split; [simpl; lia|]. exists [row], [].
  split; [done|]. split; [by constructor|done].
Qed.

Lemma grown_failed (executionID : nat) (w : World) (row : NodeExecution.t)
    (ticks : nat) (err : error) :
  failed_row executionID err row →
  grown executionID w (appended w [row] ticks) (Returned (Some err)).
Proof.
  intros Hrow. split; [done|]. split; [simpl; lia|]. exists [], [row].
  split; [done|]. split; [constructor|]. right. by exists row.
Qed.

Section RowsOfARun.
Context `{Platform}.
Variable executionID : nat.

(** A step that fails leaves the context as it was, and either the store
    too (no row of the node, or none of its type), or one failed step-run
    more. *)
Lemma nodeStep_failed nodeID w context w1 context1 err :
  nodeStep nodeID executionID w context = (w1, context1, Some err) →
  context1 = context
  ∧ (w1 = w
     ∨ ∃ row ticks, w1 = appended w [row] ticks
                    ∧ NodeExecution.NodeID row = nodeID
                    ∧ failed_row executionID err row).
Proof.
  unfold nodeStep.
  destruct (DB_First_Node nodeID w) as [node|]; [|intros [= <- <- <-]; auto].
  destruct (DB_First_NodeType _ w) as [nodeType|]; [|intros [= <- <- <-]; auto].
  cbn [time_Now DB_Create_NodeExecution].
  set (row0 := NodeExecution.set_ID _ _).
  change (with_node_executions _ _) with (appended w [row0] 1).
  assert (Hrow0 : NodeExecution.ID row0 = next_NodeExecution_ID w) by reflexivity.
  set (inputData := prepareNodeInput _ _ _ _). clearbody inputData.
  rewrite (DB_Save_appended w row0) by done.
  set (row1 := NodeExecution.set_InputData _ row0).
  destruct (LoadExecutor _) as [executor|e].
  2:{ rewrite (DB_Save_appended w row1) by done. intros [= <- <- <-].
      split; [done|]. right. eexists _, _. split; [reflexivity|].
      split; [done|]. split; [done|]. split; [done|]. by left. }
  destruct (json_Unmarshal _) as [config|e].
  2:{ rewrite (DB_Save_appended w row1) by done. intros [= <- <- <-].
      split; [done|]. right. eexists _, _. split; [reflexivity|].
      split; [done|]. split; [done|]. split; [done|]. right. by left. }
  destruct (Execute _ _ _ _) as [result [e|]]; [|done].
  cbn [time_Now]. change (mkWorld _ _ _ _ _ _ _) with (appended w [row1] 2).
  rewrite (DB_Save_appended w row1) by done. intros [= <- <- <-].
  split; [done|]. right. eexists _, _. split; [reflexivity|].
  split; [done|]. split; [done|]. split; [done|]. right. right. by split; [|eexists].
Qed.

(** A step that succeeds leaves one completed step-run more, and the result
    of the node in the context. *)
Lemma nodeStep_completed nodeID w context w1 context1 :
  nodeStep nodeID executionID w context = (w1, context1, None) →
  ∃ row result,
    w1 = appended w [row] 2
    ∧ context1 = set_Result nodeID result context
    ∧ NodeExecution.NodeID row = nodeID
    ∧ completed_row executionID row.
Proof.
  intros Hstep. pose proof (nodeStep_spec nodeID executionID w context) as Hcases.
  rewrite Hstep in Hcases.
  inversion Hcases as [| |row result Hrun Hnode Hstart Hstatus Hdone]; subst_outcome.
  exists row, result. by repeat split.
Qed.

Lemma nodeStep_grown nodeID w context w1 context1 err :
  nodeStep nodeID executionID w context = (w1, context1, err) →
  grown executionID w w1 (Returned err).
Proof.
  destruct err as [err|]; intros Hstep.
  - apply nodeStep_failed in Hstep as [_ [->|(row & ticks & -> & _ & Hrow)]].
    + apply grown_refl.
    + by apply grown_failed.
  - apply nodeStep_completed in Hstep as (row & result & -> & _ & _ & Hrow).
    by apply grown_completed.
Qed.

Lemma run_node_grown nodeID w context out :
  run_node executionID nodeID w context out → grown executionID w out.1.1 out.2.
Proof.
  revert nodeID w context out.
  apply (run_node_mut _ executionID
           (fun nodeID w context out => grown executionID w out.1.1 out.2)
           (fun conns w context out => grown executionID w out.1.1 out.2)); simpl.
  - intros. apply grown_refl.
  - intros nodeID w context w1 context1 err Hstep. by eapply nodeStep_grown.
  - intros nodeID w context w1 context1 out Hstep _ IH.
    eapply grown_trans; [|exact IH]. by eapply nodeStep_grown.
  - intros. apply grown_refl.
  - auto.
  - intros conn conns w context w1 context1 out _ _ IHnode _ IH.
    by eapply grown_trans.
  - auto.
Qed.

Lemma run_start_nodes_grown startNodes w context out :
  run_start_nodes executionID startNodes w context out →
  grown executionID w out.1.1 out.2.
Proof.
  induction 1 as [w context
                 |node startNodes w context w1 context1 out Hnode _ IH
                 |node startNodes w context w1 context1 how Hnode _]; simpl.
  - apply grown_refl.
  - eapply grown_trans; [|exact IH]. by apply (run_node_grown _ _ _ _ Hnode).
  - by apply (run_node_grown _ _ _ _ Hnode).
Qed.

(** The results in the context keep step with the completed step-runs. *)
Lemma nodeStep_results_recorded nodeID w context w1 context1 err :
  nodeStep nodeID executionID w context = (w1, context1, err) →
  results_recorded executionID w context → results_recorded executionID w1 context1.
Proof.
  destruct err as [err|]; intros Hstep Hrec n; unfold results_recorded in Hrec.
  - apply nodeStep_failed in Hstep
      as [-> [->|(row & ticks & -> & _ & _ & Hstatus & _)]]; [done|].
    rewrite completed_appended, Hrec. split; [by left|].
    intros [?|(_ & _ & Hcompleted)]; [done|]. by rewrite Hstatus in Hcompleted.
  - apply nodeStep_completed in Hstep
      as (row & result & -> & -> & Hnode & Hrun & Hstatus).
    rewrite completed_appended. simpl.
    destruct (decide (n = nodeID)) as [->|Hne].
    + rewrite lookup_insert_eq. split; [|by eexists]. intros _. by right.
    + rewrite lookup_insert_ne by done. rewrite Hrec. split; [by left|].
      intros [?|(_ & Hn & _)]; [done|]. congruence.
Qed.

Lemma run_node_results_recorded nodeID w context out :
  run_node executionID nodeID w context out →
  results_recorded executionID w context →
  results_recorded executionID out.1.1 out.1.2.
Proof.
  revert nodeID w context out.
  apply (run_node_mut _ executionID
           (fun nodeID w context out =>
              results_recorded executionID w context →
              results_recorded executionID out.1.1 out.1.2)
           (fun conns w context out =>
              results_recorded executionID w context →
              results_recorded executionID out.1.1 out.1.2)); simpl; auto.
  - intros nodeID w context w1 context1 err Hstep. by eapply nodeStep_results_recorded.
  - intros nodeID w context w1 context1 out Hstep _ IH Hrec.
    apply IH. by eapply nodeStep_results_recorded.
Qed.

Lemma run_start_nodes_results_recorded startNodes w context out :
  run_start_nodes executionID startNodes w context out →
  results_recorded executionID w context →
  results_recorded executionID out.1.1 out.1.2.
Proof.
  induction 1 as [w context
                 |node startNodes w context w1 context1 out Hnode _ IH
                 |node startNodes w context w1 context1 how Hnode _]; simpl; auto.
  - intros Hrec. apply IH. by apply (run_node_results_recorded _ _ _ _ Hnode).
  - by apply (run_node_results_recorded _ _ _ _ Hnode).
Qed.

End RowsOfARun.

(** ** How a Run ends *)

Lemma grown_weaken (executionID : nat) (w w' : World) (how : Completion) :
  grown executionID w w' (Returned None) → grown executionID w w' how.
Proof.
  intros (Hruns & Hclock & finished & last & Hrows & Hfinished & ->).
  split; [done|]. split; [done|]. exists finished, [].
  split; [done|]. split; [done|]. destruct how as [[err|]|]; auto.
Qed.

Lemma find_other_after_Save (table : list WorkflowExecution.t)
    (execution' : WorkflowExecution.t) (other : nat) :
  WorkflowExecution.ID execution' ≠ other →
  List.find (fun e => bool_decide (WorkflowExecution.ID e = other))
            ((fun e => if decide (WorkflowExecution.ID e = WorkflowExecution.ID execution')
                       then execution' else e) <$> table)
  = List.find (fun e => bool_decide (WorkflowExecution.ID e = other)) table.
Proof.
  intros Hother. induction table as [|e l IH]; [done|]. simpl.
  destruct (decide (WorkflowExecution.ID e = WorkflowExecution.ID execution')) as [He|He].
  - rewrite !bool_decide_false by congruence. exact IH.
  - destruct (bool_decide (WorkflowExecution.ID e = other)); [done|exact IH].
Qed.

Lemma filter_all_false_on {A} (p : A → bool) (l : list A) :
  (∀ x, x ∈ l → p x = false) → List.filter p l = [].
Proof.
  induction l as [|x l IH]; intros Hp; [done|]. simpl.
  rewrite Hp by left. apply IH. intros y Hy. apply Hp. by right.
Qed.

Lemma run_step_runs_grown (executionID other : nat) (w w' : World) (how : Completion) :
  other ≠ executionID → grown executionID w w' how →
  run_step_runs other w' = run_step_runs other w.
Proof.
  intros Hother (_ & _ & finished & last & Hrows & Hfinished & Hlast).
  unfold run_step_runs. rewrite Hrows, !List.filter_app.
  rewrite (filter_all_false_on _ finished), (filter_all_false_on _ last).
  - by rewrite !app_nil_r.
  - intros row Hrow. apply bool_decide_eq_false.
    destruct how as [[err|]|]; [|by subst; inversion Hrow..].
    destruct Hlast as [->|(row' & -> & Hrun & _)]; [inversion Hrow|].
    apply list_elem_of_singleton in Hrow as ->. congruence.
  - intros row Hrow. apply bool_decide_eq_false.
    destruct (proj1 (Forall_forall _ _) Hfinished row Hrow) as [Hrun _]. congruence.
Qed.

Section WholeRunCases.
Context `{Platform}.

Lemma ExecuteWorkflow_missing (depth executionID : nat) (w : World) :
  DB_First_WorkflowExecution executionID w = None →
  ExecuteWorkflow depth executionID w = (w, Returned (Some ErrRecordNotFound)).
Proof. intros Hrun. unfold ExecuteWorkflow. by rewrite Hrun. Qed.

Lemma ExecuteWorkflow_cases (depth executionID : nat) (execution : WorkflowExecution.t)
    (w : World) :
  DB_First_WorkflowExecution executionID w = Some execution →
  ∃ w2 execution2 how,
    workflow_cases depth execution w w2 execution2 how
    ∧ ExecuteWorkflow depth executionID w
      = (match how with
         | StackOverflow => w2
         | Returned err => closed err execution2 w2
         end, how).
Proof.
  intros Hrun. unfold ExecuteWorkflow. rewrite Hrun. cbn [time_Now].
  unfold executeWorkflowInternal.
  change (startNodesOf _ _) with (start_nodes execution w).
  change (DB_Save_WorkflowExecution (WorkflowExecution.set_running (clock w) execution) _)
    with (started execution w).
  destruct (decide (length (start_nodes execution w) = 0)) as [Hnone|Hsome].
  { eexists _, _, _.
    split; [apply case_no_start_nodes; by destruct (start_nodes execution w)|reflexivity]. }
  assert (Hstart_nodes : start_nodes execution w ≠ []).
  { intros Heq. by rewrite Heq in Hsome. }
  change (WorkflowExecution.InputData (WorkflowExecution.set_running _ _))
    with (WorkflowExecution.InputData execution).
  destruct (json_Unmarshal _) as [input|err] eqn:Hinput.
  2:{ eexists _, _, _. split; [by apply case_bad_input|reflexivity]. }
  change (WorkflowExecution.ID (WorkflowExecution.set_running _ _))
    with (WorkflowExecution.ID execution).
  destruct (executeStartNodes _ _ _ _ _) as [[w2 context2] [[err|]|]] eqn:Hstart.
  - eexists _, _, _. split; [by eapply case_node_failed|reflexivity].
  - destruct (json_Marshal_Results _) as [outputJSON|err] eqn:Houtput.
    + eexists _, _, _. split; [by eapply case_completed|reflexivity].
    + eexists _, _, _. split; [by eapply case_bad_output|reflexivity].
  - eexists _, _, _. split; [by eapply case_overflow|reflexivity].
Qed.

(** Whichever way the Run goes, the store has grown by step-runs of the
    Run, and the struct of the Run is the one marked as running, but for the
    output. *)
Lemma workflow_cases_grown (depth : nat) (execution execution2 : WorkflowExecution.t)
    (w w2 : World) (how : Completion) :
  workflow_cases depth execution w w2 execution2 how →
  grown (WorkflowExecution.ID execution) (started execution w) w2 how
  ∧ same_graph w w2
  ∧ WorkflowExecution.ID execution2 = WorkflowExecution.ID execution
  ∧ WorkflowExecution.StartedAt execution2 = clock w
  ∧ WorkflowExecution.ErrorMessage execution2 = WorkflowExecution.ErrorMessage execution.
Proof.
  assert (Hruns : ∀ input w2 context2 how2,
             executeStartNodes depth (start_nodes execution w)
               (WorkflowExecution.ID execution) (started execution w)
               (NewExecutionContext input) = (w2, context2, how2) →
             grown (WorkflowExecution.ID execution) (started execution w) w2 how2
             ∧ same_graph w w2).
  { intros input w3 context3 how3 Hstart.
    pose proof (executeStartNodes_runs (WorkflowExecution.ID execution) depth
                  (start_nodes execution w) (started execution w)
                  (NewExecutionContext input)) as Hrun.
    rewrite Hstart in Hrun. split.
    - by apply run_start_nodes_grown in Hrun.
    - by apply run_start_nodes_same_graph in Hrun. }
  destruct 1 as [Hnone|err Hsome Hinput|input w2 context2 Hsome Hinput Hstart
                 |input w2 context2 err Hsome Hinput Hstart
                 |input w2 context2 err Hsome Hinput Hstart Houtput
                 |input w2 context2 outputJSON Hsome Hinput Hstart Houtput].
  - split; [apply grown_refl|]. by repeat split.
  - split; [apply grown_refl|]. by repeat split.
  - destruct (Hruns _ _ _ _ Hstart) as [Hgrown Hgraph].
    split; [done|]. split; [done|]. by repeat split.
  - destruct (Hruns _ _ _ _ Hstart) as [Hgrown Hgraph].
    split; [done|]. split; [done|]. by repeat split.
  - destruct (Hruns _ _ _ _ Hstart) as [Hgrown Hgraph].
    split; [by apply grown_weaken|]. split; [done|]. by repeat split.
  - destruct (Hruns _ _ _ _ Hstart) as [Hgrown Hgraph].
    split; [done|]. split; [done|]. by repeat split.
Qed.

Lemma closed_row (executionID : nat) (execution execution2 : WorkflowExecution.t)
    (w w2 : World) (err : option error) :
  DB_First_WorkflowExecution executionID w = Some execution →
  workflow_executions w2 = workflow_executions (started execution w) →
  WorkflowExecution.ID execution2 = WorkflowExecution.ID execution →
  DB_First_WorkflowExecution executionID (closed err execution2 w2)
  = Some (match err with
          | Some e =>
              WorkflowExecution.set_failed e
                (WorkflowExecution.set_CompletedAt (clock w2) execution2)
          | None =>
              WorkflowExecution.set_completed
                (WorkflowExecution.set_CompletedAt (clock w2) execution2)
          end).
Proof.
  intros Hrun Hruns Hid2. pose proof (First_WorkflowExecution_ID _ _ _ Hrun) as Hid.
  unfold DB_First_WorkflowExecution, closed. simpl. rewrite Hruns. simpl.
  eapply find_after_Save.
  - eapply find_after_Save; [exact Hrun | exact Hid..].
  - destruct err; simpl; congruence.
  - destruct err; simpl; congruence.
Qed.

(** X14: When [ExecuteWorkflow] returns, the row of the Run tells how it went: it
    carries the instant at which the Run was started and a later one at
    which it was completed, the status failed and the text of the error
    when an error is returned, and the status completed otherwise. *)
Theorem run_row_records_the_outcome (depth executionID : nat)
    (execution : WorkflowExecution.t) (w w' : World) (err : option error) :
  DB_First_WorkflowExecution executionID w = Some execution →
  ExecuteWorkflow depth executionID w = (w', Returned err) →
  ∃ run t,
    DB_First_WorkflowExecution executionID w' = Some run
    ∧ WorkflowExecution.StartedAt run = clock w
    ∧ WorkflowExecution.CompletedAt run = Some t
    ∧ clock w < t
    ∧ match err with
      | Some e =>
          WorkflowExecution.Status run = "failed"
          ∧ WorkflowExecution.ErrorMessage run = e
      | None =>
          WorkflowExecution.Status run = "completed"
          ∧ WorkflowExecution.ErrorMessage run = WorkflowExecution.ErrorMessage execution
      end.
Proof.
  intros Hrun Hexec.
  destruct (ExecuteWorkflow_cases depth executionID execution w Hrun)
    as (w2 & execution2 & how & Hcases & Heq).
  rewrite Heq in Hexec. injection Hexec as <- ->.
  apply workflow_cases_grown in Hcases
    as ((Hruns & Hclock & _) & _ & Hid2 & Hstarted & Hmessage).
  eexists _, (clock w2).
  split; [by apply (closed_row executionID execution execution2 w w2)|].
  simpl in Hclock. destruct err as [e|]; simpl; repeat split; try done; lia.
Qed.


(** X16: A Run leaves the rest of the store alone: the tables of workflows,
    nodes, node types and connections, the rows of the other Runs and their
    step-runs are what they were. *)
Theorem other_runs_are_left_alone (depth executionID other : nat) (w : World) :
  other ≠ executionID →
  let w' := (ExecuteWorkflow depth executionID w).1 in
  same_graph w w'
  ∧ DB_First_WorkflowExecution other w' = DB_First_WorkflowExecution other w
  ∧ run_step_runs other w' = run_step_runs other w.
Proof.
  intros Hother w'. subst w'.
  destruct (DB_First_WorkflowExecution executionID w) as [execution|] eqn:Hrun.
  2:{ rewrite ExecuteWorkflow_missing by done. by repeat split. }
  pose proof (First_WorkflowExecution_ID _ _ _ Hrun) as Hid.
  destruct (ExecuteWorkflow_cases depth executionID execution w Hrun)
    as (w2 & execution2 & how & Hcases & ->).
  apply workflow_cases_grown in Hcases as (Hgrown & Hgraph & Hid2 & _).
  rewrite Hid in Hgrown, Hid2. simpl.
  assert (Hfirst : DB_First_WorkflowExecution other w2
                   = DB_First_WorkflowExecution other w).
  { destruct Hgrown as (Hruns & _). unfold DB_First_WorkflowExecution.
    rewrite Hruns. simpl.
    apply (find_other_after_Save (workflow_executions w)
             (WorkflowExecution.set_running (clock w) execution)).
    simpl. congruence. }
  assert (Hsteps : run_step_runs other w2 = run_step_runs other w)
    by apply (run_step_runs_grown _ _ _ _ _ Hother Hgrown).
  destruct how as [err|]; [|done].
  split; [done|]. split; [|exact Hsteps].
  rewrite <- Hfirst. unfold DB_First_WorkflowExecution, closed. simpl.
  apply (find_other_after_Save (workflow_executions w2)
           (match err with
            | Some e => WorkflowExecution.set_failed e
                          (WorkflowExecution.set_CompletedAt (clock w2) execution2)
            | None => WorkflowExecution.set_completed
                        (WorkflowExecution.set_CompletedAt (clock w2) execution2)
            end)).
  destruct err; simpl; congruence.
Qed.

(** X17: An input document of the Run that is not a JSON object fails the Run
    before any node is executed: no step-run is created, and the row of the
    Run carries the error of the decoder. *)
Theorem bad_input_fails_before_any_step (depth executionID : nat)
    (execution : WorkflowExecution.t) (w : World) (err : error) :
  DB_First_WorkflowExecution executionID w = Some execution →
  start_nodes execution w ≠ [] →
  json_Unmarshal (WorkflowExecution.InputData execution) = inr err →
  ∃ w' run,
    ExecuteWorkflow depth executionID w
    = (w', Returned (Some ("failed to parse input data: " +:+ err)))
    ∧ node_executions w' = node_executions w
    ∧ DB_First_WorkflowExecution executionID w' = Some run
    ∧ WorkflowExecution.Status run = "failed"
    ∧ WorkflowExecution.ErrorMessage run = "failed to parse input data: " +:+ err.
Proof.
  intros Hrun Hsome Hinput.
  destruct (ExecuteWorkflow_cases depth executionID execution w Hrun)
    as (w2 & execution2 & how & Hcases & ->).
  destruct Hcases; try congruence.
  assert (err0 = err) as -> by congruence.
  eexists _, _. split; [reflexivity|]. split; [reflexivity|].
  split; [by apply (closed_row executionID execution _ w _)|]. done.
Qed.

(** X18: The output of a Run that completes holds the results of the nodes that
    were executed, and of no other node: the row of the Run carries the
    encoding of a table with an entry for exactly the nodes that have a
    step-run. *)
Theorem output_holds_the_executed_nodes (depth executionID : nat)
    (execution : WorkflowExecution.t) (w w' : World) :
  DB_First_WorkflowExecution executionID w = Some execution →
  fresh_run executionID w →
  ExecuteWorkflow depth executionID w = (w', Returned None) →
  ∃ run results,
    DB_First_WorkflowExecution executionID w' = Some run
    ∧ json_Marshal_Results results = inl (WorkflowExecution.OutputData run)
    ∧ ∀ n, is_Some (results !! n) ↔ step_runs executionID n w' ≠ [].
Proof.
  intros Hrun Hfresh Hexec.
  pose proof (First_WorkflowExecution_ID _ _ _ Hrun) as Hid.
  destruct (ExecuteWorkflow_cases depth executionID execution w Hrun)
    as (w2 & execution2 & how & Hcases & Heq).
  rewrite Heq in Hexec. injection Hexec as <- ->.
  pose proof (workflow_cases_grown _ _ _ _ _ _ Hcases)
    as ((Hruns & _ & finished & last & Hrows & Hfinished & ->) & _ & Hid2 & _).
  rewrite Hid in Hfinished. rewrite app_nil_r in Hrows. simpl in Hrows.
  inversion Hcases as [| | | | |input w3 context2 outputJSON Hsome Hinput Hstart Houtput];
    subst.
  exists (WorkflowExecution.set_completed
            (WorkflowExecution.set_CompletedAt (clock w2)
               (WorkflowExecution.set_OutputData outputJSON
                  (WorkflowExecution.set_running (clock w) execution)))),
         (Results context2).
  split; [by apply (closed_row _ execution _ w _ None)|]. split; [exact Houtput|].
  pose proof (executeStartNodes_runs (WorkflowExecution.ID execution) depth
                (start_nodes execution w) (started execution w)
                (NewExecutionContext input)) as Hruns'.
  rewrite Hstart in Hruns'.
  apply run_start_nodes_results_recorded in Hruns'.
  2:{ intros n. simpl. rewrite lookup_empty. split; [by intros [? ?]|].
      intros Hn. by destruct (fresh_run_not_completed _ n w Hfresh). }
  intros n. rewrite (Hruns' n). simpl. rewrite completed_iff. split.
  - intros (r & Hr & Hr_run & Hr_node & _) Hempty.
    assert (Hin : r ∈ step_runs (WorkflowExecution.ID execution) n
                      (closed None (WorkflowExecution.set_OutputData outputJSON
                         (WorkflowExecution.set_running (clock w) execution)) w2))
      by (by apply elem_of_step_runs).
    rewrite Hempty in Hin. inversion Hin.
  - intros Hsteps.
    destruct (step_runs _ n _) as [|r l] eqn:Hl; [done|].
    assert (Hin : r ∈ step_runs (WorkflowExecution.ID execution) n
                      (closed None (WorkflowExecution.set_OutputData outputJSON
                         (WorkflowExecution.set_running (clock w) execution)) w2))
      by (rewrite Hl; left).
    apply elem_of_step_runs in Hin as (Hr & Hr_run & Hr_node). simpl in Hr.
    exists r. split; [done|]. split; [done|]. split; [done|].
    rewrite Hrows in Hr. apply elem_of_app in Hr as [Hr|Hr].
    + by destruct (fresh_run_no_row _ _ _ Hfresh Hr).
    + by destruct (proj1 (Forall_forall _ _) Hfinished r Hr).
Qed.

End WholeRunCases.

(** ** Nodes on a cycle *)

Lemma tc_last {A} (R : relation A) (x y : A) : tc R x y → ∃ z, rtc R x z ∧ R z y.
Proof.
  induction 1 as [x y Hxy|x y z Hxy _ (u & Hyu & Huz)]; [by exists x|].
  exists u. split; [by eapply rtc_l|done].
Qed.

Lemma Acc_no_cycle {A} (R : relation A) (x : A) : Acc R x → ¬ tc R x x.
Proof.
  induction 1 as [x _ IH]. intros (z & Hxz & Hzx)%tc_last.
  apply (IH z Hzx). eapply tc_rtc_r; [by apply tc_once|done].
Qed.

Lemma Acc_rtc {A} (R : relation A) (x y : A) : rtc R x y → Acc R y → Acc R x.
Proof.
  induction 1 as [|x y z Hxy _ IH]; [done|]. intros Hz. by apply (Acc_inv (IH Hz)).
Qed.

Section Grounded.
Context `{Platform}.
Variables (executionID : nat) (execution : WorkflowExecution.t) (w0 : World).
Hypothesis within : connections_within_workflow execution w0.

Local Abbreviation only_grounded := (only_grounded executionID execution w0).

(** A node whose inputs are ready is grounded: the sources of its
    connections have step-runs. *)
Lemma ready_grounded n w :
  only_grounded w → ready executionID n w → Acc (edge execution w0) n.
Proof.
  intros [(_ & _ & _ & Hconns) Hrows] Hready. constructor.
  intros p (c & Hc & <- & <-).
  apply workflow_connection_in_store in Hc. rewrite <- Hconns in Hc.
  pose proof (Hready c Hc eq_refl) as Hsource.
  apply completed_iff in Hsource as (r & Hr & Hrun & Hnode & _).
  rewrite <- Hnode. by apply Hrows.
Qed.

Lemma nodeStep_only_grounded n w context w1 context1 err :
  only_grounded w → ready executionID n w →
  nodeStep n executionID w context = (w1, context1, err) → only_grounded w1.
Proof.
  intros Hinv Hready Hstep. pose proof (ready_grounded n w Hinv Hready) as Hn.
  destruct Hinv as [Hgraph Hrows]. split.
  { eapply same_graph_trans; [exact Hgraph|]. by eapply nodeStep_same_graph. }
  pose proof (nodeStep_spec n executionID w context) as Hcases.
  rewrite Hstep in Hcases.
  inversion Hcases as [|row e ticks Hrun Hnode Hstart Hstatus Hticks
                       |row result Hrun Hnode Hstart Hstatus Hdone]; subst_outcome.
  - done.
  - intros r [Hr|Hr]%elem_of_appended Hr_run; [by apply Hrows|].
    apply list_elem_of_singleton in Hr as ->. done.
  - intros r [Hr|Hr]%elem_of_appended Hr_run; [by apply Hrows|].
    apply list_elem_of_singleton in Hr as ->. done.
Qed.


(** A start node has no connection into it, so its inputs are ready. *)
Lemma start_node_ready node w :
  same_graph w0 w → node ∈ start_nodes execution w0 →
  ready executionID (Node.ID node) w.
Proof.
  intros (_ & _ & _ & Hconns) [Hnode Hsource]%elem_of_start_nodes c Hc Htarget.
  rewrite Hconns in Hc. destruct (within c Hc) as (Hc' & _).
  { right. rewrite Htarget. apply list_elem_of_fmap. by exists node. }
  by destruct (Hsource c Hc').
Qed.

Lemma run_start_nodes_only_grounded w context out :
  run_start_nodes executionID (start_nodes execution w0) w context out →
  only_grounded w → only_grounded out.1.1.
Proof.
  intros Hrun Hinv.
  apply (run_start_nodes_keeps executionID only_grounded (ready executionID))
    with (3 := Hrun); [| |done|].
  - intros n w1 context1 w2 context2 err. apply nodeStep_only_grounded.
  - intros n w1 context1 w2 context2 conn w3 _ _ _ _ _ Hready.
    by apply allInputsReady_spec.
  - intros node w2 Hnode [Hgraph _]. by apply start_node_ready.
Qed.

(** *** The recursion ends, cycle or no cycle *)




End Grounded.

Section CyclicWorkflows.
Context `{Platform}.

Lemma fresh_run_only_grounded (executionID : nat) (execution : WorkflowExecution.t)
    (w : World) :
  fresh_run executionID w →
  only_grounded executionID execution w (started execution w).
Proof.
  intros Hfresh. split; [by repeat split|].
  intros r Hr Hr_run. by destruct (fresh_run_no_row _ _ _ Hfresh Hr).
Qed.

(** X19: A node on a cycle of connections, or reached from such a node, is never
    executed: its inputs never become ready.  The Run leaves no step-run of
    it, however the Run ends. *)
Theorem nodes_behind_a_cycle_are_never_executed (depth executionID : nat)
    (execution : WorkflowExecution.t) (w w' : World) (how : Completion) (m n : nat) :
  DB_First_WorkflowExecution executionID w = Some execution →
  connections_within_workflow execution w →
  fresh_run executionID w →
  ExecuteWorkflow depth executionID w = (w', how) →
  tc (edge execution w) m m →
  rtc (edge execution w) m n →
  step_runs executionID n w' = [].
Proof.
  intros Hrun Hwithin Hfresh Hexec Hcycle Hpath.
  pose proof (First_WorkflowExecution_ID _ _ _ Hrun) as Hid.
  destruct (ExecuteWorkflow_cases depth executionID execution w Hrun)
    as (w2 & execution2 & how' & Hcases & Heq).
  rewrite Heq in Hexec. injection Hexec as <- <-.
  assert (Hinv : only_grounded executionID execution w w2).
  { assert (Hruns : ∀ input context2 how2,
               executeStartNodes depth (start_nodes execution w)
                 (WorkflowExecution.ID execution) (started execution w)
                 (NewExecutionContext input) = (w2, context2, how2) →
               only_grounded executionID execution w w2).
    { intros input context2 how2 Hstart.
      pose proof (executeStartNodes_runs executionID depth (start_nodes execution w)
                    (started execution w) (NewExecutionContext input)) as Hruns.
      rewrite Hid in Hstart. rewrite Hstart in Hruns.
      apply (run_start_nodes_only_grounded executionID execution w Hwithin) in Hruns;
        [done|]. by apply fresh_run_only_grounded. }
    destruct Hcases; eauto using fresh_run_only_grounded. }
  destruct (step_runs executionID n _) as [|r l] eqn:Hl; [done|]. exfalso.
  assert (Hr : r ∈ step_runs executionID n
                 (match how' with
                  | Returned err => closed err execution2 w2
                  | StackOverflow => w2
                  end)) by (rewrite Hl; left).
  apply elem_of_step_runs in Hr as (Hr & Hr_run & Hr_node).
  assert (Hr2 : r ∈ node_executions w2) by (by destruct how').
  destruct Hinv as [_ Hrows]. pose proof (Hrows r Hr2 Hr_run) as Hacc.
  rewrite Hr_node in Hacc.
  by apply (Acc_no_cycle _ _ (Acc_rtc _ _ _ Hpath Hacc)).
Qed.


End CyclicWorkflows.

(** ** A Run whose first node cannot be executed *)

Section FirstNodeFails.
Context `{Platform}.

Lemma first_start_node_stops (depth executionID : nat) (execution : WorkflowExecution.t)
    (w w1 : World) (node : Node.t) (rest : list Node.t) (input : gmap string Value)
    (context1 : ExecutionContext) (err : error) :
  DB_First_WorkflowExecution executionID w = Some execution →
  start_nodes execution w = node :: rest →
  json_Unmarshal (WorkflowExecution.InputData execution) = inl input →
  nodeStep (Node.ID node) executionID (started execution w) (NewExecutionContext input)
  = (w1, context1, Some err) →
  1 ≤ depth →
  ExecuteWorkflow depth executionID w
  = (closed (Some err) (WorkflowExecution.set_running (clock w) execution) w1,
     Returned (Some err)).
Proof.
  intros Hrun Hstart Hinput Hstep Hdepth.
  pose proof (First_WorkflowExecution_ID _ _ _ Hrun) as Hid.
  destruct depth as [|depth]; [lia|].
  unfold ExecuteWorkflow. rewrite Hrun. cbn [time_Now]. unfold executeWorkflowInternal.
  change (startNodesOf _ _) with (start_nodes execution w).
  change (DB_Save_WorkflowExecution (WorkflowExecution.set_running (clock w) execution) _)
    with (started execution w).
  rewrite Hstart. simpl length. destruct (decide (S (length rest) = 0)) as [|_]; [done|].
  change (WorkflowExecution.InputData (WorkflowExecution.set_running _ _))
    with (WorkflowExecution.InputData execution).
  rewrite Hinput.
  change (WorkflowExecution.ID (WorkflowExecution.set_running _ _))
    with (WorkflowExecution.ID execution).
  rewrite Hid. cbn [executeStartNodes]. rewrite executeNode_unfold, Hstep.
  reflexivity.
Qed.

Lemma nodeStep_loader_fails (nodeID executionID : nat) (w : World)
    (context : ExecutionContext) (node : Node.t) (nodeType : NodeType.t) (err : error) :
  DB_First_Node nodeID w = Some node →
  DB_First_NodeType (Node.NodeType node) w = Some nodeType →
  LoadExecutor (NodeType.ExecutorClass nodeType) = inr err →
  ∃ row,
    nodeStep nodeID executionID w context = (appended w [row] 1, context, Some err)
    ∧ NodeExecution.WorkflowExecutionID row = executionID
    ∧ NodeExecution.NodeID row = nodeID
    ∧ NodeExecution.Status row = "failed"
    ∧ NodeExecution.ErrorMessage row = "failed to load executor: " +:+ err
    ∧ NodeExecution.StartedAt row = Some (clock w)
    ∧ NodeExecution.CompletedAt row = None.
Proof.
  intros Hnode Htype Hload.
  unfold nodeStep. rewrite Hnode, Htype. cbn [time_Now DB_Create_NodeExecution].
  set (row0 := NodeExecution.set_ID _ _).
  change (with_node_executions _ _) with (appended w [row0] 1).
  rewrite (DB_Save_appended w row0) by done.
  set (row1 := NodeExecution.set_InputData _ row0).
  rewrite Hload. rewrite (DB_Save_appended w row1) by done.
  eexists. split; [reflexivity|]. by repeat split.
Qed.

(** X21: A start node whose type is not in the table of node types fails the
    Run with the error of the store, and leaves no step-run behind: the
    lookup comes before the step-run is created. *)
Theorem missing_node_type_fails_without_a_step_run (depth executionID : nat)
    (execution : WorkflowExecution.t) (w : World) (node node' : Node.t)
    (rest : list Node.t) (input : gmap string Value) :
  DB_First_WorkflowExecution executionID w = Some execution →
  start_nodes execution w = node :: rest →
  json_Unmarshal (WorkflowExecution.InputData execution) = inl input →
  DB_First_Node (Node.ID node) w = Some node' →
  DB_First_NodeType (Node.NodeType node') w = None →
  1 ≤ depth →
  ∃ w' run,
    ExecuteWorkflow depth executionID w = (w', Returned (Some "record not found"))
    ∧ node_executions w' = node_executions w
    ∧ DB_First_WorkflowExecution executionID w' = Some run
    ∧ WorkflowExecution.Status run = "failed"
    ∧ WorkflowExecution.ErrorMessage run = "record not found".
Proof.
  intros Hrun Hstart Hinput Hnode Htype Hdepth.
  assert (Hstep : nodeStep (Node.ID node) executionID (started execution w)
                    (NewExecutionContext input)
                  = (started execution w, NewExecutionContext input,
                     Some ErrRecordNotFound)).
  { unfold nodeStep.
    change (DB_First_Node (Node.ID node) (started execution w))
      with (DB_First_Node (Node.ID node) w). rewrite Hnode.
    change (DB_First_NodeType (Node.NodeType node') (started execution w))
      with (DB_First_NodeType (Node.NodeType node') w). by rewrite Htype. }
  rewrite (first_start_node_stops depth executionID execution w _ node rest input _ _
             Hrun Hstart Hinput Hstep Hdepth).
  eexists _, _. split; [reflexivity|]. split; [reflexivity|].
  split; [by apply (closed_row executionID execution _ w _)|]. done.
Qed.

(** X22: A start node for whose type no executor can be loaded (an unknown
    executor class, or a plugin that does not load) fails the Run with the
    error of the loader.  Its step-run is the one row added; it has failed,
    it carries that error behind ["failed to load executor: "], and it has
    an instant of start but none of completion. *)
Theorem node_without_executor_fails_without_completion (depth executionID : nat)
    (execution : WorkflowExecution.t) (w : World) (node node' : Node.t)
    (rest : list Node.t) (input : gmap string Value) (nodeType : NodeType.t)
    (err : error) :
  DB_First_WorkflowExecution executionID w = Some execution →
  start_nodes execution w = node :: rest →
  json_Unmarshal (WorkflowExecution.InputData execution) = inl input →
  DB_First_Node (Node.ID node) w = Some node' →
  DB_First_NodeType (Node.NodeType node') w = Some nodeType →
  LoadExecutor (NodeType.ExecutorClass nodeType) = inr err →
  1 ≤ depth →
  ∃ w' run row,
    ExecuteWorkflow depth executionID w = (w', Returned (Some err))
    ∧ DB_First_WorkflowExecution executionID w' = Some run
    ∧ WorkflowExecution.Status run = "failed"
    ∧ WorkflowExecution.ErrorMessage run = err
    ∧ node_executions w' = node_executions w ++ [row]
    ∧ NodeExecution.NodeID row = Node.ID node
    ∧ NodeExecution.Status row = "failed"
    ∧ NodeExecution.ErrorMessage row = "failed to load executor: " +:+ err
    ∧ NodeExecution.StartedAt row = Some (S (clock w))
    ∧ NodeExecution.CompletedAt row = None.
Proof.
  intros Hrun Hstart Hinput Hnode Htype Hload Hdepth.
  destruct (nodeStep_loader_fails (Node.ID node) executionID (started execution w)
              (NewExecutionContext input) node' nodeType err Hnode Htype Hload)
    as (row & Hstep & _ & Hrow_node & Hrow_status & Hrow_error & Hrow_start & Hrow_end).
  rewrite (first_start_node_stops depth executionID execution w _ node rest input _ _
             Hrun Hstart Hinput Hstep Hdepth).
  eexists _, _, row. split; [reflexivity|].
  split; [by apply (closed_row executionID execution _ w _)|].
  by repeat split.
Qed.

End FirstNodeFails.

(** ** More on the task queue *)

Section MoreOnTheQueue.
Context `{Codec}.

(** X23: The queue is first in, first out: a task that is put on a queue on
    which envelopes wait goes behind them, and the next [DequeueTask] returns
    the oldest of them and leaves the others and the new one in their
    order. *)
Theorem oldest_task_is_dequeued_first (r : Redis) (queueName taskType : string)
    (payload : Value) (timeout : nat) (payloadBytes taskBytes oldest : string)
    (waiting : list string) (task : TaskMessage.t) :
  failure r = None →
  lists r !! queueName = Some (oldest :: waiting) →
  json_Unmarshal_TaskMessage oldest = inl task →
  json_Marshal_payload payload = inl payloadBytes →
  json_Marshal_TaskMessage (TaskMessage.mk taskType payloadBytes) = inl taskBytes →
  ∃ r' r'',
    EnqueueTask queueName taskType payload r = (r', None)
    ∧ DequeueTask queueName timeout r' = Some (r'', Some task, None)
    ∧ lists r'' !! queueName = Some (waiting ++ [taskBytes]).
Proof.
  intros Hup Hqueue Holdest Hpayload Htask.
  unfold EnqueueTask, RPush. rewrite Hpayload, Htask, Hup, Hqueue. simpl.
  eexists _, _. split; [reflexivity|].
  unfold DequeueTask, BLPop. simpl. rewrite lookup_insert_eq. simpl.
  rewrite Holdest. split; [reflexivity|].
  destruct waiting; simpl; by rewrite lookup_insert_eq.
Qed.

(** X24: [DequeueTask] does not invent a task: the task it returns is the
    decoded head of the queue, which is removed, and it comes without an
    error. *)
Theorem dequeued_task_was_the_head (r r' : Redis) (queueName : string) (timeout : nat)
    (task : TaskMessage.t) (err : option error) :
  DequeueTask queueName timeout r = Some (r', Some task, err) →
  err = None
  ∧ ∃ head waiting,
      lists r !! queueName = Some (head :: waiting)
      ∧ json_Unmarshal_TaskMessage head = inl task
      ∧ default [] (lists r' !! queueName) = waiting.
Proof.
  unfold DequeueTask, BLPop. destruct (failure r) as [e|].
  { by destruct (decide (e = redis_Nil)). }
  destruct (lists r !! queueName) as [[|head waiting]|] eqn:Hqueue; simpl.
  - destruct (decide (timeout = 0)); [done|]. by rewrite decide_True.
  - destruct (json_Unmarshal_TaskMessage head) as [task'|e] eqn:Hhead; [|done].
    intros [= <- <- <-]. split; [done|]. exists head, waiting.
    split; [done|]. split; [done|]. simpl.
    destruct waiting; [by rewrite lookup_delete_eq | by rewrite lookup_insert_eq].
  - destruct (decide (timeout = 0)); [done|]. by rewrite decide_True.
Qed.

(** X25: An envelope that cannot be decoded is lost: [DequeueTask] reports the
    error of the decoder, and the envelope is no longer on the queue. *)
Theorem undecodable_task_is_dropped (r : Redis) (queueName : string) (timeout : nat)
    (head : string) (waiting : list string) (err : error) :
  failure r = None →
  lists r !! queueName = Some (head :: waiting) →
  json_Unmarshal_TaskMessage head = inr err →
  ∃ r', DequeueTask queueName timeout r
        = Some (r', None, Some ("failed to unmarshal task: " +:+ err))
        ∧ default [] (lists r' !! queueName) = waiting.
Proof.
  intros Hup Hqueue Hhead. unfold DequeueTask, BLPop. rewrite Hup, Hqueue. simpl.
  rewrite Hhead. eexists. split; [reflexivity|]. simpl.
  destruct waiting; [by rewrite lookup_delete_eq | by rewrite lookup_insert_eq].
Qed.

(** X26: [EnqueueTask] pushes one envelope or nothing: when it returns an error
    the server is as it was, and otherwise the one change is the encoded
    envelope at the end of the queue. *)
Theorem enqueue_pushes_one_envelope_or_nothing (r : Redis)
    (queueName taskType : string) (payload : Value) :
  let out := EnqueueTask queueName taskType payload r in
  match out.2 with
  | Some _ => out.1 = r
  | None =>
      ∃ payloadBytes taskBytes,
        json_Marshal_payload payload = inl payloadBytes
        ∧ json_Marshal_TaskMessage (TaskMessage.mk taskType payloadBytes) = inl taskBytes
        ∧ lists out.1
          = <[queueName := default [] (lists r !! queueName) ++ [taskBytes]]> (lists r)
  end.
Proof.
  unfold EnqueueTask, RPush.
  destruct (json_Marshal_payload payload) as [payloadBytes|e]; [|done].
  destruct (json_Marshal_TaskMessage _) as [taskBytes|e] eqn:Htask; [|done].
  destruct (failure r); simpl; [done|]. by exists payloadBytes, taskBytes.
Qed.

(** X27: The queues do not touch one another: neither [EnqueueTask] nor
    [DequeueTask] on one queue changes what waits on another. *)
Theorem queues_do_not_interfere (r : Redis) (queueName other taskType : string)
    (payload : Value) (timeout : nat) :
  other ≠ queueName →
  lists (EnqueueTask queueName taskType payload r).1 !! other = lists r !! other
  ∧ ∀ r' task err,
      DequeueTask queueName timeout r = Some (r', task, err) →
      lists r' !! other = lists r !! other.
Proof.
  intros Hother. split.
  - unfold EnqueueTask, RPush.
    destruct (json_Marshal_payload payload); [|done].
    destruct (json_Marshal_TaskMessage _); [|done].
    destruct (failure r); simpl; [done|]. by rewrite lookup_insert_ne.
  - intros r' task err. unfold DequeueTask, BLPop. destruct (failure r) as [e|].
    { destruct (decide (e = redis_Nil)); by intros [= <- _ _]. }
    destruct (lists r !! queueName) as [[|head waiting]|]; simpl.
    + destruct (decide (timeout = 0)); [done|]. rewrite decide_True by done.
      by intros [= <- _ _].
    + assert (Hrest : lists (mkRedis match waiting with
                                     | [] => delete queueName (lists r)
                                     | _ :: _ => <[queueName:=waiting]> (lists r)
                                     end None) !! other = lists r !! other).
      { simpl. destruct waiting;
          [by rewrite lookup_delete_ne | by rewrite lookup_insert_ne]. }
      destruct (json_Unmarshal_TaskMessage head); by intros [= <- _ _].
    + destruct (decide (timeout = 0)); [done|]. rewrite decide_True by done.
      by intros [= <- _ _].
Qed.

End MoreOnTheQueue.


(** ** The envelope of a task in JSON *)

(** Arithmetic with quotients and remainders by constants. *)
Ltac euclid := zify; Z.to_euclidean_division_equations; lia.

Section Bits.
Local Open Scope N_scope.

(** [x | y] adds when [y] lies below the bits of [x]. *)
Lemma lor_add (n x y : N) : x mod 2 ^ n = 0 → y < 2 ^ n → N.lor x y = x + y.
Proof.
  intros Hx Hy.
  assert (Hland : N.land x y = 0).
  { apply N.bits_inj. intros m. rewrite N.land_spec, N.bits_0.
    destruct (N.lt_ge_cases m n) as [Hm|Hm].
    - rewrite (N.div_mod x (2 ^ n)) by (apply N.pow_nonzero; lia).
      rewrite Hx, N.add_0_r, N.mul_comm, N.mul_pow2_bits_low by done. done.
    - rewrite <- (N.mod_small y (2 ^ n)) by done.
      rewrite N.mod_pow2_bits_high by done. apply andb_false_r. }
  rewrite N.add_nocarry_lxor by done. symmetry. by apply N.lxor_lor.
Qed.

Lemma land_63 (x : N) : N.land x 63 = x mod 64.
Proof. apply (N.land_ones x 6). Qed.
Lemma land_31 (x : N) : N.land x 31 = x mod 32.
Proof. apply (N.land_ones x 5). Qed.
Lemma land_15 (x : N) : N.land x 15 = x mod 16.
Proof. apply (N.land_ones x 4). Qed.
Lemma land_7 (x : N) : N.land x 7 = x mod 8.
Proof. apply (N.land_ones x 3). Qed.

Lemma shiftl_6 (x : N) : N.shiftl x 6 = x * 64.
Proof. apply (N.shiftl_mul_pow2 x 6). Qed.
Lemma shiftl_12 (x : N) : N.shiftl x 12 = x * 4096.
Proof. apply (N.shiftl_mul_pow2 x 12). Qed.
Lemma shiftl_18 (x : N) : N.shiftl x 18 = x * 262144.
Proof. apply (N.shiftl_mul_pow2 x 18). Qed.
Lemma shiftr_6 (x : N) : N.shiftr x 6 = x / 64.
Proof. apply (N.shiftr_div_pow2 x 6). Qed.
Lemma shiftr_12 (x : N) : N.shiftr x 12 = x / 4096.
Proof. apply (N.shiftr_div_pow2 x 12). Qed.
Lemma shiftr_18 (x : N) : N.shiftr x 18 = x / 262144.
Proof. apply (N.shiftr_div_pow2 x 18). Qed.

End Bits.

Section UTF8Properties.
Local Open Scope N_scope.

Lemma first_cases (p0 : N) (sz : nat) (lo hi : N) :
  first p0 = Some (sz, lo, hi) →
  128 ≤ lo ∧ hi ≤ 191
  ∧ ((sz = 2%nat ∧ 194 ≤ p0 ≤ 223 ∧ lo = 128 ∧ hi = 191)
     ∨ (sz = 3%nat ∧ 224 ≤ p0 ≤ 239 ∧ (p0 = 224 → 160 ≤ lo) ∧ (p0 = 237 → hi ≤ 159))
     ∨ (sz = 4%nat ∧ 240 ≤ p0 ≤ 244 ∧ (p0 = 240 → 144 ≤ lo) ∧ (p0 = 244 → hi ≤ 143))).
Proof.
  unfold first. intros Hfirst.
  repeat match type of Hfirst with
         | (if ?c then _ else _) = _ => destruct c eqn:?
         end; try discriminate; injection Hfirst as <- <- <-;
    repeat match goal with
           | E : _ && _ = true |- _ => apply andb_true_iff in E as [? ?]
           | E : (_ <=? _) = true |- _ => apply N.leb_le in E
           | E : (_ =? _) = true |- _ => apply N.eqb_eq in E
           end; lia.
Qed.

Lemma outside_false (lo hi b : N) : outside lo hi b = false → lo ≤ b ≤ hi.
Proof.
  unfold outside. intros [H1 H2]%orb_false_iff.
  apply N.ltb_ge in H1, H2. lia.
Qed.

Lemma string_of_Ns_cons (b : N) (l : list N) :
  string_of_Ns (b :: l) = String (ascii_of_N b) (string_of_Ns l).
Proof. reflexivity. Qed.

Lemma ascii_of_byte (a : ascii) (b : N) : b = N_of_ascii a → ascii_of_N b = a.
Proof. intros ->. apply ascii_N_embedding. Qed.

(** The runes of two, three and four bytes, and their bytes back. *)
Lemma rune2 (b0 b1 : N) :
  194 ≤ b0 ≤ 223 → 128 ≤ b1 ≤ 191 →
  let r := N.lor (N.shiftl (N.land b0 31) 6) (N.land b1 63) in
  128 ≤ r ≤ 2047
  ∧ N.lor 192 (N.shiftr r 6) = b0
  ∧ N.lor 128 (N.land r 63) = b1.
Proof.
  intros H0 H1 r. subst r.
  rewrite land_31, shiftl_6, !land_63, shiftr_6.
  assert (E0 : b0 mod 32 = b0 - 192) by euclid.
  assert (E1 : b1 mod 64 = b1 - 128) by euclid.
  rewrite E0, E1. clear E0 E1.
  rewrite (lor_add 6 ((b0 - 192) * 64) (b1 - 128)) by (change (2 ^ 6) with 64; euclid).
  set (r := (b0 - 192) * 64 + (b1 - 128)).
  assert (Hr : r = (b0 - 192) * 64 + (b1 - 128)) by done. clearbody r.
  rewrite (lor_add 6 192) by (change (2 ^ 6) with 64; euclid).
  rewrite (lor_add 6 128) by (change (2 ^ 6) with 64; euclid).
  split; [lia|]. split; euclid.
Qed.

Lemma rune3 (b0 b1 b2 : N) :
  224 ≤ b0 ≤ 239 → 128 ≤ b1 ≤ 191 → 128 ≤ b2 ≤ 191 →
  (b0 = 224 → 160 ≤ b1) → (b0 = 237 → b1 ≤ 159) →
  let r := N.lor (N.lor (N.shiftl (N.land b0 15) 12) (N.shiftl (N.land b1 63) 6))
                 (N.land b2 63) in
  2048 ≤ r ≤ 65535 ∧ ¬ (55296 ≤ r ≤ 57343)
  ∧ N.lor 224 (N.shiftr r 12) = b0
  ∧ N.lor 128 (N.land (N.shiftr r 6) 63) = b1
  ∧ N.lor 128 (N.land r 63) = b2.
Proof.
  intros H0 H1 H2 Hlo Hhi r. subst r.
  rewrite land_15, shiftl_12, !land_63, shiftl_6, shiftr_12, shiftr_6.
  assert (E0 : b0 mod 16 = b0 - 224) by euclid.
  assert (E1 : b1 mod 64 = b1 - 128) by euclid.
  assert (E2 : b2 mod 64 = b2 - 128) by euclid.
  rewrite E0, E1, E2. clear E0 E1 E2.
  rewrite (lor_add 12 ((b0 - 224) * 4096)) by (change (2 ^ 12) with 4096; euclid).
  rewrite (lor_add 6 _ (b2 - 128)) by (change (2 ^ 6) with 64; euclid).
  set (r := (b0 - 224) * 4096 + (b1 - 128) * 64 + (b2 - 128)).
  assert (Hr : r = (b0 - 224) * 4096 + (b1 - 128) * 64 + (b2 - 128)) by done.
  clearbody r.
  rewrite (lor_add 5 224) by (change (2 ^ 5) with 32; euclid).
  rewrite !(lor_add 6 128) by (change (2 ^ 6) with 64; euclid).
  split; [lia|]. split; [lia|]. split; [euclid|]. split; euclid.
Qed.

Lemma rune4 (b0 b1 b2 b3 : N) :
  240 ≤ b0 ≤ 244 → 128 ≤ b1 ≤ 191 → 128 ≤ b2 ≤ 191 → 128 ≤ b3 ≤ 191 →
  (b0 = 240 → 144 ≤ b1) → (b0 = 244 → b1 ≤ 143) →
  let r := N.lor (N.lor (N.lor (N.shiftl (N.land b0 7) 18)
                               (N.shiftl (N.land b1 63) 12))
                        (N.shiftl (N.land b2 63) 6))
                 (N.land b3 63) in
  65536 ≤ r ≤ 1114111
  ∧ N.lor 240 (N.shiftr r 18) = b0
  ∧ N.lor 128 (N.land (N.shiftr r 12) 63) = b1
  ∧ N.lor 128 (N.land (N.shiftr r 6) 63) = b2
  ∧ N.lor 128 (N.land r 63) = b3.
Proof.
  intros H0 H1 H2 H3 Hlo Hhi r. subst r.
  rewrite land_7, shiftl_18, !land_63, shiftl_12, shiftl_6, shiftr_18, shiftr_12,
    shiftr_6.
  assert (E0 : b0 mod 8 = b0 - 240) by euclid.
  assert (E1 : b1 mod 64 = b1 - 128) by euclid.
  assert (E2 : b2 mod 64 = b2 - 128) by euclid.
  assert (E3 : b3 mod 64 = b3 - 128) by euclid.
  rewrite E0, E1, E2, E3. clear E0 E1 E2 E3.
  rewrite (lor_add 18 ((b0 - 240) * 262144)) by (change (2 ^ 18) with 262144; euclid).
  rewrite (lor_add 12 _ ((b2 - 128) * 64)) by (change (2 ^ 12) with 4096; euclid).
  rewrite (lor_add 6 _ (b3 - 128)) by (change (2 ^ 6) with 64; euclid).
  set (r := (b0 - 240) * 262144 + (b1 - 128) * 4096 + (b2 - 128) * 64 + (b3 - 128)).
  assert (Hr : r = (b0 - 240) * 262144 + (b1 - 128) * 4096 + (b2 - 128) * 64
                   + (b3 - 128)) by done.
  clearbody r.
  rewrite (lor_add 4 240) by (change (2 ^ 4) with 16; euclid).
  rewrite !(lor_add 6 128) by (change (2 ^ 6) with 64; euclid).
  split; [lia|]. split; [euclid|]. split; [euclid|]. split; euclid.
Qed.

(** A valid encoding at the head of a string: [utf8.EncodeRune] gives its
    bytes back, and nothing behind them matters. *)
Lemma DecodeRune_head (a0 : ascii) (p1 : string) (r : N) (size : nat) :
  utf8_DecodeRune (String a0 p1) = (r, size) →
  ¬ (r = RuneError ∧ size = 1%nat) →
  (1 ≤ size ≤ String.length (String a0 p1) ∧ size ≤ 4)%nat
  ∧ utf8_EncodeRune r = bytes_upto size (String a0 p1)
  ∧ (∀ tail, utf8_DecodeRune (bytes_upto size (String a0 p1) +:+ tail) = (r, size))
  ∧ (128 ≤ N_of_ascii a0 → 128 ≤ r).
Proof.
  unfold utf8_DecodeRune at 1.
  pose proof (N_ascii_bounded a0) as Hb0. set (b0 := N_of_ascii a0) in *.
  destruct (b0 <? 128) eqn:Hascii.
  { intros [= <- <-] _. apply N.ltb_lt in Hascii.
    split; [simpl; lia|]. split; [|split; [|lia]].
    - unfold utf8_EncodeRune. rewrite (proj2 (N.leb_le b0 127)) by lia.
      rewrite string_of_Ns_cons. by rewrite (ascii_of_byte a0).
    - intros tail. cbn [bytes_upto]. rewrite !append_cons. unfold utf8_DecodeRune. fold b0.
      by rewrite (proj2 (N.ltb_lt b0 128)) by lia. }
  destruct (first b0) as [[[sz lo] hi]|] eqn:Hfirst;
    [|intros [= <- <-] Hvalid; by destruct Hvalid].
  destruct p1 as [|a1 p2]; [intros [= <- <-] Hvalid; by destruct Hvalid|].
  set (b1 := N_of_ascii a1).
  destruct (outside lo hi b1) eqn:Hout1; [intros [= <- <-] Hvalid; by destruct Hvalid|].
  pose proof (outside_false _ _ _ Hout1) as Hb1.
  destruct (first_cases _ _ _ _ Hfirst) as (Hlo & Hhi & Hcases).
  destruct Hcases as [(-> & Hr0 & -> & ->)|[(-> & Hr0 & Hlo' & Hhi')|(-> & Hr0 & Hlo' & Hhi')]].
  - cbn [Nat.leb]. intros [= <- <-] _.
    destruct (rune2 b0 b1 Hr0 Hb1) as (Hr & E0 & E1).
    split; [simpl; lia|]. split; [|split; [|lia]].
    + unfold utf8_EncodeRune. rewrite (proj2 (N.leb_gt _ 127)) by lia.
      rewrite (proj2 (N.leb_le _ 2047)) by lia.
      rewrite !string_of_Ns_cons, E0, E1.
      by rewrite (ascii_of_byte a0), (ascii_of_byte a1).
    + intros tail. cbn [bytes_upto]. rewrite !append_cons. unfold utf8_DecodeRune. fold b0 b1.
      by rewrite Hascii, Hfirst, Hout1.
  - cbn [Nat.leb]. destruct p2 as [|a2 p3]; [intros [= <- <-] Hvalid; by destruct Hvalid|].
    set (b2 := N_of_ascii a2).
    destruct (outside 128 191 b2) eqn:Hout2;
      [intros [= <- <-] Hvalid; by destruct Hvalid|].
    pose proof (outside_false _ _ _ Hout2) as Hb2.
    intros [= <- <-] _.
    destruct (rune3 b0 b1 b2) as (Hr & Hsurrogate & E0 & E1 & E2); try lia.
    split; [simpl; lia|]. split; [|split; [|lia]].
    + unfold utf8_EncodeRune, MaxRune. rewrite (proj2 (N.leb_gt _ 127)) by lia.
      rewrite (proj2 (N.leb_gt _ 2047)) by lia.
      rewrite (proj2 (N.ltb_ge 1114111 _)) by lia.
      replace ((55296 <=? _) && (_ <=? 57343)) with false
        by (symmetry; apply andb_false_iff; rewrite N.leb_gt, N.leb_gt; lia).
      cbn [orb]. rewrite (proj2 (N.leb_le _ 65535)) by lia.
      rewrite !string_of_Ns_cons, E0, E1, E2.
      by rewrite (ascii_of_byte a0), (ascii_of_byte a1), (ascii_of_byte a2).
    + intros tail. cbn [bytes_upto]. rewrite !append_cons. unfold utf8_DecodeRune. fold b0 b1 b2.
      by rewrite Hascii, Hfirst, Hout1, Hout2.
  - cbn [Nat.leb]. destruct p2 as [|a2 p3]; [intros [= <- <-] Hvalid; by destruct Hvalid|].
    set (b2 := N_of_ascii a2).
    destruct (outside 128 191 b2) eqn:Hout2;
      [intros [= <- <-] Hvalid; by destruct Hvalid|].
    pose proof (outside_false _ _ _ Hout2) as Hb2.
    destruct p3 as [|a3 p4]; [intros [= <- <-] Hvalid; by destruct Hvalid|].
    set (b3 := N_of_ascii a3).
    destruct (outside 128 191 b3) eqn:Hout3;
      [intros [= <- <-] Hvalid; by destruct Hvalid|].
    pose proof (outside_false _ _ _ Hout3) as Hb3.
    intros [= <- <-] _.
    destruct (rune4 b0 b1 b2 b3) as (Hr & E0 & E1 & E2 & E3); try lia.
    split; [simpl; lia|]. split; [|split; [|lia]].
    + unfold utf8_EncodeRune, MaxRune. rewrite (proj2 (N.leb_gt _ 127)) by lia.
      rewrite (proj2 (N.leb_gt _ 2047)) by lia.
      rewrite (proj2 (N.ltb_ge 1114111 _)) by lia.
      replace ((55296 <=? _) && (_ <=? 57343)) with false
        by (symmetry; apply andb_false_iff; rewrite N.leb_gt, N.leb_gt; lia).
      cbn [orb]. rewrite (proj2 (N.leb_gt _ 65535)) by lia.
      rewrite !string_of_Ns_cons, E0, E1, E2, E3.
      by rewrite (ascii_of_byte a0), (ascii_of_byte a1), (ascii_of_byte a2),
        (ascii_of_byte a3).
    + intros tail. cbn [bytes_upto]. rewrite !append_cons. unfold utf8_DecodeRune. fold b0 b1 b2 b3.
      by rewrite Hascii, Hfirst, Hout1, Hout2, Hout3.
Qed.

End UTF8Properties.

Section RoundTrip.
Local Open Scope N_scope.

Lemma length_bytes_upto (n : nat) (p : string) :
  (n ≤ String.length p)%nat → String.length (bytes_upto n p) = n.
Proof.
  revert p. induction n as [|n IH]; intros [|a p] Hn; simpl in *; try lia.
  rewrite IH; lia.
Qed.

Lemma bytes_from_upto (n : nat) (p tail : string) :
  (n ≤ String.length p)%nat → bytes_from n (bytes_upto n p +:+ tail) = tail.
Proof.
  revert p. induction n as [|n IH]; intros [|a p] Hn; simpl in *; try lia; try done.
  apply IH. lia.
Qed.

Lemma bytes_upto_from (n : nat) (p : string) : bytes_upto n p +:+ bytes_from n p = p.
Proof.
  revert p. induction n as [|n IH]; intros [|a p]; try done.
  cbn [bytes_upto bytes_from]. rewrite append_cons. by rewrite IH.
Qed.

Lemma length_bytes_from (n : nat) (p : string) :
  String.length (bytes_from n p) = (String.length p - n)%nat.
Proof. revert p. induction n as [|n IH]; intros [|a p]; simpl; try done. Qed.

(** An ASCII byte: what [appendString] writes for it is read back as that
    byte. *)
Lemma ascii_step (a : ascii) (src tail : string) :
  N_of_ascii a < 128 →
  (appendString_step (String a src)).2 = 1%nat
  ∧ String.length (appendString_step (String a src)).1 ≠ 0%nat
  ∧ unquote_step ((appendString_step (String a src)).1 +:+ tail)
    = Bytes (String a "") tail.
Proof.
  destruct a as [[] [] [] [] [] [] [] []]; intros Hascii;
    try (vm_compute in Hascii; discriminate); vm_compute; done.
Qed.

(** A valid encoding of two bytes or more: it is copied, or written as
    an escape for U+2028 and U+2029, and read back as its bytes. *)
Lemma rune_step (a : ascii) (src tail : string) :
  128 ≤ N_of_ascii a →
  invalid_head (String a src) = false →
  let size := (appendString_step (String a src)).2 in
  (1 ≤ size ≤ String.length (String a src))%nat
  ∧ (size ≤ String.length (appendString_step (String a src)).1)%nat
  ∧ size = (utf8_DecodeRune (String a src)).2
  ∧ unquote_step ((appendString_step (String a src)).1 +:+ tail)
    = Bytes (bytes_upto size (String a src)) tail.
Proof.
  intros Hhigh Hvalid. unfold invalid_head in Hvalid.
  unfold appendString_step. rewrite (proj2 (N.ltb_ge _ 128)) by done.
  destruct (utf8_DecodeRune (String a src)) as [c size] eqn:Hdec.
  rewrite Hvalid.
  destruct (DecodeRune_head a src c size Hdec) as (Hsize & Hback & Hlocal & Hc).
  { intros [-> ->]. by rewrite N.eqb_refl in Hvalid. }
  specialize (Hc Hhigh).
  destruct ((c =? 8232) || (c =? 8233)) eqn:Hline.
  - cbn [fst snd]. split; [lia|]. split; [simpl; lia|]. split; [done|].
    rewrite <- Hback.
    apply orb_true_iff in Hline as [->%N.eqb_eq | ->%N.eqb_eq]; vm_compute; done.
  - cbn [fst snd]. split; [lia|].
    split; [by rewrite length_bytes_upto by lia|]. split; [done|].
    destruct size as [|size]; [lia|].
    cbn [bytes_upto]. rewrite append_cons. unfold unquote_step.
    assert (Hne : ∀ n, n < 128 → (N_of_ascii a =? n) = false)
      by (intros n Hn; apply N.eqb_neq; lia).
    rewrite !Hne by lia. rewrite !(proj2 (N.ltb_ge _ _)) by lia.
    rewrite <- append_cons.
    change (String a (bytes_upto size src)) with (bytes_upto (S size) (String a src)).
    rewrite Hlocal, Hback. by rewrite bytes_from_upto by lia.
Qed.

(** The rounds of [appendString] are the rounds of the scanner and of
    [unquoteBytes]: the literal of a valid string is read back as that
    string. *)
Lemma unquote_appendString_from (fuel : nat) (src rest : string) :
  (String.length src ≤ fuel)%nat →
  ValidString_from fuel src = true →
  unquote_from (S fuel) (appendString_from fuel src +:+ quote +:+ rest)
  = Some (src, rest).
Proof.
  revert src. induction fuel as [|fuel IH]; intros [|a src] Hlen Hvalid;
    try (simpl in Hlen; lia); try done.
  cbn [ValidString_from] in Hvalid.
  destruct (invalid_head (String a src)) eqn:Hhead; [done|].
  cbn [appendString_from].
  destruct (appendString_step (String a src)) as [out size] eqn:Hstep.
  rewrite append_assoc.
  assert (Hround : (1 ≤ size ≤ String.length (String a src))%nat
                   ∧ size = (utf8_DecodeRune (String a src)).2
                   ∧ unquote_step (out +:+ appendString_from fuel (bytes_from size (String a src))
                                       +:+ quote +:+ rest)
                     = Bytes (bytes_upto size (String a src))
                             (appendString_from fuel (bytes_from size (String a src))
                              +:+ quote +:+ rest)).
  { destruct (N.lt_ge_cases (N_of_ascii a) 128) as [Hascii|Hhigh].
    - destruct (ascii_step a src (appendString_from fuel (bytes_from size (String a src))
                                  +:+ quote +:+ rest) Hascii) as (Hsize & _ & Hback).
      rewrite Hstep in Hsize, Hback. cbn [fst snd] in Hsize, Hback. subst size.
      split; [simpl; lia|]. split; [|exact Hback].
      unfold utf8_DecodeRune. by rewrite (proj2 (N.ltb_lt _ 128)).
    - destruct (rune_step a src (appendString_from fuel (bytes_from size (String a src))
                                 +:+ quote +:+ rest) Hhigh Hhead)
        as (Hsize & _ & Hdec & Hback).
      rewrite Hstep in Hsize, Hdec, Hback. cbn [fst snd] in Hsize, Hdec, Hback. done. }
  destruct Hround as (Hsize & Hdec & Hback).
  change (unquote_from (S (S fuel)) ?s)
    with (match unquote_step s with
          | Closed rest => Some ("", rest)
          | Bytes b rest =>
              match unquote_from (S fuel) rest with
              | Some (t, rest) => Some (b +:+ t, rest)
              | None => None
              end
          | Malformed => None
          end).
  rewrite Hback, IH.
  - by rewrite bytes_upto_from.
  - rewrite length_bytes_from. simpl in Hlen |- *. lia.
  - by rewrite Hdec.
Qed.

(** The literal is at least as long as the string. *)
Lemma length_appendString_from (fuel : nat) (src : string) :
  (String.length src ≤ fuel)%nat →
  ValidString_from fuel src = true →
  (String.length src ≤ String.length (appendString_from fuel src))%nat.
Proof.
  revert src. induction fuel as [|fuel IH]; intros [|a src] Hlen Hvalid;
    try (simpl in *; lia).
  cbn [ValidString_from] in Hvalid.
  destruct (invalid_head (String a src)) eqn:Hhead; [done|].
  cbn [appendString_from].
  destruct (appendString_step (String a src)) as [out size] eqn:Hstep.
  rewrite length_append.
  assert (Hround : (1 ≤ size ≤ String.length (String a src))%nat
                   ∧ (size ≤ String.length out)%nat
                   ∧ size = (utf8_DecodeRune (String a src)).2).
  { destruct (N.lt_ge_cases (N_of_ascii a) 128) as [Hascii|Hhigh].
    - destruct (ascii_step a src "" Hascii) as (Hsize & Hout & _).
      rewrite Hstep in Hsize, Hout. cbn [fst snd] in Hsize, Hout. subst size.
      split; [simpl; lia|]. split; [lia|].
      unfold utf8_DecodeRune. by rewrite (proj2 (N.ltb_lt _ 128)).
    - destruct (rune_step a src "" Hhigh Hhead) as (Hsize & Hout & Hdec & _).
      rewrite Hstep in Hsize, Hout, Hdec. cbn [fst snd] in Hsize, Hout, Hdec. done. }
  destruct Hround as (Hsize & Hout & Hdec).
  specialize (IH (bytes_from size (String a src))).
  rewrite length_bytes_from in IH. rewrite <- Hdec in Hvalid.
  specialize (IH ltac:(simpl in *; lia) Hvalid). simpl in *. lia.
Qed.

Lemma unquote_from_more (fuel fuel' : nat) (s : string) (result : string * string) :
  unquote_from fuel s = Some result → (fuel ≤ fuel')%nat →
  unquote_from fuel' s = Some result.
Proof.
  revert fuel' s result. induction fuel as [|fuel IH]; intros fuel' s result Hsome Hle;
    [done|].
  destruct fuel' as [|fuel']; [lia|]. cbn [unquote_from] in Hsome |- *.
  destruct (unquote_step s) as [rest|b rest|]; try done.
  destruct (unquote_from fuel rest) as [[t rest']|] eqn:Hrest; [|done].
  by rewrite (IH fuel' rest (t, rest') Hrest) by lia.
Qed.

(** The string literal that [Marshal] writes for a valid string is read
    back as that string, whatever follows the literal. *)
Lemma unquote_appendString (src rest : string) :
  utf8_ValidString src = true →
  unquote (appendString src +:+ rest) = Some (src, rest).
Proof.
  intros Hvalid. unfold appendString, quote at 1.
  rewrite !append_cons. cbn [unquote]. change ("" +:+ ?s) with s.
  change (N_of_ascii "034" =? 34) with true. cbv iota.
  rewrite !append_assoc.
  apply (unquote_from_more (S (String.length src))).
  - by apply unquote_appendString_from.
  - rewrite length_append.
    pose proof (length_appendString_from (String.length src) src ltac:(done) Hvalid).
    lia.
Qed.

End RoundTrip.

Section QueueRoundTrip.
Context `{Platform} `{JSONText}.

Lemma without_prefix_append (p s : string) : without_prefix p (p +:+ s) = Some s.
Proof.
  induction p as [|a p IH]; [by destruct s|].
  rewrite append_cons. cbn [without_prefix]. by rewrite decide_True.
Qed.

Lemma without_last_append (s : string) (z : ascii) :
  without_last (s +:+ String z "") = Some (s, z).
Proof.
  induction s as [|a s IH]; [done|].
  rewrite append_cons. cbn [without_last]. rewrite IH.
  by destruct (s +:+ String z "") eqn:Hs; [destruct s; discriminate|].
Qed.

(** [json.Unmarshal] reads back the envelope that [json.Marshal] wrote for
    a task type of valid UTF-8 and a compact payload. *)
Lemma Unmarshal_Marshal_TaskMessage (taskType payload : string) :
  utf8_ValidString taskType = true →
  json_Compact payload = inl payload →
  ∃ text,
    Marshal_TaskMessage (TaskMessage.mk taskType payload) = inl text
    ∧ Unmarshal_TaskMessage text = inl (TaskMessage.mk taskType payload).
Proof.
  intros Hvalid Hcompact. unfold Marshal_TaskMessage. cbn [TaskMessage.Payload
    TaskMessage.TaskType]. rewrite Hcompact. eexists. split; [reflexivity|].
  unfold Unmarshal_TaskMessage, read_envelope.
  rewrite without_prefix_append, unquote_appendString by done.
  rewrite without_prefix_append.
  change "}" with (String "}"%char "") at 1.
  rewrite without_last_append, decide_True by done.
  rewrite Hcompact. by rewrite decide_True.
Qed.

(** C8: the round trip of the queue.  With the server within reach and
    nothing waiting on the queue, [EnqueueTask] of a task type that is valid
    UTF-8 and of a payload that [json.Marshal] encodes, followed by
    [DequeueTask] on the same queue name, returns an envelope with that task
    type and with exactly the bytes of the encoded payload.  The encoded
    payload is one that compaction leaves as it is, as [json.Marshal] writes
    it. *)
Theorem enqueue_dequeue_round_trip (r : Redis) (queueName taskType : string)
    (payload : Value) (timeout : nat) (payloadBytes : string) :
  failure r = None →
  default [] (lists r !! queueName) = [] →
  utf8_ValidString taskType = true →
  json_Marshal payload = inl payloadBytes →
  json_Compact payloadBytes = inl payloadBytes →
  ∃ r' r'' task,
    EnqueueTask (H := encoding_json) queueName taskType payload r = (r', None)
    ∧ DequeueTask (H := encoding_json) queueName timeout r' = Some (r'', Some task, None)
    ∧ TaskMessage.TaskType task = taskType
    ∧ TaskMessage.Payload task = payloadBytes.
Proof.
  intros Hup Hempty Hvalid Hpayload Hcompact.
  destruct (Unmarshal_Marshal_TaskMessage taskType payloadBytes Hvalid Hcompact)
    as (taskBytes & Htask & Hback).
  destruct (EnqueueTask_appends (H := encoding_json) r queueName taskType payload
              payloadBytes taskBytes Hup Hpayload Htask) as (r' & Henq & Hup' & Hq).
  rewrite Hempty in Hq. simpl in Hq.
  destruct (DequeueTask_head (H := encoding_json) r' queueName timeout taskBytes []
              (TaskMessage.mk taskType payloadBytes) Hup' Hq Hback) as (r'' & Hdeq & _).
  exists r', r'', (TaskMessage.mk taskType payloadBytes). by repeat split.
Qed.

End QueueRoundTrip.

(** A task type with an accent, a quote and angle brackets goes through the
    queue unchanged, and so do the bytes of the payload. *)
Lemma enqueue_dequeue_round_trip_witness :
  ∃ r' r'' task,
    EnqueueTask (H := demo_encoding_json) "workflow_tasks"
                ("exécuter <" +:+ quote +:+ "workflow" +:+ quote +:+ ">")
                demo_payload (mkRedis ∅ None) = (r', None)
    ∧ DequeueTask (H := demo_encoding_json) "workflow_tasks" 5 r'
      = Some (r'', Some task, None)
    ∧ TaskMessage.TaskType task = "exécuter <" +:+ quote +:+ "workflow" +:+ quote +:+ ">"
    ∧ TaskMessage.Payload task = "{" +:+ quote +:+ "execution_id" +:+ quote +:+ ":7}".
Proof.
  apply (enqueue_dequeue_round_trip (H := demo_platform) (H0 := demo_json)
           (mkRedis ∅ None) "workflow_tasks"
           ("exécuter <" +:+ quote +:+ "workflow" +:+ quote +:+ ">") demo_payload 5);
    vm_compute; reflexivity.
Defined.

(** The task type of the one byte 255 is written as the escape of U+FFFD
    and read back as the three bytes of that character: C8 fails as
    stated. *)
Lemma garbled_task_type_is_replaced :
  ¬ round_trips (H := demo_encoding_json) "workflow_tasks" garbled_type demo_payload.
Proof.
  intros Hclaim.
  destruct (Hclaim (mkRedis ∅ None) 5 (demo_encode demo_payload))
    as (r' & r'' & task & Henq & Hdeq & Htype & _); [done..|].
  assert (Hread :
            (DequeueTask (H := demo_encoding_json) "workflow_tasks" 5
               (EnqueueTask (H := demo_encoding_json) "workflow_tasks" garbled_type
                  demo_payload (mkRedis ∅ None)).1)
            ≫= (fun out => TaskMessage.TaskType <$> out.1.2)
            = Some replacement_character) by (vm_compute; reflexivity).
  rewrite Henq in Hread. cbn [fst] in Hread. rewrite Hdeq in Hread.
  simpl in Hread. rewrite Htype in Hread. discriminate.
Qed.

(** ** The bounds of the loops

    The loops of [appendString] and of [unquoteBytes] are bounded by the
    length of their input: every round takes at least one byte, so more
    rounds change nothing. *)

Section Rounds.
Local Open Scope N_scope.

Lemma DecodeRune_size (a : ascii) (p : string) :
  (1 ≤ (utf8_DecodeRune (String a p)).2 ≤ 4)%nat.
Proof.
  unfold utf8_DecodeRune.
  repeat match goal with
         | |- context [if ?c then _ else _] => destruct c
         | |- context [match ?x with _ => _ end] => destruct x
         end; simpl; lia.
Qed.

Lemma appendString_step_size (a : ascii) (src : string) :
  (1 ≤ (appendString_step (String a src)).2)%nat.
Proof.
  destruct (N.lt_ge_cases (N_of_ascii a) 128) as [Hascii|Hhigh].
  - destruct (ascii_step a src "" Hascii) as (-> & _). done.
  - unfold appendString_step. rewrite (proj2 (N.ltb_ge _ 128)) by done.
    pose proof (DecodeRune_size a src) as Hsize.
    destruct (utf8_DecodeRune (String a src)) as [c size]. cbn [snd] in Hsize.
    repeat match goal with
           | |- context [if ?c then _ else _] => destruct c
           end; simpl; lia.
Qed.

Lemma appendString_from_rounds (fuel fuel' : nat) (src : string) :
  (String.length src ≤ fuel)%nat → (String.length src ≤ fuel')%nat →
  appendString_from fuel src = appendString_from fuel' src.
Proof.
  revert fuel' src. induction fuel as [|fuel IH]; intros [|fuel'] [|a src] Hfuel Hfuel';
    try (simpl in *; lia); try done.
  cbn [appendString_from].
  pose proof (appendString_step_size a src) as Hsize.
  destruct (appendString_step (String a src)) as [out size]. cbn [snd] in Hsize.
  f_equal. apply IH; rewrite length_bytes_from; simpl in *; lia.
Qed.

Lemma getu4_length (s : string) (r : N) : getu4 s = Some r → (6 ≤ String.length s)%nat.
Proof.
  destruct s as [|c0 [|c1 [|h1 [|h2 [|h3 [|h4 s]]]]]]; try done. simpl. lia.
Qed.

Lemma unquote_step_shorter (s b rest : string) :
  unquote_step s = Bytes b rest → (String.length rest < String.length s)%nat.
Proof.
  destruct s as [|c s1]; [done|]. unfold unquote_step.
  destruct (N_of_ascii c =? 92).
  - destruct s1 as [|e s2]; [done|]. cbv zeta.
    set (s6 := bytes_from 6 (String c (String e s2))).
    assert (H6 : String.length s6 = (String.length (String c (String e s2)) - 6)%nat)
      by apply length_bytes_from.
    set (s12 := bytes_from 6 s6).
    assert (H12 : String.length s12 = (String.length s6 - 6)%nat)
      by apply length_bytes_from.
    destruct (getu4 (String c (String e s2))) as [rr|] eqn:Hrr.
    + pose proof (getu4_length _ _ Hrr) as Hlen.
      destruct (getu4 s6) as [rr1|] eqn:Hrr1.
      * pose proof (getu4_length _ _ Hrr1) as Hlen1. clearbody s6 s12.
        repeat match goal with
               | |- context [if ?c then _ else _] => destruct c
               end; intros [= <- <-]; simpl in *; lia.
      * clearbody s6 s12.
        repeat match goal with
               | |- context [if ?c then _ else _] => destruct c
               end; intros [= <- <-]; simpl in *; lia.
    + clearbody s6 s12.
      repeat match goal with
             | |- context [if ?c then _ else _] => destruct c
             end; intros [= <- <-]; simpl; lia.
  - pose proof (DecodeRune_size c s1) as Hsize.
    destruct (utf8_DecodeRune (String c s1)) as [rr size]. cbn [snd] in Hsize.
    pose proof (length_bytes_from size (String c s1)) as Hrest.
    set (rest' := bytes_from size (String c s1)) in *. clearbody rest'.
    repeat match goal with
           | |- context [if ?c then _ else _] => destruct c
           end; intros [= <- <-]; simpl in *; lia.
Qed.

Lemma unquote_from_rounds (fuel fuel' : nat) (s : string) :
  (String.length s < fuel)%nat → (String.length s < fuel')%nat →
  unquote_from fuel s = unquote_from fuel' s.
Proof.
  revert fuel' s. induction fuel as [|fuel IH]; intros [|fuel'] s Hfuel Hfuel'; try lia.
  cbn [unquote_from].
  destruct (unquote_step s) as [rest|b rest|] eqn:Hstep; try done.
  apply unquote_step_shorter in Hstep.
  by rewrite (IH fuel' rest) by lia.
Qed.

End Rounds.
(** ** The default node types *)

Lemma DB_Count_NodeType_created (key : string) (nodeType : NodeType.t) (w : World) :
  DB_Count_NodeType key (DB_Create_NodeType nodeType w)
  = DB_Count_NodeType key w + (if decide (NodeType.Key nodeType = key) then 1 else 0).
Proof.
  unfold DB_Count_NodeType. simpl. rewrite List.filter_app, length_app. f_equal.
  simpl. by destruct (decide (NodeType.Key nodeType = key));
    [rewrite bool_decide_true | rewrite bool_decide_false].
Qed.

Lemma registerNodeType_registered (w : World) (nodeType : NodeType.t) :
  DB_Count_NodeType (NodeType.Key nodeType) (registerNodeType w nodeType) ≠ 0.
Proof.
  unfold registerNodeType. destruct (decide _) as [Hnone|Hsome]; [|done].
  rewrite DB_Count_NodeType_created, decide_True by done. lia.
Qed.

Lemma registerNodeType_keeps (key : string) (w : World) (nodeType : NodeType.t) :
  DB_Count_NodeType key w ≠ 0 →
  DB_Count_NodeType key (registerNodeType w nodeType) ≠ 0.
Proof.
  intros Hkey. unfold registerNodeType. destruct (decide _); [|done].
  rewrite DB_Count_NodeType_created. lia.
Qed.

Lemma foldl_registerNodeType_keeps (key : string) (l : list NodeType.t) (w : World) :
  DB_Count_NodeType key w ≠ 0 →
  DB_Count_NodeType key (foldl registerNodeType w l) ≠ 0.
Proof.
  revert w. induction l as [|t l IH]; intros w Hkey; [done|].
  simpl. by apply IH, registerNodeType_keeps.
Qed.

Lemma foldl_registerNodeType_registered (l : list NodeType.t) (w : World)
    (nodeType : NodeType.t) :
  nodeType ∈ l →
  DB_Count_NodeType (NodeType.Key nodeType) (foldl registerNodeType w l) ≠ 0.
Proof.
  revert w. induction l as [|t l IH]; intros w Hin; [inversion Hin|].
  simpl. apply elem_of_cons in Hin as [->|Hin]; [|by apply IH].
  apply foldl_registerNodeType_keeps, registerNodeType_registered.
Qed.

Lemma foldl_registerNodeType_nothing (l : list NodeType.t) (w : World) :
  (∀ nodeType, nodeType ∈ l → DB_Count_NodeType (NodeType.Key nodeType) w ≠ 0) →
  foldl registerNodeType w l = w.
Proof.
  induction l as [|t l IH]; intros Hall; [done|]. simpl.
  assert (Ht : registerNodeType w t = w).
  { unfold registerNodeType. rewrite decide_False; [done|]. apply Hall. left. }
  rewrite Ht. apply IH. intros nodeType Hin. apply Hall. by right.
Qed.

(** The rows that the registration adds stand behind the rows of the store,
    and each of them names its own key as its executor class. *)
Lemma foldl_registerNodeType_rows (l : list NodeType.t) (w : World) :
  Forall (fun t => NodeType.ExecutorClass t = NodeType.Key t) l →
  ∃ added,
    node_types (foldl registerNodeType w l) = node_types w ++ added
    ∧ Forall (fun t => NodeType.ExecutorClass t = NodeType.Key t) added.
Proof.
  revert w. induction l as [|t l IH]; intros w Hl.
  - exists []. by rewrite app_nil_r.
  - apply Forall_cons in Hl as [Ht Hl]. simpl.
    destruct (IH (registerNodeType w t) Hl) as (added & -> & Hadded).
    unfold registerNodeType. destruct (decide _); [|by exists added].
    simpl. eexists (_ :: added). rewrite <- app_assoc. split; [reflexivity|].
    by constructor.
Qed.

Lemma find_app_Some {A} (p : A → bool) (l1 l2 : list A) (x : A) :
  List.find p l1 = Some x → List.find p (l1 ++ l2) = Some x.
Proof.
  induction l1 as [|y l1 IH]; [done|]. simpl. by destruct (p y).
Qed.



(** X28: Registering the default node types twice is the same as registering
    them once. *)
Theorem registerDefaultNodeTypes_is_idempotent (w : World) :
  registerDefaultNodeTypes (registerDefaultNodeTypes w) = registerDefaultNodeTypes w.
Proof.
  unfold registerDefaultNodeTypes at 1. apply foldl_registerNodeType_nothing.
  intros nodeType Hin. by apply foldl_registerNodeType_registered.
Qed.

(** X29: A node type that the store has already is not replaced: the row found
    under a key before [registerDefaultNodeTypes] is the row found
    afterwards, whatever executor class it names. *)
Theorem registered_node_types_are_kept (w : World) (key : string) (nodeType : NodeType.t) :
  DB_First_NodeType key w = Some nodeType →
  DB_First_NodeType key (registerDefaultNodeTypes w) = Some nodeType.
Proof.
  intros Hfirst. unfold DB_First_NodeType, registerDefaultNodeTypes.
  destruct (foldl_registerNodeType_rows defaultNodeTypes w) as (added & -> & _).
  { repeat constructor. }
  by apply find_app_Some.
Qed.

Section DefaultNodeTypes.
Context `{Platform}.


End DefaultNodeTypes.

(** ** The further properties on examples *)

(** The name of the user of [ann] is found under [user.name]. *)
Lemma getNestedValue_follows_dotted_paths_witness :
  FilterExecutor_getNestedValue ann ("user" +:+ "." +:+ "name")
  = FilterExecutor_getNestedValue (FilterExecutor_getNestedValue ann "user") "name"
  ∧ TransformExecutor_getNestedValue ann ("user" +:+ "." +:+ "name")
    = TransformExecutor_getNestedValue (TransformExecutor_getNestedValue ann "user") "name".
Proof.
  apply (getNestedValue_follows_dotted_paths ann "user" "name"); discriminate.
Defined.

Lemma template_slice_within_bounds_witness :
  2 ≤ String.length "{{name}}" - 2
  ∧ String.length "{{name}}" - 2 ≤ String.length "{{name}}".
Proof.
  apply (template_slice_within_bounds "{{name}}"); vm_compute; reflexivity.
Defined.

(** The operators are case-sensitive: with [Equals] nothing is kept. *)
Lemma filter_unknown_operator_selects_nothing_witness :
  FilterExecutor_Execute (H := demo_platform) (status_config [VStr "Equals"])
                         {[ "input" := VList [ann] ]}
  = (VList [], None).
Proof.
  apply (filter_unknown_operator_selects_nothing (H := demo_platform) _ _ "Equals").
  - vm_compute. reflexivity.
  - apply (bool_decide_unpack _). vm_compute. exact I.
Defined.

Lemma filter_operator_defaults_to_equals_witness :
  FilterExecutor_Execute (H := demo_platform) (status_config [])
                         {[ "input" := VList [ann] ]}
  = FilterExecutor_Execute (H := demo_platform)
      (<["operator" := VStr "equals"]> (status_config [])) {[ "input" := VList [ann] ]}.
Proof.
  apply (filter_operator_defaults_to_equals (H := demo_platform)).
  intros operator Hoperator. vm_compute in Hoperator. discriminate.
Defined.

(** [ann] has no field [email]; without a value to compare with she is
    kept. *)
Lemma filter_without_value_keeps_items_without_the_field_witness :
  ∃ filtered,
    FilterExecutor_Execute (H := demo_platform)
      {[ "field" := VStr "email"; "operator" := VStr "equals" ]}
      {[ "input" := VList [ann] ]}
    = (VList filtered, None)
    ∧ ann ∈ filtered.
Proof.
  apply (filter_without_value_keeps_items_without_the_field (H := demo_platform)
           _ _ "email" ann).
  - vm_compute. reflexivity.
  - vm_compute. reflexivity.
  - vm_compute. reflexivity.
  - rewrite inputItems_singleton. apply list_elem_of_here.
  - vm_compute. reflexivity.
Defined.

(** Two ports, neither of them named [input]: nothing is read. *)
Lemma several_ports_without_input_give_nothing_witness :
  FilterExecutor_Execute (H := demo_platform) (status_config [VStr "equals"]) two_ports
  = (VList [], None)
  ∧ (is_Some (status_config [VStr "equals"] !! "mapping") →
     TransformExecutor_Execute (status_config [VStr "equals"]) two_ports
     = (VList [], None)).
Proof.
  apply (several_ports_without_input_give_nothing (H := demo_platform)).
  - vm_compute. discriminate.
  - intros items. vm_compute. discriminate.
Defined.

Lemma transform_output_has_the_keys_of_the_mapping_witness :
  ∃ out,
    TransformExecutor_Execute {[ "mapping" := VMap {[ "name" := VStr "{{first}}" ]} ]}
                              full_name_input
    = (VList out, None)
    ∧ length out = length (inputItems full_name_input)
    ∧ Forall (fun o => ∃ m', o = VMap m'
                             ∧ dom m' = dom ({[ "name" := VStr "{{first}}" ]}
                                             : gmap string Value)) out.
Proof.
  apply (transform_output_has_the_keys_of_the_mapping
           {[ "mapping" := VMap {[ "name" := VStr "{{first}}" ]} ]} full_name_input
           {[ "name" := VStr "{{first}}" ]}).
  vm_compute. reflexivity.
Defined.

(** The placeholder in the list of tags stays as it is written. *)
Lemma transform_without_templates_repeats_the_mapping_witness :
  TransformExecutor_Execute {[ "mapping" := tagged_mapping ]} full_name_input
  = (VList (replicate (length (inputItems full_name_input)) tagged_mapping), None).
Proof.
  apply (transform_without_templates_repeats_the_mapping
           {[ "mapping" := tagged_mapping ]} full_name_input tagged_mapping).
  - vm_compute. reflexivity.
  - apply free_map.
    + intros key v Hkey. apply lookup_singleton_Some in Hkey as [_ Hv]. discriminate.
    + apply map_Forall_singleton, free_list. repeat constructor.
Defined.

Lemma transform_placeholder_selects_the_field_witness :
  ∃ m',
    TransformExecutor_applyMapping ann
      (VMap {[ "who" := VStr ("{{" +:+ " user.name " +:+ "}}") ]}) = VMap m'
    ∧ m' !! "who"
      = Some (TransformExecutor_getNestedValue ann (strings_TrimSpace " user.name ")).
Proof.
  apply (transform_placeholder_selects_the_field ann
           {[ "who" := VStr ("{{" +:+ " user.name " +:+ "}}") ]} "who" " user.name ").
  vm_compute. reflexivity.
Defined.

(** The diamond: the Run completes, and its row says so. *)
Lemma run_row_records_the_outcome_witness :
  ∃ run t,
    DB_First_WorkflowExecution 1 (ExecuteWorkflow (H := demo_platform) 10 1 diamond).1
    = Some run
    ∧ WorkflowExecution.StartedAt run = 1
    ∧ WorkflowExecution.CompletedAt run = Some t
    ∧ 1 < t
    ∧ WorkflowExecution.Status run = "completed"
    ∧ WorkflowExecution.ErrorMessage run = "".
Proof.
  apply (run_row_records_the_outcome (H := demo_platform) 10 1 demo_execution diamond
           (ExecuteWorkflow (H := demo_platform) 10 1 diamond).1 None).
  - reflexivity.
  - vm_compute. reflexivity.
Defined.

(** Run 1 of the triangle next to the earlier Run 2: Run 1 adds four
    step-runs of its own, and the row of Run 2 and its three step-runs are
    what they were. *)
Lemma other_runs_are_left_alone_witness :
  (DB_First_WorkflowExecution 2 two_runs = Some earlier_run
   ∧ run_step_runs 2 two_runs = earlier_step_runs
   ∧ length (run_step_runs 1 (ExecuteWorkflow (H := demo_platform) 10 1 two_runs).1) = 4)
  ∧ same_graph two_runs (ExecuteWorkflow (H := demo_platform) 10 1 two_runs).1
  ∧ DB_First_WorkflowExecution 2 (ExecuteWorkflow (H := demo_platform) 10 1 two_runs).1
    = DB_First_WorkflowExecution 2 two_runs
  ∧ run_step_runs 2 (ExecuteWorkflow (H := demo_platform) 10 1 two_runs).1
    = run_step_runs 2 two_runs.
Proof.
  split.
  - split; [reflexivity|]. split; [reflexivity|]. vm_compute. reflexivity.
  - apply (other_runs_are_left_alone (H := demo_platform) 10 1 2 two_runs). lia.
Defined.

Lemma bad_input_fails_before_any_step_witness :
  ∃ w' run,
    ExecuteWorkflow (H := demo_platform) 10 1 cut_short
    = (w', Returned (Some ("failed to parse input data: " +:+ "invalid character")))
    ∧ node_executions w' = node_executions cut_short
    ∧ DB_First_WorkflowExecution 1 w' = Some run
    ∧ WorkflowExecution.Status run = "failed"
    ∧ WorkflowExecution.ErrorMessage run
      = "failed to parse input data: " +:+ "invalid character".
Proof.
  apply (bad_input_fails_before_any_step (H := demo_platform) 10 1 cut_short_execution
           cut_short "invalid character").
  - reflexivity.
  - vm_compute. discriminate.
  - reflexivity.
Defined.

(** The diamond: the output has an entry for each of the four nodes. *)
Lemma output_holds_the_executed_nodes_witness :
  ∃ run results,
    DB_First_WorkflowExecution 1 (ExecuteWorkflow (H := demo_platform) 10 1 diamond).1
    = Some run
    ∧ json_Marshal_Results (Platform := demo_platform) results
      = inl (WorkflowExecution.OutputData run)
    ∧ ∀ n, is_Some (results !! n)
           ↔ step_runs 1 n (ExecuteWorkflow (H := demo_platform) 10 1 diamond).1 ≠ [].
Proof.
  apply (output_holds_the_executed_nodes (H := demo_platform) 10 1 demo_execution diamond).
  - reflexivity.
  - reflexivity.
  - vm_compute. reflexivity.
Defined.

Lemma lasso_within : connections_within_workflow demo_execution lasso.
Proof.
  unfold connections_within_workflow.
  apply (proj1 (Forall_forall
    (fun c => Connection.SourceNodeID c ∈ workflow_node_ids demo_execution lasso
              ∨ Connection.TargetNodeID c ∈ workflow_node_ids demo_execution lasso →
              c ∈ Preload_Workflow_Connections demo_execution lasso
              ∧ Connection.SourceNodeID c ∈ workflow_node_ids demo_execution lasso
              ∧ Connection.TargetNodeID c ∈ workflow_node_ids demo_execution lasso) _)).
  apply (bool_decide_unpack _). by vm_compute.
Qed.

Lemma lasso_edge (id a b : nat) :
  demo_connection id a b ∈ connections lasso → edge demo_execution lasso a b.
Proof.
  intros Hin. exists (demo_connection id a b). split; [|by split].
  destruct (lasso_within _ Hin) as [Hc _]; [|done].
  right. simpl. apply list_elem_of_In in Hin. simpl in Hin.
  destruct Hin as [[= <- <- <-]|[[= <- <- <-]|[[= <- <- <-]|[]]]];
    apply (bool_decide_unpack _); by vm_compute.
Qed.

(** In the lasso the Run reports that it has completed, with a step-run of
    node 1 only. *)
Example lasso_completes_after_one_node :
  (ExecuteWorkflow (H := demo_platform) 10 1 lasso).2 = Returned None
  ∧ NodeExecution.NodeID
      <$> node_executions (ExecuteWorkflow (H := demo_platform) 10 1 lasso).1 = [1].
Proof. split; vm_compute; reflexivity. Qed.

(** In the lasso node 3 lies on the cycle through node 2. *)
Lemma nodes_behind_a_cycle_are_never_executed_witness :
  step_runs 1 3 (ExecuteWorkflow (H := demo_platform) 10 1 lasso).1 = [].
Proof.
  apply (nodes_behind_a_cycle_are_never_executed (H := demo_platform) 10 1 demo_execution
           lasso _ (ExecuteWorkflow (H := demo_platform) 10 1 lasso).2 2 3).
  - reflexivity.
  - exact lasso_within.
  - reflexivity.
  - apply surjective_pairing.
  - eapply tc_l; [|apply tc_once].
    + apply (lasso_edge 2 2 3), list_elem_of_In. vm_compute. auto.
    + apply (lasso_edge 3 3 2), list_elem_of_In. vm_compute. auto.
  - apply rtc_once, (lasso_edge 2 2 3), list_elem_of_In. vm_compute. auto.
Defined.


(** In [stray_ring] the workflow of the Run has no connection, the ring of
    the other workflow leads the Run through its node again and again, and
    the stack overflows whatever room it has. *)
Example stray_ring_overflows :
  Preload_Workflow_Connections demo_execution stray_ring = []
  ∧ Forall (fun depth =>
              (ExecuteWorkflow (H := demo_platform) depth 1 stray_ring).2 = StackOverflow)
           (seq 1 12).
Proof.
  split; [reflexivity|].
  cbn [seq]. repeat (apply List.Forall_cons; [vm_compute; reflexivity|]).
  apply List.Forall_nil.
Qed.

Lemma missing_node_type_fails_without_a_step_run_witness :
  ∃ w' run,
    ExecuteWorkflow (H := demo_platform) 10 1 untyped
    = (w', Returned (Some "record not found"))
    ∧ node_executions w' = node_executions untyped
    ∧ DB_First_WorkflowExecution 1 w' = Some run
    ∧ WorkflowExecution.Status run = "failed"
    ∧ WorkflowExecution.ErrorMessage run = "record not found".
Proof.
  apply (missing_node_type_fails_without_a_step_run (H := demo_platform) 10 1
           demo_execution untyped (demo_node 1 "script") (demo_node 1 "script") [] ∅).
  - reflexivity.
  - reflexivity.
  - reflexivity.
  - reflexivity.
  - reflexivity.
  - lia.
Defined.

Lemma node_without_executor_fails_without_completion_witness :
  ∃ w' run row,
    ExecuteWorkflow (H := demo_platform) 10 1 scripted
    = (w', Returned (Some ("unknown executor class: " +:+ "python")))
    ∧ DB_First_WorkflowExecution 1 w' = Some run
    ∧ WorkflowExecution.Status run = "failed"
    ∧ WorkflowExecution.ErrorMessage run = "unknown executor class: " +:+ "python"
    ∧ node_executions w' = node_executions scripted ++ [row]
    ∧ NodeExecution.NodeID row = 1
    ∧ NodeExecution.Status row = "failed"
    ∧ NodeExecution.ErrorMessage row
      = "failed to load executor: " +:+ "unknown executor class: " +:+ "python"
    ∧ NodeExecution.StartedAt row = Some 2
    ∧ NodeExecution.CompletedAt row = None.
Proof.
  apply (node_without_executor_fails_without_completion (H := demo_platform) 10 1
           demo_execution scripted (demo_node 1 "script") (demo_node 1 "script") [] ∅
           script_type).
  - reflexivity.
  - reflexivity.
  - reflexivity.
  - reflexivity.
  - reflexivity.
  - reflexivity.
  - lia.
Defined.

(** A second task behind the waiting one: the waiting one comes first. *)
Lemma oldest_task_is_dequeued_first_witness :
  ∃ r' r'',
    EnqueueTask (H := demo_codec) "workflow_tasks" "execute_workflow"
                (VMap {[ "execution_id" := VInt 8 ]}) waiting_server = (r', None)
    ∧ DequeueTask (H := demo_codec) "workflow_tasks" 5 r' = Some (r'', Some demo_task, None)
    ∧ lists r'' !! "workflow_tasks"
      = Some ([] ++ [demo_encode_TaskMessage
                       (TaskMessage.mk "execute_workflow"
                          ("{" +:+ quote +:+ "execution_id" +:+ quote +:+ ":8}"))]).
Proof.
  apply (oldest_task_is_dequeued_first (H := demo_codec) waiting_server "workflow_tasks"
           "execute_workflow" (VMap {[ "execution_id" := VInt 8 ]}) 5
           ("{" +:+ quote +:+ "execution_id" +:+ quote +:+ ":8}") _ demo_envelope []
           demo_task); vm_compute; reflexivity.
Defined.

Lemma dequeued_task_was_the_head_witness :
  (None : option error) = None
  ∧ ∃ head waiting,
      lists waiting_server !! "workflow_tasks" = Some (head :: waiting)
      ∧ json_Unmarshal_TaskMessage (Codec := demo_codec) head = inl demo_task
      ∧ default [] (lists (mkRedis ∅ None) !! "workflow_tasks") = waiting.
Proof.
  apply (dequeued_task_was_the_head (H := demo_codec) waiting_server (mkRedis ∅ None)
           "workflow_tasks" 5 demo_task None).
  vm_compute. reflexivity.
Defined.

Lemma undecodable_task_is_dropped_witness :
  ∃ r',
    DequeueTask (H := demo_codec) "workflow_tasks" 5 garbled_server
    = Some (r', None,
            Some ("failed to unmarshal task: " +:+ "unexpected end of JSON input"))
    ∧ default [] (lists r' !! "workflow_tasks") = [demo_envelope].
Proof.
  apply (undecodable_task_is_dropped (H := demo_codec) garbled_server "workflow_tasks" 5
           "garbage" [demo_envelope] "unexpected end of JSON input");
    vm_compute; reflexivity.
Defined.

Lemma queues_do_not_interfere_witness :
  lists (EnqueueTask (H := demo_codec) "mail_tasks" "send_mail" demo_payload
                     waiting_server).1 !! "workflow_tasks"
  = lists waiting_server !! "workflow_tasks"
  ∧ ∀ r' task err,
      DequeueTask (H := demo_codec) "mail_tasks" 5 waiting_server = Some (r', task, err) →
      lists r' !! "workflow_tasks" = lists waiting_server !! "workflow_tasks".
Proof.
  apply (queues_do_not_interfere (H := demo_codec) waiting_server "mail_tasks"
           "workflow_tasks" "send_mail" demo_payload 5).
  discriminate.
Defined.

(** The store in which [filter] names a plugin keeps it. *)
Lemma registered_node_types_are_kept_witness :
  DB_First_NodeType "filter" (registerDefaultNodeTypes plugged) = Some plugged_filter.
Proof.
  apply (registered_node_types_are_kept plugged "filter" plugged_filter). reflexivity.
Defined.

